(** * libhfsuser: a shallow embedding of [lib/libhfsuser/hfsuser.c]

    The development follows the layout of the C file: the record cache
    (a ring of [struct recordcache] nodes), the HFS+ variant of NFD
    normalisation, pathname conversion, [hfs_get_path], [hfs_lookup],
    [hfs_serialize_finderinfo] and the [pread] based [hfs_read].

    Conventions.
    - C integers are [Z]; where the C type wraps, the wrap is written out.
    - A C string is the list of its bytes before the terminating NUL.
    - A pointer into a buffer is an index ([nat]) into a [list Z]; writes use
      stdpp's list insert.
    - Functions of libhfs, utf8proc and unicode.c, which this file only calls,
      are [Variable]s of the section that uses them. *)

From Stdlib Require Import ZArith List String Ascii Lia Bool.
From stdpp Require Import base list.

Import ListNotations.
Local Open Scope Z_scope.

(** ** C strings *)

Definition cstring := list Z.

(** Bytes of a literal, for readable examples. *)
Definition cstr (s : string) : cstring :=
  map (fun a => Z.of_N (N_of_ascii a)) (list_ascii_of_string s).

(** [strcmp]: zero exactly when both strings are the same, otherwise the sign
    of the first difference (the end of a string compares below any byte). *)
Fixpoint strcmp (a b : cstring) : Z :=
  match a, b with
  | [], [] => 0
  | [], _ :: _ => -1
  | _ :: _, [] => 1
  | x :: a', y :: b' =>
      if x =? y then strcmp a' b' else if x <? y then -1 else 1
  end.

(** [strchr(s, c)]: index of the first [c] in [s], [None] for NULL. *)
Fixpoint strchr (s : cstring) (c : Z) : option nat :=
  match s with
  | [] => None
  | x :: s' => if x =? c then Some O else option_map S (strchr s' c)
  end.

(** [strsep(&stringp, "/")] for the one-character delimiter the code uses:
    [None] is a NULL [*stringp]; the result is the token (NULL when [*stringp]
    was NULL) and the new [*stringp]. *)
Definition strsep (stringp : option cstring) (delim : Z)
  : option cstring * option cstring :=
  match stringp with
  | None => (None, None)
  | Some s =>
      match strchr s delim with
      | None => (Some s, None)
      | Some i => (Some (take i s), Some (drop (S i) s))
      end
  end.

(** ** Catalog data (the parts of libhfs.h this file touches) *)

Definition hfs_cnid_t := Z.

Definition HFS_CNID_ROOT_FOLDER : hfs_cnid_t := 2.
Definition HFS_DATAFORK : Z := 0x00.
Definition HFS_RSRCFORK : Z := 0xFF.

(** Four-character codes of the link sentinels: 'MACS', 'fdrp', 'hfs+',
    'hlnk'. *)
Definition HFS_MACS_CREATOR : Z := 0x4d414353.
Definition HFS_DIR_HARD_LINK_FILE_TYPE : Z := 0x66647270.
Definition HFS_HFSPLUS_CREATOR : Z := 0x6866732b.
Definition HFS_HARD_LINK_FILE_TYPE : Z := 0x686c6e6b.

(** [hfs_unistr255_t]: a length and the UTF-16 code units. *)
Record hfs_unistr255_t := {
  us_length : Z;
  us_unicode : list Z
}.

Record hfs_catalog_key_t := {
  key_parent_cnid : hfs_cnid_t;
  key_name : hfs_unistr255_t
}.

Record hfs_thread_record_t := {
  thread_parent_cnid : hfs_cnid_t;
  thread_name : hfs_unistr255_t
}.

Record hfs_macos_point_t := { pt_v : Z; pt_h : Z }.
Record hfs_macos_rect_t := { rc_t : Z; rc_l : Z; rc_b : Z; rc_r : Z }.

(** [file.user_info] *)
Record hfs_macos_file_info_t := {
  fi_file_type : Z;            (* 32 bits *)
  fi_file_creator : Z;         (* 32 bits *)
  fi_finder_flags : Z;         (* 16 bits *)
  fi_location : hfs_macos_point_t;
  fi_reserved : Z              (* 16 bits *)
}.

(** [file.finder_info] *)
Record hfs_macos_extended_file_info_t := {
  xfi_reserved : list Z;       (* reserved[4], 16 bits each *)
  xfi_extended_finder_flags : Z;
  xfi_reserved2 : Z;
  xfi_put_away_folder_cnid : Z (* 32 bits *)
}.

(** [folder.user_info] *)
Record hfs_macos_folder_info_t := {
  di_window_bounds : hfs_macos_rect_t;
  di_finder_flags : Z;
  di_location : hfs_macos_point_t;
  di_reserved : Z              (* 16 bits *)
}.

(** [folder.finder_info] *)
Record hfs_macos_extended_folder_info_t := {
  xdi_scroll_position : hfs_macos_point_t;
  xdi_reserved : Z;            (* 32 bits *)
  xdi_extended_finder_flags : Z;
  xdi_reserved2 : Z;
  xdi_put_away_folder_cnid : Z (* 32 bits *)
}.

Record hfs_file_record_t := {
  file_cnid : hfs_cnid_t;
  file_user_info : hfs_macos_file_info_t;
  file_finder_info : hfs_macos_extended_file_info_t;
  file_inode_num : Z           (* bsd.special.inode_num *)
}.

Record hfs_folder_record_t := {
  folder_cnid : hfs_cnid_t;
  folder_user_info : hfs_macos_folder_info_t;
  folder_finder_info : hfs_macos_extended_folder_info_t
}.

(** [hfs_catalog_keyed_record_t] is a union tagged by [type]; the code reads
    [folder.*] only after [type == HFS_REC_FLDR] and [file.*] only after
    [type == HFS_REC_FILE]. [Rec_OTHER] stands for every other tag (thread
    records). *)
Inductive hfs_catalog_keyed_record_t :=
| Rec_FLDR (folder : hfs_folder_record_t)
| Rec_FILE (file : hfs_file_record_t)
| Rec_OTHER (type : Z).

Definition is_FLDR (r : hfs_catalog_keyed_record_t) : bool :=
  match r with Rec_FLDR _ => true | _ => false end.
Definition is_FILE (r : hfs_catalog_keyed_record_t) : bool :=
  match r with Rec_FILE _ => true | _ => false end.

(** [rec.folder.cnid] / [rec.file.cnid] (same offset in the union). *)
Definition rec_cnid (r : hfs_catalog_keyed_record_t) : hfs_cnid_t :=
  match r with
  | Rec_FLDR d => folder_cnid d
  | Rec_FILE f => file_cnid f
  | Rec_OTHER _ => 0
  end.

(** ** The record cache *)

Definition RING_BUFFER_SIZE : nat := 1024.

(** [struct recordcache]. Pointers to nodes are indices into the heap of
    nodes. [malloc] leaves a node indeterminate; the model fills it with
    [blank_node], whose fields are all written before they are read. *)
Record recordcache := {
  next : nat;
  prev : nat;
  path : option cstring;
  record : hfs_catalog_keyed_record_t;
  key : hfs_catalog_key_t
}.

Definition blank_key : hfs_catalog_key_t :=
  {| key_parent_cnid := 0; key_name := {| us_length := 0; us_unicode := [] |} |}.

Definition blank_node : recordcache :=
  {| next := O; prev := O; path := None; record := Rec_OTHER 0; key := blank_key |}.

(** The global [head] (NULL before [ringbuffer_init]) and the nodes. *)
Record cache_state := {
  heap : list recordcache;
  head : option nat
}.

Definition cache_null : cache_state := {| heap := []; head := None |}.

Definition set_next (v : nat) (n : recordcache) : recordcache :=
  {| next := v; prev := prev n; path := path n; record := record n; key := key n |}.
Definition set_prev (v : nat) (n : recordcache) : recordcache :=
  {| next := next n; prev := v; path := path n; record := record n; key := key n |}.
Definition set_path (v : option cstring) (n : recordcache) : recordcache :=
  {| next := next n; prev := prev n; path := v; record := record n; key := key n |}.
Definition set_entry (p : cstring) (r : hfs_catalog_keyed_record_t)
    (k : hfs_catalog_key_t) (n : recordcache) : recordcache :=
  {| next := next n; prev := prev n; path := Some p; record := r; key := k |}.

Definition malloc_node (h : list recordcache) : nat * list recordcache :=
  (length h, h ++ [blank_node]).

(** [p->next], for a pointer [p] into the heap. *)
Definition next_of (h : list recordcache) (p : nat) : nat :=
  match h !! p with Some n => next n | None => O end.
Definition prev_of (h : list recordcache) (p : nat) : nat :=
  match h !! p with Some n => prev n | None => O end.

(** The body of the [for] loop of [ringbuffer_init], [i] iterations. *)
Fixpoint ringbuffer_init_loop (i : nat) (tail : nat) (h : list recordcache)
  : nat * list recordcache :=
  match i with
  | O => (tail, h)
  | S i' =>
      let '(p, h) := malloc_node h in
      let h := alter (set_next p) tail h in             (* tail->next = malloc *)
      let h := alter (set_prev tail) (next_of h tail) h in (* tail->next->prev = tail *)
      let tail := next_of h tail in                     (* tail = tail->next *)
      let h := alter (set_path None) tail h in          (* tail->path = NULL *)
      ringbuffer_init_loop i' tail h
  end.

Definition ringbuffer_init : cache_state :=
  let '(hd, h) := malloc_node [] in                     (* tail = head = malloc *)
  let h := alter (set_path None) hd h in                (* head->path = NULL *)
  let '(tail, h) := ringbuffer_init_loop RING_BUFFER_SIZE hd h in
  let h := alter (set_next hd) tail h in                (* tail->next = head *)
  let h := alter (set_prev tail) hd h in                (* head->prev = tail *)
  {| heap := h; head := Some hd |}.

(** The [do ... while(it != head)] loop of [ringbuffer_lookup]. The result is
    [None] when the fuel runs out or a pointer leaves the heap; otherwise
    [Some None] for a miss and [Some (Some (record, key))] for a hit. *)
Fixpoint ringbuffer_lookup_loop (fuel : nat) (h : list recordcache)
    (hd it : nat) (p : cstring)
  : option (option (hfs_catalog_keyed_record_t * hfs_catalog_key_t)) :=
  match fuel with
  | O => None
  | S fuel' =>
      match h !! it with
      | None => None
      | Some n =>
          match path n with
          | None => Some None                           (* if(!it->path) break *)
          | Some q =>
              if strcmp q p =? 0 then Some (Some (record n, key n))
              else
                let it' := next n in
                if (it' =? hd)%nat then Some None
                else ringbuffer_lookup_loop fuel' h hd it' p
          end
      end
  end.

(** [ringbuffer_lookup(path, record, key)]: the returned triple is the
    [bool] result and the contents of [*record] and [*key] afterwards. One
    turn of the ring is at most [length heap] iterations. *)
Definition ringbuffer_lookup (c : cache_state) (p : cstring)
    (rec : hfs_catalog_keyed_record_t) (k : hfs_catalog_key_t)
  : option (bool * hfs_catalog_keyed_record_t * hfs_catalog_key_t) :=
  match head c with
  | None => Some (false, rec, k)                        (* if(!head) return false *)
  | Some hd =>
      match ringbuffer_lookup_loop (length (heap c)) (heap c) hd hd p with
      | None => None
      | Some None => Some (false, rec, k)
      | Some (Some (r', k')) => Some (true, r', k')
      end
  end.

(** [ringbuffer_add(path, record, key)]. *)
Definition ringbuffer_add (c : cache_state) (p : cstring)
    (rec : hfs_catalog_keyed_record_t) (k : hfs_catalog_key_t) : cache_state :=
  match head c with
  | None => c                                           (* if(!head) return *)
  | Some hd =>
      let tail := prev_of (heap c) hd in                (* tail = head->prev *)
      {| heap := alter (set_entry p rec k) tail (heap c);
         head := Some tail |}                           (* head = tail *)
  end.

(** ** HFS+ NFD normalisation *)

(** The macro [HFSINRANGE]. *)
Definition HFSINRANGE (codepoint : Z) : bool :=
  ((0x0000 <=? codepoint) && (codepoint <=? 0xFFFF)) &&
  negb (((0x2000 <=? codepoint) && (codepoint <=? 0x2FFF)) ||
        ((0xF900 <=? codepoint) && (codepoint <=? 0xFAFF))).

(** [size_t] arithmetic: 64 bits, wrapping. *)
Definition size_t_wrap (x : Z) : Z := x mod 2 ^ 64.

(** Exchange [buf[i]] and [buf[i+1]] through [tmp]. *)
Definition swap_adjacent (buf : list Z) (i : nat) : list Z :=
  let tmp := buf !!! i in
  let buf := <[i := buf !!! S i]> buf in
  <[S i := tmp]> buf.

(** The functions of the bundled utf8proc library that this file calls. *)
Class Utf8proc := {
  (** [utf8proc_get_property(c)->combining_class]. *)
  combining_class : Z -> Z;
  (** [utf8proc_decompose_char(c, dst, n, UTF8PROC_DECOMPOSE, NULL)]: the
      codepoints written; their number is the return value, and a failing call
      (a return value that is not positive) is the empty list. *)
  utf8proc_decompose_char : Z -> list Z;
  (** [utf8proc_iterate(it, -1, &codepoint)] on the bytes at [it]: the return
      value and the codepoint stored. *)
  utf8proc_iterate : cstring -> Z * Z;
  (** [utf8proc_reencode(buf, len, UTF8PROC_STABLE)]: the UTF-8 string left in
      the buffer. *)
  utf8proc_reencode : list Z -> cstring
}.

Section Nfd.

Context `{Utf8proc}.

(** The [for] loop of [sort_combining_characters], from index [i]. *)
Fixpoint sort_loop (fuel : nat) (buf : list Z) (len i : Z) : option (list Z) :=
  match fuel with
  | O => None
  | S fuel' =>
      if i <? len - 1 then
        let rclass := combining_class (buf !!! Z.to_nat (i + 1)) in
        if negb (negb (rclass =? 0) && HFSINRANGE (buf !!! Z.to_nat (i + 1))) then
          sort_loop fuel' buf len (size_t_wrap (i + 2))
        else if HFSINRANGE (buf !!! Z.to_nat i)
                && (combining_class (buf !!! Z.to_nat i) >? rclass) then
          sort_loop fuel' (swap_adjacent buf (Z.to_nat i)) len (size_t_wrap (i - 1))
        else sort_loop fuel' buf len (size_t_wrap (i + 1))
      else Some buf
  end.

(** The test and exchange of [buf[0]] and [buf[1]] before the loop. *)
Definition sort_first_pair (buf : list Z) : list Z :=
  let rclass := combining_class (buf !!! 1%nat) in
  if HFSINRANGE (buf !!! 0%nat) && HFSINRANGE (buf !!! 1%nat)
     && negb (rclass =? 0) && (combining_class (buf !!! 0%nat) >? rclass)
  then swap_adjacent buf 0
  else buf.

(** Enough iterations for any buffer of [len] codepoints (see
    [sort_combining_characters_total]). *)
Definition sort_fuel (len : nat) : nat := S (len * len).

Definition sort_combining_characters (buf : list Z) (len : Z) : option (list Z) :=
  if len <=? 1 then Some buf
  else sort_loop (sort_fuel (Z.to_nat len)) (sort_first_pair buf) len 1.

(** First loop of [hfs_utf8proc_NFD]: the final [result] and [len]. *)
Fixpoint nfd_count (fuel : nat) (it : cstring) (result len : Z) : option (Z * Z) :=
  match fuel with
  | O => None
  | S fuel' =>
      match it with
      | [] => Some (result, len)                      (* *it == 0 *)
      | _ :: _ =>
          let '(result, codepoint) := utf8proc_iterate it in
          if result >? 0 then
            if HFSINRANGE codepoint then
              let ct := Z.of_nat (length (utf8proc_decompose_char codepoint)) in
              if ct >? 0 then
                nfd_count fuel' (drop (Z.to_nat result) it) result (len + ct)
              else Some (result, 0)                   (* len = 0; break *)
            else nfd_count fuel' (drop (Z.to_nat result) it) result (len + 1)
          else Some (result, len)
      end
  end.

(** Second loop: the codepoints stored in [buf], in order. *)
Fixpoint nfd_fill (fuel : nat) (u8 : cstring) (buf : list Z) : option (list Z) :=
  match fuel with
  | O => None
  | S fuel' =>
      match u8 with
      | [] => Some buf
      | _ :: _ =>
          let '(result, codepoint) := utf8proc_iterate u8 in
          if result >? 0 then
            if HFSINRANGE codepoint then
              nfd_fill fuel' (drop (Z.to_nat result) u8)
                       (buf ++ utf8proc_decompose_char codepoint)
            else nfd_fill fuel' (drop (Z.to_nat result) u8) (buf ++ [codepoint])
          else Some buf
      end
  end.

(** [hfs_utf8proc_NFD]. [Some None] is a NULL return, [Some (Some s)] the
    normalised string; [None] only if a loop ran out of fuel, which
    [hfs_utf8proc_NFD_total] excludes. [result0] is the indeterminate initial
    value of [result]; [malloc] is taken to succeed. *)
Definition hfs_utf8proc_NFD (result0 : Z) (u8 : cstring) : option (option cstring) :=
  '(result, len) ← nfd_count (S (length u8)) u8 result0 0;
  if (result <? 0) || (len =? 0) then Some None
  else
    buf ← nfd_fill (S (length u8)) u8 [];
    buf ← sort_combining_characters buf len;
    Some (Some (utf8proc_reencode buf)).

End Nfd.

(** *** A fragment of utf8proc, for running the code on concrete strings *)

(** Modelled from the spec: [utf8proc_iterate] of the bundled utf8proc library
    (not part of this file), "Input UTF-8 -> codepoints": one codepoint is
    decoded from the head of the string; the result is the number of bytes
    read, or a negative error for a malformed sequence. *)
Definition utf_cont (b : Z) : bool := Z.land b 0xC0 =? 0x80.

Definition utf8_iterate (s : cstring) : Z * Z :=
  match s with
  | [] => (0, -1)
  | b0 :: s1 =>
      if b0 <? 0x80 then (1, b0)
      else if (b0 <? 0xC2) || (0xF4 <? b0) then (-3, -1)
      else if b0 <? 0xE0 then
        match s1 with
        | b1 :: _ =>
            if utf_cont b1
            then (2, Z.lor (Z.shiftl (Z.land b0 0x1F) 6) (Z.land b1 0x3F))
            else (-3, -1)
        | _ => (-3, -1)
        end
      else if b0 <? 0xF0 then
        match s1 with
        | b1 :: b2 :: _ =>
            let uc := Z.lor (Z.lor (Z.shiftl (Z.land b0 0xF) 12)
                                   (Z.shiftl (Z.land b1 0x3F) 6))
                            (Z.land b2 0x3F) in
            if utf_cont b1 && utf_cont b2
               && negb ((b0 =? 0xED) && (0x9F <? b1)) && (0x800 <=? uc)
            then (3, uc) else (-3, -1)
        | _ => (-3, -1)
        end
      else
        match s1 with
        | b1 :: b2 :: b3 :: _ =>
            let uc := Z.lor (Z.lor (Z.lor (Z.shiftl (Z.land b0 0x7) 18)
                                          (Z.shiftl (Z.land b1 0x3F) 12))
                                   (Z.shiftl (Z.land b2 0x3F) 6))
                            (Z.land b3 0x3F) in
            if utf_cont b1 && utf_cont b2 && utf_cont b3
               && (0x10000 <=? uc) && (uc <? 0x110000)
            then (4, uc) else (-3, -1)
        | _ => (-3, -1)
        end
  end.

(** Modelled from the spec: the encoder behind [utf8proc_reencode] of the
    bundled utf8proc library, "Re-encode back to UTF-8". *)
Definition utf8_encode_char (uc : Z) : cstring :=
  if uc <? 0x80 then [uc]
  else if uc <? 0x800 then
    [0xC0 + Z.shiftr uc 6; 0x80 + Z.land uc 0x3F]
  else if uc <? 0x10000 then
    [0xE0 + Z.shiftr uc 12; 0x80 + Z.land (Z.shiftr uc 6) 0x3F; 0x80 + Z.land uc 0x3F]
  else
    [0xF0 + Z.shiftr uc 18; 0x80 + Z.land (Z.shiftr uc 12) 0x3F;
     0x80 + Z.land (Z.shiftr uc 6) 0x3F; 0x80 + Z.land uc 0x3F].

Definition utf8_reencode (buf : list Z) : cstring :=
  concat (map utf8_encode_char buf).

(** Canonical combining classes of the Unicode character database for the
    codepoints used in the examples; every other codepoint counts as a starter
    (class 0). *)
Definition ucd_combining_class (c : Z) : Z :=
  if c =? 0x0300 then 230        (* COMBINING GRAVE ACCENT *)
  else if c =? 0x0301 then 230   (* COMBINING ACUTE ACCENT *)
  else if c =? 0x0307 then 230   (* COMBINING DOT ABOVE *)
  else if c =? 0x0323 then 220   (* COMBINING DOT BELOW *)
  else if c =? 0x0327 then 202   (* COMBINING CEDILLA *)
  else if c =? 0x0328 then 202   (* COMBINING OGONEK *)
  else if c =? 0x1D165 then 216  (* MUSICAL SYMBOL COMBINING STEM *)
  else 0.

(** Full canonical decompositions of the Unicode character database for the
    codepoints used in the examples; every other codepoint is taken to
    decompose to itself. *)
Definition ucd_decompose_char (c : Z) : list Z :=
  if c =? 0x00E9 then [0x0065; 0x0301]               (* e with acute *)
  else if c =? 0x1E69 then [0x0073; 0x0323; 0x0307]  (* s with dot below and dot above *)
  else if c =? 0x212B then [0x0041; 0x030A]          (* ANGSTROM SIGN *)
  else if c =? 0xF900 then [0x8C48]                  (* CJK COMPATIBILITY IDEOGRAPH-F900 *)
  else if c =? 0x1D15E then [0x1D157; 0x1D165]       (* MUSICAL SYMBOL HALF NOTE *)
  else [c].

Definition utf8proc_fragment : Utf8proc := {|
  combining_class := ucd_combining_class;
  utf8proc_decompose_char := ucd_decompose_char;
  utf8proc_iterate := utf8_iterate;
  utf8proc_reencode := utf8_reencode
|}.

(** [hfs_utf8proc_NFD] over this fragment. *)
Definition hfs_nfd (u8 : cstring) : option (option cstring) :=
  @hfs_utf8proc_NFD utf8proc_fragment 0 u8.

(** ** Pathname conversion *)

(** The two converters of unicode.c that this file calls. *)
Class UnicodeLib := {
  (** [utf16_to_utf8(dst, 511, src, src_len, 0, &err)]: the return value, the
      bytes stored at [dst] and [err]. *)
  utf16_to_utf8 : list Z -> Z -> Z * cstring * Z;
  (** [utf8_to_utf16(dst, 255, src, strlen(src), 0, &err)]: the return value,
      the code units stored at [dst] and [err]. *)
  utf8_to_utf16 : cstring -> Z * list Z * Z
}.

Definition ENOMEM : Z := 12.

(** Store [data] at [buf[pos], buf[pos+1], ...]. A store outside the buffer is
    undefined in C; here it is dropped. *)
Fixpoint write_at (buf : list Z) (pos : nat) (data : list Z) : list Z :=
  match data with
  | [] => buf
  | x :: data' => write_at (<[pos := x]> buf) (S pos) data'
  end.

(** In the C string that starts the list, replace every byte [c] by [d]
    (the [strchr] loops of the two pathname functions). *)
Fixpoint replace_in_cstring (c d : Z) (s : list Z) : list Z :=
  match s with
  | [] => []
  | x :: s' =>
      if x =? 0 then s
      else (if x =? c then d else x) :: replace_in_cstring c d s'
  end.

(** The C string that starts at [buf[pos]]. *)
Fixpoint until_nul (s : list Z) : cstring :=
  match s with
  | [] => []
  | x :: s' => if x =? 0 then [] else x :: until_nul s'
  end.

Definition cstring_at (buf : list Z) (pos : nat) : cstring :=
  until_nul (drop pos buf).

Section Pathname.

Context `{Utf8proc} `{UnicodeLib}.

(** [hfs_unistr_to_utf8(u16, u8)], with [u8] the index [u8] of [mem]: the
    return value and the memory afterwards. *)
Definition hfs_unistr_to_utf8 (u16 : hfs_unistr255_t) (mem : list Z) (u8 : nat)
  : Z * list Z :=
  let '(len, bytes, err) := utf16_to_utf8 (us_unicode u16) (us_length u16) in
  let mem := write_at mem u8 bytes in
  let mem := <[(u8 + Z.to_nat len)%nat := 0]> mem in   (* u8[len] = '\0' *)
  (if err =? 0 then len else - err, mem).

(** [hfs_pathname_to_unix(u16, u8)]. *)
Definition hfs_pathname_to_unix (u16 : hfs_unistr255_t) (mem : list Z) (u8 : nat)
  : Z * list Z :=
  let '(ret, mem) := hfs_unistr_to_utf8 u16 mem u8 in
  if ret >? 0 then
    (ret, take u8 mem ++ replace_in_cstring 47 58 (drop u8 mem))
  else (ret, mem).

(** [hfs_pathname_from_unix(u8, u16)]: the return value and [*u16]
    afterwards. The outer [None] is a loop of the normalisation out of
    fuel. *)
Definition hfs_pathname_from_unix (result0 : Z) (u8 : cstring) (u16 : hfs_unistr255_t)
  : option (Z * hfs_unistr255_t) :=
  norm ← hfs_utf8proc_NFD result0 u8;
  match norm with
  | None => Some (- ENOMEM, u16)
  | Some norm =>
      let norm := replace_in_cstring 58 47 norm in
      let '(n, units, err) := utf8_to_utf16 norm in
      let u16 := {| us_length := n mod 2 ^ 16; us_unicode := units |} in
      Some (if err =? 0 then us_length u16 else err, u16)
  end.

End Pathname.

(** ** Volumes *)

(** [struct hf_device]. *)
Record hf_device := {
  fd : Z;
  blksize : Z
}.

(** A leaf record of the catalog file: a file or folder record, or a thread
    record. *)
Inductive catalog_leaf :=
| Leaf_keyed (r : hfs_catalog_keyed_record_t)
| Leaf_thread (t : hfs_thread_record_t).

(** [hfs_volume]: the fields this file reads, and the catalog the libhfs
    functions look things up in. *)
Record hfs_volume := {
  vol_offset : Z;
  cbdata : hf_device;
  vol_catalog : list (hfs_catalog_key_t * catalog_leaf);
  vol_file_link_dir : hfs_cnid_t;
  vol_dir_link_dir : hfs_cnid_t
}.

(** The functions of libhfs that this file calls. Each returns its [int]
    result and the contents of its out-parameter afterwards. *)
Class Libhfs := {
  hfslib_find_catalog_record_with_cnid :
    hfs_volume -> hfs_cnid_t -> Z * hfs_catalog_keyed_record_t * hfs_catalog_key_t;
  hfslib_find_catalog_record_with_key :
    hfs_volume -> hfs_catalog_key_t -> Z * hfs_catalog_keyed_record_t;
  (** [hfslib_make_catalog_key(cnid, length, unicode, key)]. *)
  hfslib_make_catalog_key :
    hfs_cnid_t -> Z -> list Z -> Z * hfs_catalog_key_t;
  (** [hfslib_find_parent_thread(vol, cnid, &thread, NULL)]: the parent's
      CNID (0 on failure) and the thread record. *)
  hfslib_find_parent_thread :
    hfs_volume -> hfs_cnid_t -> hfs_cnid_t * hfs_thread_record_t;
  hfslib_get_directory_hardlink :
    hfs_volume -> Z -> Z * hfs_catalog_keyed_record_t;
  hfslib_get_hardlink :
    hfs_volume -> Z -> Z * hfs_catalog_keyed_record_t
}.

(** ** hfs_get_path *)

Section GetPath.

Context `{Utf8proc} `{UnicodeLib} `{Libhfs}.

(** The first [while] loop: the thread names from [cnid] up to the root, and
    [len]. [Some None] is the [goto end] with [out == NULL]; [realloc] is
    taken to succeed. *)
Fixpoint get_path_elements (fuel : nat) (vol : hfs_volume) (cnid : hfs_cnid_t)
    (elements : list hfs_unistr255_t) (len : Z)
  : option (option (list hfs_unistr255_t * Z)) :=
  match fuel with
  | O => None
  | S fuel' =>
      if cnid =? HFS_CNID_ROOT_FOLDER then Some (Some (elements, len))
      else
        let '(cnid, parent_thread) := hfslib_find_parent_thread vol cnid in
        if cnid =? 0 then Some None
        else
          let name := thread_name parent_thread in
          get_path_elements fuel' vol cnid (elements ++ [name])
                            (len + (us_length name + 1))
  end.

(** The second [while] loop, from [elem] down to [elements]: the list is
    walked from its last element to its first. *)
Fixpoint get_path_write (relems : list hfs_unistr255_t) (out : list Z) (it : nat)
  : list Z * nat :=
  match relems with
  | [] => (out, it)
  | elem :: relems' =>
      let '(_, out) := hfs_pathname_to_unix elem out it in
      let it := (it + Z.to_nat (us_length elem))%nat in   (* it += elem->length *)
      let out := <[it := 47]> out in                      (* *it++ = '/' *)
      get_path_write relems' out (S it)
  end.

(** [hfs_get_path(vol, cnid)] with [fuel] iterations allowed to the first
    loop. [Some None] is a NULL return. The block from [malloc] starts out
    zeroed in the model. *)
Definition hfs_get_path (fuel : nat) (vol : hfs_volume) (cnid : hfs_cnid_t)
  : option (option cstring) :=
  r ← get_path_elements fuel vol cnid [] 0;
  match r with
  | None => Some None
  | Some (elements, len) =>
      let len := if len =? 0 then 1 else len in
      let out := replicate (S (Z.to_nat len)) 0 in
      let out := <[0%nat := 47]> out in
      let '(out, _) := get_path_write (rev elements) out 1 in
      let out := <[Z.to_nat len := 0]> out in
      Some (Some (cstring_at out 0))
  end.

End GetPath.

(** ** hfs_lookup *)

(** What [hfs_lookup] leaves behind: its return value, [*record], [*key],
    [*fork] (when [fork] is not NULL) and the record cache. *)
Record lookup_result := {
  lr_ret : Z;
  lr_record : hfs_catalog_keyed_record_t;
  lr_key : hfs_catalog_key_t;
  lr_fork : option Z;
  lr_cache : cache_state
}.

(** How the [while] loop of [hfs_lookup] ends: by [RET(val)], or by falling
    out of the loop with [splitptr] at the unread rest of the path. *)
Inductive descent :=
| Descent_RET (val : Z) (rec : hfs_catalog_keyed_record_t) (k : hfs_catalog_key_t)
| Descent_done (rec : hfs_catalog_keyed_record_t) (k : hfs_catalog_key_t)
               (splitptr : option cstring).

Definition is_dir_hard_link (f : hfs_file_record_t) : bool :=
  (fi_file_creator (file_user_info f) =? HFS_MACS_CREATOR)
  && (fi_file_type (file_user_info f) =? HFS_DIR_HARD_LINK_FILE_TYPE).

Definition is_file_hard_link (f : hfs_file_record_t) : bool :=
  (fi_file_creator (file_user_info f) =? HFS_HFSPLUS_CREATOR)
  && (fi_file_type (file_user_info f) =? HFS_HARD_LINK_FILE_TYPE).

Section Lookup.

Context `{Utf8proc} `{UnicodeLib} `{Libhfs}.

(** The [while] loop of [hfs_lookup]. [upath] is the local of that name,
    [result0] the indeterminate local of [hfs_utf8proc_NFD]. *)
Fixpoint lookup_descend (fuel : nat) (result0 : Z) (vol : hfs_volume)
    (rec : hfs_catalog_keyed_record_t) (k : hfs_catalog_key_t)
    (upath : hfs_unistr255_t) (splitptr : option cstring) : option descent :=
  match fuel with
  | O => None
  | S fuel' =>
      match rec with
      | Rec_FLDR folder =>
          match strsep splitptr 47 with
          | (None, splitptr) => Some (Descent_done rec k splitptr)
          | (Some [], splitptr) => Some (Descent_done rec k splitptr)
          | (Some pelem, splitptr) =>
              '(r, upath) ← hfs_pathname_from_unix result0 pelem upath;
              if r <? 0 then Some (Descent_RET 3 rec k)
              else
                let '(made, k) :=
                  hfslib_make_catalog_key (folder_cnid folder)
                                          (us_length upath) (us_unicode upath) in
                if made =? 0 then Some (Descent_RET 2 rec k)
                else
                  let '(ret, rec) := hfslib_find_catalog_record_with_key vol k in
                  if negb (ret =? 0) then Some (Descent_RET ret rec k)
                  else
                    match rec with
                    | Rec_FILE f =>
                        if is_dir_hard_link f then
                          let '(e, rec) :=
                            hfslib_get_directory_hardlink vol (file_inode_num f) in
                          if negb (e =? 0) then Some (Descent_RET 7 rec k)
                          else lookup_descend fuel' result0 vol rec k upath splitptr
                        else lookup_descend fuel' result0 vol rec k upath splitptr
                    | _ => lookup_descend fuel' result0 vol rec k upath splitptr
                    end
          end
      | _ => Some (Descent_done rec k splitptr)
      end
  end.

(** The [if(splitptr)] statement after the loop: [inl val] is [RET(val)],
    [inr fork] the contents of [*fork] when control goes on. *)
Definition lookup_suffix (rec : hfs_catalog_keyed_record_t) (fork : option Z)
    (splitptr : option cstring) : Z + option Z :=
  match splitptr with
  | Some rest =>
      if negb (is_FILE rec) || negb (strcmp rest (cstr "rsrc") =? 0) then inl 5
      else inr (option_map (fun _ => HFS_RSRCFORK) fork)  (* else if(fork) *fork = HFS_RSRCFORK *)
  | None => inr fork
  end.

(** The condition of the [if] that guards [return -6]: its value and
    [*record] afterwards. *)
Definition lookup_hardlink (vol : hfs_volume) (rec : hfs_catalog_keyed_record_t)
  : bool * hfs_catalog_keyed_record_t :=
  match rec with
  | Rec_FILE f =>
      if is_file_hard_link f then
        let '(e, rec') := hfslib_get_hardlink vol (file_inode_num f) in
        (negb (e =? 0), rec')
      else (false, rec)
  | _ => (false, rec)
  end.

(** The part of [hfs_lookup] after the [while] loop. *)
Definition lookup_finish (c : cache_state) (vol : hfs_volume) (path : cstring)
    (rec : hfs_catalog_keyed_record_t) (k : hfs_catalog_key_t)
    (fork : option Z) (splitptr : option cstring) : lookup_result :=
  match lookup_suffix rec fork splitptr with
  | inl val =>
      {| lr_ret := - val; lr_record := rec; lr_key := k; lr_fork := fork;
         lr_cache := c |}
  | inr fork =>
      let '(failed, rec) := lookup_hardlink vol rec in
      if failed then
        {| lr_ret := -6; lr_record := rec; lr_key := k; lr_fork := fork;
           lr_cache := c |}
      else
        {| lr_ret := 0; lr_record := rec; lr_key := k; lr_fork := fork;
           lr_cache := match splitptr with
                       | None => ringbuffer_add c path rec k  (* if(!splitptr) *)
                       | Some _ => c
                       end |}
  end.

(** [hfs_lookup(vol, path, record, key, fork)] on the cache [c]. [rec0] and
    [k0] are [*record] and [*key] on entry, [fork] is [None] for a NULL
    pointer and [Some v] for a pointer to a byte holding [v]; [upath0] and
    [result0] are indeterminate locals. [None] only if a loop ran out of
    fuel. *)
Definition hfs_lookup (result0 : Z) (upath0 : hfs_unistr255_t)
    (c : cache_state) (vol : hfs_volume) (path : cstring)
    (rec0 : hfs_catalog_keyed_record_t) (k0 : hfs_catalog_key_t)
    (fork : option Z) : option lookup_result :=
  let fork := option_map (fun _ => HFS_DATAFORK) fork in  (* if(fork) *fork = HFS_DATAFORK *)
  '(hit, rec, k) ← ringbuffer_lookup c path rec0 k0;
  if (hit : bool) then
    Some {| lr_ret := 0; lr_record := rec; lr_key := k; lr_fork := fork; lr_cache := c |}
  else
    let '(e, rec, k) :=
      hfslib_find_catalog_record_with_cnid vol HFS_CNID_ROOT_FOLDER in
    if negb (e =? 0) then
      Some {| lr_ret := -7; lr_record := rec; lr_key := k; lr_fork := fork;
              lr_cache := c |}
    else
      d ← lookup_descend (S (length path)) result0 vol rec k upath0
                         (Some (drop 1 path));           (* splitptr = splitpath+1 *)
      match d with
      | Descent_RET val rec k =>
          Some {| lr_ret := - val; lr_record := rec; lr_key := k; lr_fork := fork;
                  lr_cache := c |}
      | Descent_done rec k splitptr =>
          Some (lookup_finish c vol path rec k fork splitptr)
      end.

End Lookup.

(** ** hfs_serialize_finderinfo *)

(** The object representation of a [size]-byte integer holding [v], as
    [(char* )&src] sees it on the little-endian hosts the driver is built for:
    least significant byte first. *)
Definition object_bytes (size : nat) (v : Z) : list Z :=
  map (fun i => (v / 256 ^ Z.of_nat i) mod 256) (seq 0 size).

(** The [for] loop of [swapcopy], with [n] iterations still to run. *)
Fixpoint swapcopy_loop (n : nat) (i : nat) (mem : list Z) (buf : nat)
    (src : list Z) (size : nat) : list Z * nat :=
  match n with
  | O => (mem, buf)
  | S n' =>
      (* *buf++ = src[size-i-1] *)
      swapcopy_loop n' (S i) (<[buf := src !!! (size - i - 1)%nat]> mem) (S buf) src size
  end.

Definition swapcopy (mem : list Z) (buf : nat) (src : list Z) (size : nat)
  : list Z * nat :=
  swapcopy_loop size 0 mem buf src size.

(** [buf = SWAPCOPY(buf, src)] for a field of [size] bytes holding [v],
    threaded through the pair of memory and [buf]. *)
Definition SWAPCOPY (size : nat) (v : Z) (st : list Z * nat) : list Z * nat :=
  swapcopy (fst st) (snd st) (object_bytes size v) size.

(** [hfs_serialize_finderinfo(rec, buf)]: the memory afterwards and the final
    value of the local [buf]. Field sizes are those of the structures of
    libhfs.h: 16 bits for points, rectangle sides, flags and the short
    reserved fields, 32 bits for the type, creator, the folder's [reserved]
    and [put_away_folder_cnid]. *)
Definition hfs_serialize_finderinfo (rec : hfs_catalog_keyed_record_t)
    (mem : list Z) (buf : nat) : list Z * nat :=
  match rec with
  | Rec_FILE file =>
      let ui := file_user_info file in
      let fi := file_finder_info file in
      let st := (mem, buf) in
      let st := SWAPCOPY 4 (fi_file_type ui) st in
      let st := SWAPCOPY 4 (fi_file_creator ui) st in
      let st := SWAPCOPY 2 (fi_finder_flags ui) st in
      let st := SWAPCOPY 2 (pt_v (fi_location ui)) st in
      let st := SWAPCOPY 2 (pt_h (fi_location ui)) st in
      let st := SWAPCOPY 2 (fi_reserved ui) st in
      let st := fold_left (fun st i => SWAPCOPY 2 (xfi_reserved fi !!! i) st)
                          (seq 0 4) st in
      let st := SWAPCOPY 2 (xfi_extended_finder_flags fi) st in
      let st := SWAPCOPY 2 (xfi_reserved2 fi) st in
      let st := SWAPCOPY 4 (xfi_put_away_folder_cnid fi) st in
      st
  | Rec_FLDR folder =>
      let ui := folder_user_info folder in
      let fi := folder_finder_info folder in
      let st := (mem, buf) in
      let st := SWAPCOPY 2 (rc_t (di_window_bounds ui)) st in
      let st := SWAPCOPY 2 (rc_l (di_window_bounds ui)) st in
      let st := SWAPCOPY 2 (rc_b (di_window_bounds ui)) st in
      let st := SWAPCOPY 2 (rc_r (di_window_bounds ui)) st in
      let st := SWAPCOPY 2 (di_finder_flags ui) st in
      let st := SWAPCOPY 2 (pt_v (di_location ui)) st in
      let st := SWAPCOPY 2 (pt_h (di_location ui)) st in
      let st := SWAPCOPY 2 (di_reserved ui) st in
      let st := SWAPCOPY 2 (pt_v (xdi_scroll_position fi)) st in
      let st := SWAPCOPY 2 (pt_h (xdi_scroll_position fi)) st in
      let st := SWAPCOPY 4 (xdi_reserved fi) st in
      let st := SWAPCOPY 2 (xdi_extended_finder_flags fi) st in
      let st := SWAPCOPY 2 (xdi_reserved2 fi) st in
      let st := SWAPCOPY 4 (xdi_put_away_folder_cnid fi) st in
      st
  | Rec_OTHER _ => (mem, buf)
  end.

(** Big-endian encoding of a [size]-byte integer, most significant byte
    first: the serialisation the specification asks for. *)
Definition big_endian (size : nat) (v : Z) : list Z :=
  map (fun i => (v / 256 ^ Z.of_nat (size - 1 - i)) mod 256) (seq 0 size).

(** The 32 bytes of a folder's Finder info in declared field order. *)
Definition folder_finderinfo_bytes (folder : hfs_folder_record_t) : list Z :=
  let ui := folder_user_info folder in
  let fi := folder_finder_info folder in
  big_endian 2 (rc_t (di_window_bounds ui)) ++ big_endian 2 (rc_l (di_window_bounds ui))
  ++ big_endian 2 (rc_b (di_window_bounds ui)) ++ big_endian 2 (rc_r (di_window_bounds ui))
  ++ big_endian 2 (di_finder_flags ui)
  ++ big_endian 2 (pt_v (di_location ui)) ++ big_endian 2 (pt_h (di_location ui))
  ++ big_endian 2 (di_reserved ui)
  ++ big_endian 2 (pt_v (xdi_scroll_position fi)) ++ big_endian 2 (pt_h (xdi_scroll_position fi))
  ++ big_endian 4 (xdi_reserved fi)
  ++ big_endian 2 (xdi_extended_finder_flags fi)
  ++ big_endian 2 (xdi_reserved2 fi)
  ++ big_endian 4 (xdi_put_away_folder_cnid fi).

(** The 32 bytes of a file's Finder info in declared field order. *)
Definition file_finderinfo_bytes (file : hfs_file_record_t) : list Z :=
  let ui := file_user_info file in
  let fi := file_finder_info file in
  big_endian 4 (fi_file_type ui) ++ big_endian 4 (fi_file_creator ui)
  ++ big_endian 2 (fi_finder_flags ui)
  ++ big_endian 2 (pt_v (fi_location ui)) ++ big_endian 2 (pt_h (fi_location ui))
  ++ big_endian 2 (fi_reserved ui)
  ++ big_endian 2 (xfi_reserved fi !!! 0%nat) ++ big_endian 2 (xfi_reserved fi !!! 1%nat)
  ++ big_endian 2 (xfi_reserved fi !!! 2%nat) ++ big_endian 2 (xfi_reserved fi !!! 3%nat)
  ++ big_endian 2 (xfi_extended_finder_flags fi)
  ++ big_endian 2 (xfi_reserved2 fi)
  ++ big_endian 4 (xfi_put_away_folder_cnid fi).

(** ** hfs_read (the variant built without ublio) *)

(** What the system gives the driver. [world] is everything outside the
    process: the open devices and how their next reads will go. *)
Class Posix := {
  world : Type;
  (** [pread(fd, buf, count, offset)]: the world afterwards, the return value
      and the bytes stored at [buf]. *)
  pread : world -> Z -> Z -> Z -> world * Z * list Z;
  (** [errno] as the last call left it. *)
  errno : world -> Z;
  (** The macro [min] of the headers, applied to a [uint64_t] and a
      [ssize_t]; the value is the one assigned to the [ssize_t]. *)
  c_min : Z -> Z -> Z
}.

(** [uint64_t] arithmetic. *)
Definition u64 (x : Z) : Z := x mod 2 ^ 64.

(** The loop's variables after the loop. *)
Record read_state `{Posix} := {
  rs_world : world;
  rs_mem : list Z;
  rs_outbuf : nat;
  rs_length : Z;
  rs_offset : Z;
  rs_ret : Z
}.

Section Read.

Context `{Posix}.

(** The [while] loop of [hfs_read]. *)
Fixpoint read_loop (fuel : nat) (dev : hf_device) (st : read_state)
  : option read_state :=
  match fuel with
  | O => None
  | S fuel' =>
      if rs_length st =? 0 then Some st
      else
        let '(w, ret, data) :=
          pread (rs_world st) (fd dev) (rs_length st) (rs_offset st) in
        let mem := write_at (rs_mem st) (rs_outbuf st) data in
        if ret >? 0 then
          let ret := c_min (rs_length st) ret in
          if ret <=? 0 then
            Some {| rs_world := w; rs_mem := mem; rs_outbuf := rs_outbuf st;
                    rs_length := rs_length st; rs_offset := rs_offset st;
                    rs_ret := ret |}                      (* break *)
          else
            read_loop fuel' dev
              {| rs_world := w; rs_mem := mem;
                 rs_outbuf := (rs_outbuf st + Z.to_nat ret)%nat;
                 rs_length := u64 (rs_length st - ret);
                 rs_offset := u64 (rs_offset st + ret);
                 rs_ret := ret |}
        else
          Some {| rs_world := w; rs_mem := mem; rs_outbuf := rs_outbuf st;
                  rs_length := rs_length st; rs_offset := rs_offset st;
                  rs_ret := ret |}
  end.

(** The statements after the loop, for the remainder [rem]. [buf0] holds
    the indeterminate initial contents of the local array [buf]. *)
Definition read_tail (dev : hf_device) (buf0 : list Z) (rem : Z) (st : read_state)
  : world * Z * list Z :=
  if rs_ret st <? 0 then (rs_world st, - errno (rs_world st), rs_mem st)
  else if negb (rem =? 0) then
    let '(w, ret, data) :=
      pread (rs_world st) (fd dev) (blksize dev) (rs_offset st) in
    let buf := write_at buf0 0 data in
    let ret := c_min rem ret in
    let mem :=
      if ret >? 0 then write_at (rs_mem st) (rs_outbuf st) (take (Z.to_nat ret) buf)
      else rs_mem st in                                   (* memcpy(outbuf,buf,ret) *)
    if ret <? 0 then (w, - errno w, mem) else (w, 0, mem)
  else (rs_world st, 0, rs_mem st).

(** [hfs_read(vol, outbytes, length, offset, cbargs)], [outbytes] being the
    index [outbytes] of [mem]: the world afterwards, the return value and
    the memory afterwards. [None] only if the loop ran out of fuel. *)
Definition hfs_read (w : world) (vol : hfs_volume) (buf0 : list Z) (mem : list Z)
    (outbytes : nat) (length offset : Z) : option (world * Z * list Z) :=
  let dev := cbdata vol in
  let offset := u64 (offset + vol_offset vol) in          (* offset += vol->offset *)
  let rem := length mod blksize dev in
  let length := u64 (length - rem) in
  st ← read_loop (S (Z.to_nat length)) dev
        {| rs_world := w; rs_mem := mem; rs_outbuf := outbytes;
           rs_length := length; rs_offset := offset; rs_ret := 0 |};
  Some (read_tail dev buf0 rem st).

End Read.

(** *** A device for running the code *)

(** What one call of [pread] on the device will do: transfer at most [n]
    bytes, or fail with an [errno]. *)
Inductive pread_outcome :=
| Transfer (n : Z)
| Fail (e : Z).

(** A device: its bytes, the outcomes of the coming calls (calls beyond the
    script transfer all they can) and [errno]. *)
Record device_world := {
  disk : list Z;
  script : list pread_outcome;
  dw_errno : Z
}.

Definition EINVAL : Z := 22.

Definition device_pread (w : device_world) (fd count offset : Z)
  : device_world * Z * list Z :=
  if (offset <? 0) || (2 ^ 63 <=? offset) then           (* not an off_t >= 0 *)
    ({| disk := disk w; script := tl (script w); dw_errno := EINVAL |}, -1, [])
  else
    let avail := Z.max 0 (Z.of_nat (length (disk w)) - offset) in
    let count := Z.min count (2 ^ 63 - 1) in              (* at most SSIZE_MAX *)
    match script w with
    | Fail e :: rest =>
        ({| disk := disk w; script := rest; dw_errno := e |}, -1, [])
    | Transfer n :: rest =>
        let k := Z.min (Z.min count avail) (Z.max 0 n) in
        ({| disk := disk w; script := rest; dw_errno := dw_errno w |},
         k, take (Z.to_nat k) (drop (Z.to_nat offset) (disk w)))
    | [] =>
        let k := Z.min count avail in
        (w, k, take (Z.to_nat k) (drop (Z.to_nat offset) (disk w)))
    end.

(** [((a) < (b) ? (a) : (b))] under the usual arithmetic conversions at
    [(uint64_t, ssize_t)]: both sides are compared as [uint64_t] and the
    result is read back as a [ssize_t]. *)
Definition macro_min (a b : Z) : Z :=
  let m := if a <? b mod 2 ^ 64 then a else b mod 2 ^ 64 in
  if m <? 2 ^ 63 then m else m - 2 ^ 64.

Definition device_posix : Posix := {|
  world := device_world;
  pread := device_pread;
  errno := dw_errno;
  c_min := macro_min
|}.

(** *** A catalog for running the code *)

(** Modelled from the spec: the two converters of unicode.c (absent from this
    file), "UTF-16 <-> UTF-8 on finite-length strings". Codepoints above
    U+FFFF travel as surrogate pairs; a malformed input stops the conversion
    with [err] set. *)
Definition EILSEQ : Z := 84.

Fixpoint utf8_codepoints (fuel : nat) (s : cstring) : list Z * Z :=
  match fuel with
  | O => ([], 0)
  | S fuel' =>
      match s with
      | [] => ([], 0)
      | _ :: _ =>
          let '(n, c) := utf8_iterate s in
          if n >? 0 then
            let '(cs, err) := utf8_codepoints fuel' (drop (Z.to_nat n) s) in
            (c :: cs, err)
          else ([], EILSEQ)
      end
  end.

Definition utf16_encode_char (c : Z) : list Z :=
  if c <? 0x10000 then [c]
  else [0xD800 + Z.shiftr (c - 0x10000) 10; 0xDC00 + Z.land (c - 0x10000) 0x3FF].

Fixpoint utf16_codepoints (units : list Z) : list Z * Z :=
  match units with
  | [] => ([], 0)
  | u :: rest =>
      if (0xD800 <=? u) && (u <? 0xDC00) then
        match rest with
        | v :: rest' =>
            if (0xDC00 <=? v) && (v <? 0xE000) then
              let '(cs, err) := utf16_codepoints rest' in
              (0x10000 + Z.shiftl (u - 0xD800) 10 + (v - 0xDC00) :: cs, err)
            else ([], EILSEQ)
        | [] => ([], EILSEQ)
        end
      else if (0xDC00 <=? u) && (u <? 0xE000) then ([], EILSEQ)
      else
        let '(cs, err) := utf16_codepoints rest in
        (u :: cs, err)
  end.

Definition fixture_utf8_to_utf16 (src : cstring) : Z * list Z * Z :=
  let '(cs, err) := utf8_codepoints (length src) src in
  let units := take 255 (concat (map utf16_encode_char cs)) in
  (Z.of_nat (length units), units, err).

Definition fixture_utf16_to_utf8 (src : list Z) (src_len : Z) : Z * cstring * Z :=
  let '(cs, err) := utf16_codepoints (take (Z.to_nat src_len) src) in
  let bytes := take 511 (utf8_reencode cs) in
  (Z.of_nat (length bytes), bytes, err).

Definition fixture_unicode : UnicodeLib := {|
  utf16_to_utf8 := fixture_utf16_to_utf8;
  utf8_to_utf16 := fixture_utf8_to_utf16
|}.

Definition Z_list_eqb (a b : list Z) : bool :=
  bool_decide (a = b).

Definition unistr_eqb (a b : hfs_unistr255_t) : bool :=
  (us_length a =? us_length b) && Z_list_eqb (us_unicode a) (us_unicode b).

Definition key_eqb (a b : hfs_catalog_key_t) : bool :=
  (key_parent_cnid a =? key_parent_cnid b) && unistr_eqb (key_name a) (key_name b).

(** Modelled from the spec: the catalog lookups of libhfs (absent from this
    file), "find_by_key(parent_cnid, name_utf16) -> record: Direct leaf
    lookup", here with the binary key comparison of case-sensitive volumes. *)
Fixpoint catalog_find (cat : list (hfs_catalog_key_t * catalog_leaf))
    (k : hfs_catalog_key_t) : option catalog_leaf :=
  match cat with
  | [] => None
  | (k', leaf) :: cat' => if key_eqb k' k then Some leaf else catalog_find cat' k
  end.

Definition fixture_find_with_key (vol : hfs_volume) (k : hfs_catalog_key_t)
  : Z * hfs_catalog_keyed_record_t :=
  match catalog_find (vol_catalog vol) k with
  | Some (Leaf_keyed r) => (0, r)
  | _ => (1, Rec_OTHER 0)
  end.

Definition empty_unistr : hfs_unistr255_t := {| us_length := 0; us_unicode := [] |}.

(** Modelled from the spec: "A Thread Record has name_length=0 and provides
    the (parent_cnid, name) back-pointer for a given CNID". *)
Definition fixture_find_parent_thread (vol : hfs_volume) (cnid : hfs_cnid_t)
  : hfs_cnid_t * hfs_thread_record_t :=
  match catalog_find (vol_catalog vol)
          {| key_parent_cnid := cnid; key_name := empty_unistr |} with
  | Some (Leaf_thread t) => (thread_parent_cnid t, t)
  | _ => (0, {| thread_parent_cnid := 0; thread_name := empty_unistr |})
  end.

(** Modelled from the spec: "find_by_cnid(cnid): synthesize a thread-record
    key and look it up; then use the returned thread's (parent_cnid, name) to
    look up the actual file/folder record". *)
Definition fixture_find_with_cnid (vol : hfs_volume) (cnid : hfs_cnid_t)
  : Z * hfs_catalog_keyed_record_t * hfs_catalog_key_t :=
  let '(parent, t) := fixture_find_parent_thread vol cnid in
  let k := {| key_parent_cnid := parent; key_name := thread_name t |} in
  if parent =? 0 then (1, Rec_OTHER 0, k)
  else let '(e, r) := fixture_find_with_key vol k in (e, r, k).

Definition fixture_make_catalog_key (cnid : hfs_cnid_t) (len : Z) (unicode : list Z)
  : Z * hfs_catalog_key_t :=
  (if len <=? 255 then 6 + 2 * len else 0,
   {| key_parent_cnid := cnid;
      key_name := {| us_length := len; us_unicode := unicode |} |}).

Fixpoint decimal_digits (fuel : nat) (n : Z) (acc : list Z) : list Z :=
  match fuel with
  | O => acc
  | S fuel' =>
      let acc := (48 + n mod 10) :: acc in
      if n / 10 =? 0 then acc else decimal_digits fuel' (n / 10) acc
  end.

Definition link_name (prefix : string) (inode_num : Z) : hfs_unistr255_t :=
  let units := cstr prefix ++ decimal_digits 10 inode_num [] in
  {| us_length := Z.of_nat (length units); us_unicode := units |}.

(** Modelled from the spec: "resolve_file_hardlink(inode_num): look up the
    indirect node in the private HFS+ metadata directory by name iNode +
    decimal(inode_num)", and the same for directory links. *)
Definition fixture_get_hardlink (vol : hfs_volume) (inode_num : Z)
  : Z * hfs_catalog_keyed_record_t :=
  fixture_find_with_key vol
    {| key_parent_cnid := vol_file_link_dir vol;
       key_name := link_name "iNode" inode_num |}.

Definition fixture_get_directory_hardlink (vol : hfs_volume) (inode_num : Z)
  : Z * hfs_catalog_keyed_record_t :=
  fixture_find_with_key vol
    {| key_parent_cnid := vol_dir_link_dir vol;
       key_name := link_name "dir_" inode_num |}.

Definition fixture_libhfs : Libhfs := {|
  hfslib_find_catalog_record_with_cnid := fixture_find_with_cnid;
  hfslib_find_catalog_record_with_key := fixture_find_with_key;
  hfslib_make_catalog_key := fixture_make_catalog_key;
  hfslib_find_parent_thread := fixture_find_parent_thread;
  hfslib_get_directory_hardlink := fixture_get_directory_hardlink;
  hfslib_get_hardlink := fixture_get_hardlink
|}.

(** A small volume: the root folder holds the file [a], the folder [b], a
    file hard link [lnk] to [iNode21] and a file hard link [gone] whose
    indirect node is missing; [b] holds the file [cafe] + U+0301 and a file
    named [rsrc]. *)
Definition unistr (units : list Z) : hfs_unistr255_t :=
  {| us_length := Z.of_nat (length units); us_unicode := units |}.

Definition zero_point : hfs_macos_point_t := {| pt_v := 0; pt_h := 0 |}.

Definition mk_folder (cnid : hfs_cnid_t) : hfs_catalog_keyed_record_t :=
  Rec_FLDR
    {| folder_cnid := cnid;
       folder_user_info :=
         {| di_window_bounds := {| rc_t := 0; rc_l := 0; rc_b := 0; rc_r := 0 |};
            di_finder_flags := 0; di_location := zero_point; di_reserved := 0 |};
       folder_finder_info :=
         {| xdi_scroll_position := zero_point; xdi_reserved := 0;
            xdi_extended_finder_flags := 0; xdi_reserved2 := 0;
            xdi_put_away_folder_cnid := 0 |} |}.

Definition mk_file (cnid : hfs_cnid_t) (type creator inode_num : Z)
  : hfs_catalog_keyed_record_t :=
  Rec_FILE
    {| file_cnid := cnid;
       file_user_info :=
         {| fi_file_type := type; fi_file_creator := creator; fi_finder_flags := 0;
            fi_location := zero_point; fi_reserved := 0 |};
       file_finder_info :=
         {| xfi_reserved := [0; 0; 0; 0]; xfi_extended_finder_flags := 0;
            xfi_reserved2 := 0; xfi_put_away_folder_cnid := 0 |};
       file_inode_num := inode_num |}.

Definition entry (parent : hfs_cnid_t) (name : list Z) (r : hfs_catalog_keyed_record_t)
  : list (hfs_catalog_key_t * catalog_leaf) :=
  [ ({| key_parent_cnid := parent; key_name := unistr name |}, Leaf_keyed r);
    ({| key_parent_cnid := rec_cnid r; key_name := empty_unistr |},
     Leaf_thread {| thread_parent_cnid := parent; thread_name := unistr name |}) ].

Definition fixture_volume : hfs_volume := {|
  vol_offset := 0;
  cbdata := {| fd := 3; blksize := 512 |};
  vol_catalog :=
    entry 1 (cstr "vol") (mk_folder 2)
    ++ entry 2 (cstr "a") (mk_file 17 0 0 0)
    ++ entry 2 (cstr "b") (mk_folder 16)
    ++ entry 2 (cstr "lnk") (mk_file 20 HFS_HARD_LINK_FILE_TYPE HFS_HFSPLUS_CREATOR 21)
    ++ entry 2 (cstr "gone") (mk_file 23 HFS_HARD_LINK_FILE_TYPE HFS_HFSPLUS_CREATOR 99)
    ++ entry 2 (cstr "meta") (mk_folder 19)
    ++ entry 19 (cstr "iNode21") (mk_file 21 0 0 0)
    ++ entry 16 (cstr "cafe" ++ [0x0301]) (mk_file 18 0 0 0)
    ++ entry 16 (cstr "rsrc") (mk_file 22 0 0 0);
  vol_file_link_dir := 19;
  vol_dir_link_dir := 19
|}.

(** [hfs_lookup] and [hfs_get_path] on the fixtures, from a given cache. *)
Definition fixture_lookup (c : cache_state) (vol : hfs_volume) (path : cstring)
    (fork : option Z) : option lookup_result :=
  @hfs_lookup utf8proc_fragment fixture_unicode fixture_libhfs
    0 empty_unistr c vol path (Rec_OTHER 0) blank_key fork.

Definition fixture_get_path (vol : hfs_volume) (cnid : hfs_cnid_t)
  : option (option cstring) :=
  @hfs_get_path fixture_unicode fixture_libhfs 64 vol cnid.

(** ** Auxiliary notions for the statements below *)

(** The node at address [i] of a ring of [n] nodes whose [next] pointers go
    up and whose [prev] pointers go down. *)
Definition ring_links_ok (n i : nat) (node : recordcache) : Prop :=
  next node = (S i mod n)%nat /\ prev node = ((i + (n - 1)) mod n)%nat.

(** The nodes form one ring and [head] points into it. *)
Definition ring_wf (c : cache_state) : Prop :=
  match head c with
  | None => True
  | Some hd =>
      (hd < length (heap c))%nat /\
      forall i node, heap c !! i = Some node -> ring_links_ok (length (heap c)) i node
  end.

(** A miss or a hit, as a [bool]. *)
Definition cache_hit (c : cache_state) (p : cstring) : bool :=
  match ringbuffer_lookup c p (Rec_OTHER 0) blank_key with
  | Some (true, _, _) => true
  | _ => false
  end.

(** Distinct paths [/0], [/1], [/2], ... and the cache after the first [n] of
    them were added to a fresh ring, [/0] first. *)
Definition test_path (i : nat) : cstring :=
  47 :: decimal_digits 10 (Z.of_nat i) [].

Definition cache_fill (n : nat) : cache_state :=
  fold_left (fun c i => ringbuffer_add c (test_path i) (mk_file (Z.of_nat i) 0 0 0) blank_key)
            (seq 0 n) ringbuffer_init.

(** The caches that calls of [hfs_lookup] on one volume produce, from the
    state before [ringbuffer_init] or the one just after it. *)
Inductive lookup_reachable `{Utf8proc} `{UnicodeLib} `{Libhfs} (vol : hfs_volume)
  : cache_state -> Prop :=
| reach_null : lookup_reachable vol cache_null
| reach_init : lookup_reachable vol ringbuffer_init
| reach_lookup c result0 upath0 path rec0 k0 fork r :
    lookup_reachable vol c ->
    hfs_lookup result0 upath0 c vol path rec0 k0 fork = Some r ->
    lookup_reachable vol (lr_cache r).

(** The [while] loop of [hfs_lookup] on the fixtures, from the root folder. *)
Definition fixture_descent (vol : hfs_volume) (path : cstring) : option descent :=
  let '(_, rec, k) := fixture_find_with_cnid vol HFS_CNID_ROOT_FOLDER in
  @lookup_descend utf8proc_fragment fixture_unicode fixture_libhfs
    (S (length path)) 0 vol rec k empty_unistr (Some (drop 1 path)).

(** The cache after [hfs_lookup] resolved [/a] on a fresh ring. *)
Definition fixture_cache : cache_state :=
  match fixture_lookup ringbuffer_init fixture_volume (cstr "/a") None with
  | Some r => lr_cache r
  | None => ringbuffer_init
  end.

(** [resolves_plain vol path rec]: resolving [path] without the cache uses up
    the path and ends, after the hard-link step, at the record [rec]. *)
Definition resolves_plain `{Utf8proc} `{UnicodeLib} `{Libhfs}
    (vol : hfs_volume) (path : cstring) (rec : hfs_catalog_keyed_record_t) : Prop :=
  exists rootrec rootkey rec1 k,
    hfslib_find_catalog_record_with_cnid vol HFS_CNID_ROOT_FOLDER = (0, rootrec, rootkey)
    /\ lookup_descend (S (length path)) 0 vol rootrec rootkey empty_unistr
                      (Some (drop 1 path)) = Some (Descent_done rec1 k None)
    /\ lookup_hardlink vol rec1 = (false, rec).

(** What [hfs_lookup] returns for [/a/rsrc] on the fixture volume. *)
Definition rsrc_lookup_result : lookup_result :=
  {| lr_ret := 0; lr_record := mk_file 17 0 0 0;
     lr_key := {| key_parent_cnid := 2; key_name := unistr (cstr "a") |};
     lr_fork := Some HFS_RSRCFORK; lr_cache := ringbuffer_init |}.

(** What POSIX promises of [pread]: it returns a [ssize_t], at most [count],
    and stores as many bytes as it returns (none when it returns zero or
    fails). *)
Definition pread_bounded `{Posix} : Prop :=
  forall w fd count offset w' ret data,
    0 <= count ->
    pread w fd count offset = (w', ret, data) ->
    ret <= count /\ - 2 ^ 63 <= ret < 2 ^ 63 /\ length data = Z.to_nat ret.

(** What any [min] does at a [uint64_t] below 2^63 and a [ssize_t]: the
    smaller one when neither is negative; for a negative [ssize_t], that value
    (a signed comparison) or the other one (a comparison after conversion to
    [uint64_t]). *)
Definition c_min_spec `{Posix} : Prop :=
  forall a b, 0 <= a < 2 ^ 63 -> - 2 ^ 63 <= b < 2 ^ 63 ->
    (0 <= b -> c_min a b = Z.min a b)
    /\ (b < 0 -> c_min a b = b \/ c_min a b = a).

(** Reads of the aligned part that are repeated after each short read, as a
    relation between the loop's variables before and after, stated apart
    from the loop: as long as [length] is not zero,
    [pread] is called for all that is missing, at the current [offset] and
    into the current [outbuf]; a call that returns a positive count moves
    [outbuf] and [offset] forward by it and takes it off [length], and the
    calls go on; a call that returns zero or a negative value ends them,
    with [outbuf], [offset] and [length] as they were. *)
Inductive retried_reads `{Posix} (dev : hf_device) : read_state -> read_state -> Prop :=
| retried_complete st :
    rs_length st = 0 ->
    retried_reads dev st st
| retried_end st w ret data :
    rs_length st <> 0 ->
    pread (rs_world st) (fd dev) (rs_length st) (rs_offset st) = (w, ret, data) ->
    ret <= 0 ->
    retried_reads dev st
      {| rs_world := w; rs_mem := rs_mem st; rs_outbuf := rs_outbuf st;
         rs_length := rs_length st; rs_offset := rs_offset st; rs_ret := ret |}
| retried_short st w ret data st' :
    rs_length st <> 0 ->
    pread (rs_world st) (fd dev) (rs_length st) (rs_offset st) = (w, ret, data) ->
    0 < ret ->
    retried_reads dev
      {| rs_world := w; rs_mem := write_at (rs_mem st) (rs_outbuf st) data;
         rs_outbuf := (rs_outbuf st + Z.to_nat ret)%nat;
         rs_length := rs_length st - ret;
         rs_offset := u64 (rs_offset st + ret); rs_ret := ret |} st' ->
    retried_reads dev st st'.

(** In the worlds [good], the device holds [content] and serves every
    request in full. *)
Definition pread_complete `{Posix} (good : world -> Prop) (content : list Z) : Prop :=
  forall w fd count offset,
    good w -> 0 <= count -> 0 <= offset <= Z.of_nat (length content) ->
    exists w',
      good w'
      /\ pread w fd count offset
         = (w', Z.min count (Z.of_nat (length content) - offset),
            take (Z.to_nat count) (drop (Z.to_nat offset) content)).

(** The worlds of [device_posix] with a given disk and an empty script. *)
Definition plain_device (content : list Z) (w : device_world) : Prop :=
  disk w = content /\ script w = [].

(** A volume that starts [offset] bytes into a device with blocks of
    [blksize] bytes. *)
Definition device_volume (offset blksize : Z) : hfs_volume :=
  {| vol_offset := offset; cbdata := {| fd := 3; blksize := blksize |};
     vol_catalog := []; vol_file_link_dir := 0; vol_dir_link_dir := 0 |}.

(** A device that holds the bytes 0, 1, ..., [n - 1] and whose next calls of
    [pread] go as [script] says. *)
Definition counting_device (n : nat) (script : list pread_outcome) : device_world :=
  {| disk := map Z.of_nat (seq 0 n); script := script; dw_errno := 0 |}.

(** The codepoints that the loop header of [hfs_utf8proc_NFD] goes through:
    those of the string up to its end or to the first sequence that
    [utf8proc_iterate] rejects. *)
Fixpoint iterated_codepoints `{Utf8proc} (fuel : nat) (it : cstring) : list Z :=
  match fuel with
  | O => []
  | S fuel' =>
      match it with
      | [] => []
      | _ :: _ =>
          let '(result, codepoint) := utf8proc_iterate it in
          if result >? 0
          then codepoint :: iterated_codepoints fuel' (drop (Z.to_nat result) it)
          else []
      end
  end.

(** The loop header of [hfs_utf8proc_NFD] reaches the end of the string:
    [utf8proc_iterate] accepts every sequence on the way. *)
Fixpoint iterates_to_end `{Utf8proc} (fuel : nat) (it : cstring) : bool :=
  match fuel with
  | O => false
  | S fuel' =>
      match it with
      | [] => true
      | _ :: _ =>
          let '(result, _) := utf8proc_iterate it in
          (result >? 0) && iterates_to_end fuel' (drop (Z.to_nat result) it)
      end
  end.

(** The decomposition range of HFS+ in the words of the specification: all of
    U+0000..U+FFFF except U+2000..U+2FFF and U+F900..U+FAFF. *)
Definition in_hfs_decomposition_range (c : Z) : Prop :=
  0x0000 <= c <= 0xFFFF /\ ~ (0x2000 <= c <= 0x2FFF) /\ ~ (0xF900 <= c <= 0xFAFF).

(** Full canonical decomposition inside the range, the codepoint itself
    outside. *)
Definition hfs_decompose `{Utf8proc} (c : Z) : list Z :=
  if HFSINRANGE c then utf8proc_decompose_char c else [c].

(** Pairs of positions whose combining classes are out of order. *)
Fixpoint inversions `{Utf8proc} (l : list Z) : nat :=
  match l with
  | [] => O
  | x :: l' =>
      (length (filter (fun y => (combining_class y < combining_class x)%Z) l')
       + inversions l')%nat
  end.

(** [sorted] has every codepoint of [buf] that lies outside the range at the
    place it has in [buf]. *)
Definition keeps_outsiders (buf sorted : list Z) : Prop :=
  length sorted = length buf
  /\ forall j c, buf !! j = Some c -> HFSINRANGE c = false -> sorted !! j = Some c.

(** ** Paths and names, for the round trip *)

(** The path [/c1/c2/.../cn] of the elements [c1 ... cn]; [/] when there is
    none. *)
Definition unix_path (elements : list cstring) : cstring :=
  match elements with
  | [] => [47]
  | _ :: _ => concat (map (cons 47) elements)
  end.

(** The name [hfs_pathname_from_unix] makes of a path element, [None] when it
    fails. *)
Definition unix_to_hfs `{Utf8proc} `{UnicodeLib} (c : cstring) : option hfs_unistr255_t :=
  match hfs_pathname_from_unix 0 c empty_unistr with
  | Some (ret, u16) => if ret <? 0 then None else Some u16
  | None => None
  end.

(** The string [hfs_pathname_to_unix] leaves in a buffer of 512 bytes. *)
Definition hfs_to_unix `{UnicodeLib} (u16 : hfs_unistr255_t) : cstring :=
  cstring_at (snd (hfs_pathname_to_unix u16 (replicate 512 0) 0)) 0.

(** A path element up to HFS+ normalisation and the mapping of separators:
    what comes back when it is made a name and the name is made a path
    element again. *)
Definition normalized `{Utf8proc} `{UnicodeLib} (c : cstring) : option cstring :=
  hfs_to_unix <$> unix_to_hfs c.

(** A name whose UTF-8 form has as many bytes as the name has UTF-16 code
    units (as for ASCII names), none of them NUL, and converts without
    error. *)
Definition plain_name `{UnicodeLib} (n : hfs_unistr255_t) : Prop :=
  exists bytes,
    utf16_to_utf8 (us_unicode n) (us_length n) = (us_length n, bytes, 0)
    /\ Z.of_nat (length bytes) = us_length n
    /\ (length bytes < 512)%nat
    /\ Forall (fun b => b <> 0) bytes.

(** A catalog without hard links whose thread records mirror its keys, up to
    the name comparison [same] of the volume: the root folder is found and has
    CNID 2; a key is made of the CNID and name it is made from; and every
    record found under a key whose parent is not 1 (the parent of the root
    folder) is a file or folder with a CNID other than 0, 1 and 2, its thread
    record leads back to the parent of the key with a name that is the [same]
    as the name of the key, and a file is no link. *)
Definition catalog_mirrors `{Libhfs} (same : hfs_unistr255_t -> hfs_unistr255_t -> Prop)
    (vol : hfs_volume) : Prop :=
  (exists rootd rootkey,
      hfslib_find_catalog_record_with_cnid vol HFS_CNID_ROOT_FOLDER
      = (0, Rec_FLDR rootd, rootkey)
      /\ folder_cnid rootd = HFS_CNID_ROOT_FOLDER)
  /\ (forall cnid len units made k,
        hfslib_make_catalog_key cnid len units = (made, k) -> made <> 0 ->
        k = {| key_parent_cnid := cnid;
               key_name := {| us_length := len; us_unicode := units |} |})
  /\ (forall k rec,
        hfslib_find_catalog_record_with_key vol k = (0, rec) ->
        key_parent_cnid k <> 1 ->
        rec_cnid rec <> HFS_CNID_ROOT_FOLDER /\ rec_cnid rec <> 0 /\ rec_cnid rec <> 1
        /\ (exists t, hfslib_find_parent_thread vol (rec_cnid rec) = (key_parent_cnid k, t)
                      /\ same (key_name k) (thread_name t))
        /\ match rec with
           | Rec_FILE f => is_dir_hard_link f = false /\ is_file_hard_link f = false
           | _ => True
           end).

(** [thread_chain vol names cnid]: following the thread records from [cnid]
    leads to the root folder through the names [names], listed from the root
    down. *)
Inductive thread_chain `{Libhfs} (vol : hfs_volume)
  : list hfs_unistr255_t -> hfs_cnid_t -> Prop :=
| chain_root : thread_chain vol [] HFS_CNID_ROOT_FOLDER
| chain_child names parent cnid t :
    thread_chain vol names parent ->
    hfslib_find_parent_thread vol cnid = (parent, t) ->
    cnid <> HFS_CNID_ROOT_FOLDER -> parent <> 0 ->
    thread_chain vol (names ++ [thread_name t]) cnid.

(** [len] as the first loop of [hfs_get_path] adds it up. *)
Definition names_len (names : list hfs_unistr255_t) : Z :=
  foldr (fun n acc => us_length n + 1 + acc) 0 names.

(** A volume with the folder [b] and the files [a] and [b/c]. *)
Definition plain_volume : hfs_volume := {|
  vol_offset := 0;
  cbdata := {| fd := 3; blksize := 512 |};
  vol_catalog :=
    entry 1 (cstr "vol") (mk_folder 2)
    ++ entry 2 (cstr "a") (mk_file 17 0 0 0)
    ++ entry 2 (cstr "b") (mk_folder 16)
    ++ entry 16 (cstr "c") (mk_file 18 0 0 0);
  vol_file_link_dir := 0;
  vol_dir_link_dir := 0
|}.

(** A path element: not empty and without [/]. *)
Definition path_element (c : cstring) : Prop :=
  c <> [] /\ Forall (fun b => b <> 47) c.

(** [splitptr] when the elements [elements] are still to be read. *)
Definition rest_of_path (elements : list cstring) : option cstring :=
  match elements with
  | [] => None
  | c :: cs => Some (c ++ concat (map (cons 47) cs))
  end.

(** A record that is not a file hard link. *)
Definition no_file_link (rec : hfs_catalog_keyed_record_t) : Prop :=
  match rec with
  | Rec_FILE f => is_file_hard_link f = false
  | _ => True
  end.

(** What [hfs_lookup] returns for [/b/c] on [plain_volume], from a fresh
    ring. *)
Definition plain_lookup_result : lookup_result :=
  let k := {| key_parent_cnid := 16; key_name := unistr (cstr "c") |} in
  {| lr_ret := 0; lr_record := mk_file 18 0 0 0; lr_key := k;
     lr_fork := Some HFS_DATAFORK;
     lr_cache := ringbuffer_add ringbuffer_init (cstr "/b/c") (mk_file 18 0 0 0) k |}.

(** A volume with the folder [b] and in it the files [cafe] + U+0301 and
    [x/y]. *)
Definition names_volume : hfs_volume := {|
  vol_offset := 0;
  cbdata := {| fd := 3; blksize := 512 |};
  vol_catalog :=
    entry 1 (cstr "vol") (mk_folder 2)
    ++ entry 2 (cstr "b") (mk_folder 16)
    ++ entry 16 (cstr "cafe" ++ [0x0301]) (mk_file 18 0 0 0)
    ++ entry 16 (cstr "x/y") (mk_file 19 0 0 0);
  vol_file_link_dir := 0;
  vol_dir_link_dir := 0
|}.

(** What [hfs_lookup] returns on [names_volume], from a fresh ring, for
    [/b/caf] + U+00E9 and for [/b/x:y]. *)
Definition accent_lookup_result : lookup_result :=
  let k := {| key_parent_cnid := 16; key_name := unistr (cstr "cafe" ++ [0x0301]) |} in
  {| lr_ret := 0; lr_record := mk_file 18 0 0 0; lr_key := k;
     lr_fork := Some HFS_DATAFORK;
     lr_cache := ringbuffer_add ringbuffer_init (cstr "/b/caf" ++ [0xC3; 0xA9])
                   (mk_file 18 0 0 0) k |}.

Definition colon_lookup_result : lookup_result :=
  let k := {| key_parent_cnid := 16; key_name := unistr (cstr "x/y") |} in
  {| lr_ret := 0; lr_record := mk_file 19 0 0 0; lr_key := k;
     lr_fork := Some HFS_DATAFORK;
     lr_cache := ringbuffer_add ringbuffer_init (cstr "/b/x:y") (mk_file 19 0 0 0) k |}.

(** *** A case-insensitive catalog *)

(** Modelled from the spec: "Name comparison is code-unit-wise but using
    HFS+'s custom case-folding table" on case-insensitive volumes; of the
    table, the letters A to Z. *)
Definition fold_case (u : Z) : Z :=
  if (0x41 <=? u) && (u <=? 0x5A) then u + 0x20 else u.

Definition folded_same (a b : hfs_unistr255_t) : Prop :=
  us_length a = us_length b
  /\ map fold_case (us_unicode a) = map fold_case (us_unicode b).

Definition unistr_folded_eqb (a b : hfs_unistr255_t) : bool :=
  (us_length a =? us_length b)
  && Z_list_eqb (map fold_case (us_unicode a)) (map fold_case (us_unicode b)).

Definition key_folded_eqb (a b : hfs_catalog_key_t) : bool :=
  (key_parent_cnid a =? key_parent_cnid b) && unistr_folded_eqb (key_name a) (key_name b).

(** Modelled from the spec: the same "Direct leaf lookup" of the catalog,
    with the folding comparison of names. *)
Fixpoint folding_catalog_find (cat : list (hfs_catalog_key_t * catalog_leaf))
    (k : hfs_catalog_key_t) : option catalog_leaf :=
  match cat with
  | [] => None
  | (k', leaf) :: cat' =>
      if key_folded_eqb k' k then Some leaf else folding_catalog_find cat' k
  end.

Definition folding_find_with_key (vol : hfs_volume) (k : hfs_catalog_key_t)
  : Z * hfs_catalog_keyed_record_t :=
  match folding_catalog_find (vol_catalog vol) k with
  | Some (Leaf_keyed r) => (0, r)
  | _ => (1, Rec_OTHER 0)
  end.

Definition folding_find_with_cnid (vol : hfs_volume) (cnid : hfs_cnid_t)
  : Z * hfs_catalog_keyed_record_t * hfs_catalog_key_t :=
  let '(parent, t) := fixture_find_parent_thread vol cnid in
  let k := {| key_parent_cnid := parent; key_name := thread_name t |} in
  if parent =? 0 then (1, Rec_OTHER 0, k)
  else let '(e, r) := folding_find_with_key vol k in (e, r, k).

(** The fixture catalog calls with the folding comparison of names. *)
Definition folding_libhfs : Libhfs := {|
  hfslib_find_catalog_record_with_cnid := folding_find_with_cnid;
  hfslib_find_catalog_record_with_key := folding_find_with_key;
  hfslib_make_catalog_key := fixture_make_catalog_key;
  hfslib_find_parent_thread := fixture_find_parent_thread;
  hfslib_get_directory_hardlink :=
    fun vol inode_num =>
      folding_find_with_key vol
        {| key_parent_cnid := vol_dir_link_dir vol;
           key_name := link_name "dir_" inode_num |};
  hfslib_get_hardlink :=
    fun vol inode_num =>
      folding_find_with_key vol
        {| key_parent_cnid := vol_file_link_dir vol;
           key_name := link_name "iNode" inode_num |}
|}.

(** What [hfs_lookup] returns for [/B/C] on [plain_volume] read as a
    case-insensitive volume, from a fresh ring. *)
Definition folded_lookup_result : lookup_result :=
  let k := {| key_parent_cnid := 16; key_name := unistr (cstr "C") |} in
  {| lr_ret := 0; lr_record := mk_file 18 0 0 0; lr_key := k;
     lr_fork := Some HFS_DATAFORK;
     lr_cache := ringbuffer_add ringbuffer_init (cstr "/B/C") (mk_file 18 0 0 0) k |}.

(** The cache after [hfs_lookup] resolved [/b/rsrc] on the fixture volume,
    from a fresh ring. *)
Definition foreign_cache : cache_state :=
  ringbuffer_add ringbuffer_init (cstr "/b/rsrc") (mk_file 22 0 0 0)
    {| key_parent_cnid := 16; key_name := unistr (cstr "rsrc") |}.

(** ** The record cache as its callers see it *)

(** What [ringbuffer_add] is called with. *)
Definition cache_entry : Type :=
  cstring * hfs_catalog_keyed_record_t * hfs_catalog_key_t.

(** The cache after [ringbuffer_init] and then calls of [ringbuffer_add] with
    the entries [adds], the first call first. *)
Definition cache_after (adds : list cache_entry) : cache_state :=
  fold_left (fun c e => ringbuffer_add c e.1.1 e.1.2 e.2) adds ringbuffer_init.

(** The newest entry with the path [p] among the last [S RING_BUFFER_SIZE]
    entries of [adds]. *)
Definition newest_entry (p : cstring) (adds : list cache_entry) : option cache_entry :=
  find (fun e => bool_decide (e.1.1 = p)) (take (S RING_BUFFER_SIZE) (rev adds)).

(** The fields of a node that [ringbuffer_lookup] reads. *)
Definition node_fields (n : recordcache)
  : option cstring * hfs_catalog_keyed_record_t * hfs_catalog_key_t :=
  (path n, record n, key n).

(** [ring_holds c l]: the ring is well formed, and its nodes, taken from
    [head] along [next], have the fields [l]. *)
Definition ring_holds (c : cache_state)
    (l : list (option cstring * hfs_catalog_keyed_record_t * hfs_catalog_key_t)) : Prop :=
  exists hd,
    head c = Some hd /\ ring_wf c /\ length l = length (heap c)
    /\ forall j, (j < length (heap c))%nat ->
         node_fields <$> heap c !! ((hd + j) mod length (heap c))%nat = l !! j.

(** What a walk over such fields finds for [p]: it ends at the first empty
    node and at the first node with the path [p]. *)
Fixpoint scan_entries
    (l : list (option cstring * hfs_catalog_keyed_record_t * hfs_catalog_key_t))
    (p : cstring) : option (hfs_catalog_keyed_record_t * hfs_catalog_key_t) :=
  match l with
  | [] => None
  | (None, _, _) :: _ => None
  | (Some q, r, k) :: l' => if bool_decide (q = p) then Some (r, k) else scan_entries l' p
  end.

(** What [ringbuffer_destroy] frees, in the order of the calls of [free], and
    the global [head] afterwards. *)
Record destroyed := {
  freed_paths : list cstring;
  freed_nodes : list nat;
  head_after : option nat
}.

(** The [do ... while(head != end)] loop of [ringbuffer_destroy]. [None] when
    the fuel runs out or [head] points to a node that is not there or was
    freed before. [free(NULL)] frees nothing. *)
Fixpoint ringbuffer_destroy_loop (fuel : nat) (h : list recordcache)
    (paths : list cstring) (freed : list nat) (hd e : nat) : option destroyed :=
  match fuel with
  | O => None
  | S fuel' =>
      if bool_decide (hd ∈ freed) then None
      else
        match h !! hd with
        | None => None
        | Some n =>
            let paths := paths ++ option_list (path n) in  (* free(head->path) *)
            let tmp := next n in                           (* tmp = head->next *)
            let freed := freed ++ [hd] in                  (* free(head) *)
            if (tmp =? e)%nat                              (* head = tmp; head != end *)
            then Some {| freed_paths := paths; freed_nodes := freed;
                         head_after := Some tmp |}
            else ringbuffer_destroy_loop fuel' h paths freed tmp e
        end
  end.

(** [ringbuffer_destroy()]. *)
Definition ringbuffer_destroy (c : cache_state) : option destroyed :=
  match head c with
  | None =>                                                (* if(!head) return *)
      Some {| freed_paths := []; freed_nodes := []; head_after := None |}
  | Some hd => ringbuffer_destroy_loop (length (heap c)) (heap c) [] [] hd hd
  end.

(** What [hfs_lookup] returns for [/nowhere] on the fixture volume, from a
    fresh ring. *)
Definition nowhere_lookup_result : lookup_result :=
  {| lr_ret := -1; lr_record := Rec_OTHER 0;
     lr_key := {| key_parent_cnid := 2; key_name := unistr (cstr "nowhere") |};
     lr_fork := Some HFS_DATAFORK; lr_cache := ringbuffer_init |}.

(** ** Strings of ASCII characters *)

(** A byte of a C string that is an ASCII character. *)
Definition ascii_byte (b : Z) : Prop := 0 < b < 128.

(** The part of the contract of utf8proc that concerns ASCII: a byte below
    128 is one codepoint, which decomposes to itself, is a starter, and is
    encoded as that byte. *)
Definition utf8proc_ascii `{Utf8proc} : Prop :=
  (forall b rest, ascii_byte b -> utf8proc_iterate (b :: rest) = (1, b))
  /\ (forall b, ascii_byte b -> utf8proc_decompose_char b = [b])
  /\ (forall b, ascii_byte b -> combining_class b = 0)
  /\ (forall l, Forall ascii_byte l -> utf8proc_reencode l = l).

(** ** Separators *)

(** The byte [c] replaced by [d]. *)
Definition replace_byte (c d x : Z) : Z := if x =? c then d else x.

(** ** Broken thread chains *)

(** [thread_broken vol cnid]: on the way from [cnid] up to the root folder a
    thread record is missing, that is, [hfslib_find_parent_thread] returns
    0 for [cnid] or for one of the folders above it. *)
Inductive thread_broken `{Libhfs} (vol : hfs_volume) : hfs_cnid_t -> Prop :=
| broken_here cnid t :
    cnid <> HFS_CNID_ROOT_FOLDER ->
    hfslib_find_parent_thread vol cnid = (0, t) ->
    thread_broken vol cnid
| broken_above cnid parent t :
    cnid <> HFS_CNID_ROOT_FOLDER ->
    hfslib_find_parent_thread vol cnid = (parent, t) ->
    parent <> 0 ->
    thread_broken vol parent ->
    thread_broken vol cnid.

(** The names of the thread records have a 16-bit length. *)
Definition thread_names_sized `{Libhfs} (vol : hfs_volume) : Prop :=
  forall cnid, 0 <= us_length (thread_name (hfslib_find_parent_thread vol cnid).2).

(** ** hfs_open and hfs_close *)

(** [struct stat]: the fields that [hfs_open] reads. *)
Record stat_t := {
  st_mode : Z;
  st_blksize : Z
}.

(** The file type macros of <sys/stat.h> (the values are those of Linux,
    FreeBSD and macOS alike). *)
Definition S_IFMT : Z := 0xF000.
Definition S_IFCHR : Z := 0x2000.
Definition S_IFBLK : Z := 0x6000.
Definition S_IFREG : Z := 0x8000.
Definition S_ISCHR (m : Z) : bool := Z.land m S_IFMT =? S_IFCHR.
Definition S_ISBLK (m : Z) : bool := Z.land m S_IFMT =? S_IFBLK.
Definition S_ISREG (m : Z) : bool := Z.land m S_IFMT =? S_IFREG.

(** The two requests that [hfs_open] makes of [ioctl], by the names the
    file gives them on every platform that has them. *)
Inductive ioctl_request := DISKIDEALSIZE | DISKBLOCKSIZE.

(** [uint32_t] arithmetic. *)
Definition u32 (x : Z) : Z := x mod 2 ^ 32.

(** What the system gives [hfs_open] and [hfs_close]. [os] is everything
    outside the variables of the two functions, [errno] included. *)
Class PosixFiles := {
  os : Type;
  os_errno : os -> Z;
  (** [errno = e]. *)
  os_set_errno : Z -> os -> os;
  (** [calloc(1, sizeof( *dev))]: whether the result is not NULL. *)
  os_calloc : os -> os * bool;
  (** [open(name, O_RDONLY)]. *)
  os_open : cstring -> os -> os * Z;
  (** [fstat(fd, &st)]: the return value and [st] afterwards. *)
  os_fstat : Z -> os -> os * Z * stat_t;
  (** [ioctl(fd, request, &v)] with [v] holding [value]: the return value and
      the value stored in [v] afterwards. *)
  os_ioctl : Z -> ioctl_request -> Z -> os -> os * Z * Z;
  (** [close(fd)]. *)
  os_close : Z -> os -> os * Z
}.

(** The calls that the two functions make, with what they returned, in the
    order in which they were made. *)
Inductive os_call :=
| Call_calloc (ok : bool)
| Call_open (name : cstring) (ret : Z)
| Call_fstat (fd : Z) (ret : Z) (st : stat_t)
| Call_ioctl (fd : Z) (request : ioctl_request) (ret : Z) (value : Z)
| Call_close (fd : Z) (ret : Z)
| Call_free.

(** The state that the calls are threaded through: the system and the calls
    made so far. *)
Record proc `{PosixFiles} := {
  p_os : os;
  p_calls : list os_call
}.

(** What [hfs_open] leaves behind: its return value and, when it assigned
    [vol->cbdata], the device stored there. *)
Record open_result := {
  or_ret : Z;
  or_cbdata : option hf_device
}.

Section Open.

Context `{PosixFiles}.

(** A computation that makes calls. *)
Definition sys (A : Type) : Type := proc -> proc * A.

#[export] Instance sys_ret : MRet sys := fun A (x : A) s => (s, x).

#[export] Instance sys_bind : MBind sys :=
  fun A B (f : A -> sys B) (m : sys A) s => let '(s, x) := m s in f x s.

Definition logged {A} (step : os -> os * A) (call : A -> os_call) : sys A :=
  fun s =>
    let '(w, x) := step (p_os s) in
    ({| p_os := w; p_calls := p_calls s ++ [call x] |}, x).

Definition get_errno : sys Z := fun s => (s, os_errno (p_os s)).

Definition set_errno (e : Z) : sys unit :=
  fun s => ({| p_os := os_set_errno e (p_os s); p_calls := p_calls s |}, tt).

Definition call_calloc : sys bool := logged os_calloc Call_calloc.

Definition call_open (name : cstring) : sys Z :=
  logged (os_open name) (Call_open name).

Definition call_fstat (fd : Z) : sys (Z * stat_t) :=
  logged (fun w => let '(w, r, st) := os_fstat fd w in (w, (r, st)))
         (fun x => Call_fstat fd x.1 x.2).

Definition call_ioctl (fd : Z) (request : ioctl_request) (value : Z) : sys (Z * Z) :=
  logged (fun w => let '(w, r, v) := os_ioctl fd request value w in (w, (r, v)))
         (fun x => Call_ioctl fd request x.1 x.2).

Definition call_close (fd : Z) : sys Z := logged (os_close fd) (Call_close fd).

Definition call_free : sys unit :=
  fun s => ({| p_os := p_os s; p_calls := p_calls s ++ [Call_free] |}, tt).

(** The statements at the label [error], with [dev->fd] holding [dev_fd]. *)
Definition hfs_open_error (dev_fd : Z) : sys open_result :=
  (if dev_fd >=? 0 then call_close dev_fd ;; mret tt else mret tt) ;;
  call_free ;;
  e ← get_errno;
  mret {| or_ret := - e; or_cbdata := None |}.

(** The macro [BAIL(e)]. *)
Definition BAIL (e : sys Z) (dev_fd : Z) : sys open_result :=
  v ← e; set_errno v ;; hfs_open_error dev_fd.

(** [hfs_open(vol, name, cbargs)], as built where [DISKBLOCKSIZE] is
    defined and without ublio. [calloc] leaves [dev->blksize] zero. *)
Definition hfs_open (name : cstring) : sys open_result :=
  ok ← call_calloc;
  if negb ok then
    set_errno ENOMEM ;; mret {| or_ret := - ENOMEM; or_cbdata := None |}
  else
    dev_fd ← call_open name;
    if dev_fd <? 0 then BAIL get_errno dev_fd
    else
      '(r, st) ← call_fstat dev_fd;
      if negb (r =? 0) then BAIL get_errno dev_fd
      else if S_ISCHR (st_mode st) || S_ISBLK (st_mode st) then
        '(r, v) ← call_ioctl dev_fd DISKIDEALSIZE 0;
        let blksize := u32 v in
        if negb (r =? 0) then BAIL get_errno dev_fd
        else
          '(r, blksize) ←
            (if blksize =? 0 then
               '(r, v) ← call_ioctl dev_fd DISKBLOCKSIZE blksize;
               mret (r, u32 v)
             else mret (0, blksize));
          if negb (r =? 0) then BAIL get_errno dev_fd
          else
            let blksize := if blksize =? 0 then 512 else blksize in
            mret {| or_ret := 0;
                    or_cbdata := Some {| fd := dev_fd; blksize := blksize |} |}
      else if S_ISREG (st_mode st) then
        mret {| or_ret := 0;
                or_cbdata := Some {| fd := dev_fd; blksize := u32 (st_blksize st) |} |}
      else BAIL (mret EINVAL) dev_fd.

(** [hfs_close(vol, cbargs)], with [vol->cbdata] holding [dev]. *)
Definition hfs_close (dev : hf_device) : sys unit :=
  call_close (fd dev) ;; call_free.

End Open.

(** The descriptors that the calls of [open] in a list of calls returned,
    and the descriptors that its calls of [close] were given. *)
Definition opened (calls : list os_call) : list Z :=
  omap (fun c => match c with
                 | Call_open _ ret => if ret >=? 0 then Some ret else None
                 | _ => None
                 end) calls.

Definition closed (calls : list os_call) : list Z :=
  omap (fun c => match c with Call_close fd _ => Some fd | _ => None end) calls.

(** The blocks that were allocated and the calls of [free]. *)
Definition allocated (calls : list os_call) : nat :=
  length (omap (fun c => match c with
                         | Call_calloc true => Some tt
                         | _ => None
                         end) calls).

Definition freed (calls : list os_call) : nat :=
  length (omap (fun c => match c with Call_free => Some tt | _ => None end) calls).

(** *** A system for running the code *)

(** A file of the toy system: its name, what [fstat] says of it, and what
    the two [ioctl] requests store for it. *)
Record toy_file := {
  tf_name : cstring;
  tf_stat : stat_t;
  tf_ideal : Z;
  tf_block : Z
}.

(** The toy system: its files, the file that descriptor 3 refers to while
    it is open, and [errno]. *)
Record toy_os := {
  toy_files : list toy_file;
  toy_open : option toy_file;
  toy_errno : Z
}.

Definition ENOENT : Z := 2.
Definition EBADF : Z := 9.
Definition ENOTTY : Z := 25.

Definition toy_fail (e : Z) (w : toy_os) : toy_os :=
  {| toy_files := toy_files w; toy_open := toy_open w; toy_errno := e |}.

Definition toy_sys_open (name : cstring) (w : toy_os) : toy_os * Z :=
  match find (fun f => Z_list_eqb (tf_name f) name) (toy_files w) with
  | Some f => ({| toy_files := toy_files w; toy_open := Some f;
                  toy_errno := toy_errno w |}, 3)
  | None => (toy_fail ENOENT w, -1)
  end.

Definition toy_sys_fstat (fd : Z) (w : toy_os) : toy_os * Z * stat_t :=
  match toy_open w with
  | Some f => if fd =? 3 then (w, 0, tf_stat f)
              else (toy_fail EBADF w, -1, {| st_mode := 0; st_blksize := 0 |})
  | None => (toy_fail EBADF w, -1, {| st_mode := 0; st_blksize := 0 |})
  end.

Definition toy_sys_ioctl (fd : Z) (request : ioctl_request) (value : Z) (w : toy_os)
  : toy_os * Z * Z :=
  match toy_open w with
  | Some f =>
      if negb (fd =? 3) then (toy_fail EBADF w, -1, value)
      else if S_ISCHR (st_mode (tf_stat f)) || S_ISBLK (st_mode (tf_stat f)) then
        (w, 0, match request with
               | DISKIDEALSIZE => tf_ideal f
               | DISKBLOCKSIZE => tf_block f
               end)
      else (toy_fail ENOTTY w, -1, value)
  | None => (toy_fail EBADF w, -1, value)
  end.

Definition toy_sys_close (fd : Z) (w : toy_os) : toy_os * Z :=
  match toy_open w with
  | Some _ => if fd =? 3
              then ({| toy_files := toy_files w; toy_open := None;
                       toy_errno := toy_errno w |}, 0)
              else (toy_fail EBADF w, -1)
  | None => (toy_fail EBADF w, -1)
  end.

Definition toy_posix : PosixFiles := {|
  os := toy_os;
  os_errno := toy_errno;
  os_set_errno := toy_fail;
  os_calloc := fun w => (w, true);
  os_open := toy_sys_open;
  os_fstat := toy_sys_fstat;
  os_ioctl := toy_sys_ioctl;
  os_close := toy_sys_close
|}.

(** A system with a disk image, a block device that reports no optimal
    transfer size, and a directory. *)
Definition toy_system : toy_os := {|
  toy_files :=
    [ {| tf_name := cstr "disk.img";
         tf_stat := {| st_mode := 0x81A4; st_blksize := 4096 |};
         tf_ideal := 0; tf_block := 0 |};
      {| tf_name := cstr "/dev/sdb2";
         tf_stat := {| st_mode := 0x61B0; st_blksize := 4096 |};
         tf_ideal := 0; tf_block := 2048 |};
      {| tf_name := cstr "/mnt";
         tf_stat := {| st_mode := 0x41ED; st_blksize := 4096 |};
         tf_ideal := 0; tf_block := 0 |} ];
  toy_open := None;
  toy_errno := 0
|}.

Definition toy_proc : @proc toy_posix := @Build_proc toy_posix toy_system [].

(** ** hfsdump: the [read] command for a file *)

(** The two functions of libhfs that the [read] command of hfsdump calls for
    a file. *)
Class LibhfsRead := {
  (** [hfs_extent_descriptor_t*]. *)
  extents : Type;
  (** [hfslib_get_file_extents(&vol, cnid, fork, &extents, NULL)]: the number
      returned and [extents] afterwards. *)
  hfslib_get_file_extents : hfs_volume -> hfs_cnid_t -> Z -> Z * extents;
  (** [hfslib_readd_with_extents(&vol, data, &bytes, length, offset, extents,
      nextents, NULL)] with [data] and [bytes] as they are before the call:
      the return value, [data] and [bytes] afterwards. *)
  hfslib_readd_with_extents :
    hfs_volume -> list Z -> Z -> Z -> Z -> extents -> Z -> Z * list Z * Z
}.

Section Dump.

Context `{LibhfsRead}.

(** The [while] loop of the [read] command: the final [ret] and what
    [fwrite] has written to [stdout]. *)
Fixpoint dump_file_loop (fuel : nat) (vol : hfs_volume) (ext : extents) (nextents : Z)
    (size : Z) (data : list Z) (bytes offset : Z) (out : list Z)
  : option (Z * list Z) :=
  match fuel with
  | O => None
  | S fuel' =>
      let '(ret, data, bytes) :=
        hfslib_readd_with_extents vol data bytes 4096 offset ext nextents in
      if (ret =? 0) && (offset <? size) then
        let n := if size - offset <? bytes then size - offset else bytes in
        dump_file_loop fuel' vol ext nextents size data bytes (u64 (offset + bytes))
                       (out ++ take (Z.to_nat n) data)  (* fwrite(data, n, 1, stdout) *)
      else Some (ret, out)
  end.

(** The block of [main] for [read] and a file record with the CNID [cnid]
    and the logical fork sizes [data_size] and [rsrc_size]. [data0] is the
    indeterminate initial contents of the array [data]. *)
Definition dump_file (fuel : nat) (vol : hfs_volume) (cnid : hfs_cnid_t) (fork : Z)
    (data_size rsrc_size : Z) (data0 : list Z) : option (Z * list Z) :=
  let '(nextents, ext) := hfslib_get_file_extents vol cnid fork in
  let size := if fork =? HFS_DATAFORK then data_size else rsrc_size in
  dump_file_loop fuel vol ext nextents size data0 0 0 [].

(** [hfslib_readd_with_extents] serves the bytes [content] of a fork: a read
    at [offset] succeeds and stores the bytes that the fork has from there
    on, as many as were asked for when there are that many. *)
Definition readd_serves (vol : hfs_volume) (ext : extents) (nextents : Z)
    (content : list Z) : Prop :=
  forall data bytes len offset,
    0 <= offset -> 0 <= len ->
    let chunk := take (Z.to_nat len) (drop (Z.to_nat offset) content) in
    hfslib_readd_with_extents vol data bytes len offset ext nextents
    = (0, chunk ++ drop (length chunk) data, Z.of_nat (length chunk)).

End Dump.

(** A libhfs that reads every fork of every file from one list of bytes. *)
Definition toy_readd (content : list Z) : LibhfsRead := {|
  extents := unit;
  hfslib_get_file_extents := fun _ _ _ => (1, tt);
  hfslib_readd_with_extents := fun _ data _ len offset _ _ =>
    let chunk := take (Z.to_nat len) (drop (Z.to_nat offset) content) in
    (0, chunk ++ drop (length chunk) data, Z.of_nat (length chunk))
|}.

(** * Properties *)

(** ** The record cache *)

Lemma strcmp_eq (a b : cstring) : strcmp a b = 0 <-> a = b.
Proof.
  revert b. induction a as [|x a IH]; intros [|y b]; simpl; try (split; [lia | congruence]).
  - tauto.
  - destruct (Z.eqb_spec x y) as [->|Hne].
    + rewrite IH. split; congruence.
    + destruct (x <? y); split; try lia; congruence.
Qed.

Lemma strcmp_refl (a : cstring) : strcmp a a = 0.
Proof. by apply strcmp_eq. Qed.

Lemma ringbuffer_init_heap :
  heap ringbuffer_init
  = map (fun i => {| next := (S i mod 1025)%nat; prev := ((i + 1024) mod 1025)%nat;
                     path := None; record := Rec_OTHER 0; key := blank_key |})
        (seq 0 1025).
Proof. vm_compute. reflexivity. Qed.

Lemma ringbuffer_init_wf : ring_wf ringbuffer_init.
Proof.
  unfold ring_wf. change (head ringbuffer_init) with (Some 0%nat).
  rewrite ringbuffer_init_heap, length_map, length_seq. split; [lia|].
  intros i node Hi. rewrite list_lookup_fmap in Hi.
  destruct (seq 0 1025 !! i) as [j|] eqn:Hj; [|discriminate].
  apply lookup_seq in Hj as [-> ?]. simpl in Hi. inversion Hi; subst. by split.
Qed.

Lemma ringbuffer_add_wf c p r k : ring_wf c -> ring_wf (ringbuffer_add c p r k).
Proof.
  unfold ring_wf, ringbuffer_add. destruct (head c) as [hd|] eqn:Hhd; simpl; [|by rewrite Hhd].
  intros [Hlt Hlinks]. rewrite length_alter. split.
  - unfold prev_of. destruct (heap c !! hd) as [n|] eqn:Hn.
    + destruct (Hlinks _ _ Hn) as [_ ->]. apply Nat.mod_upper_bound. lia.
    + lia.
  - intros i node Hi. destruct (decide (prev_of (heap c) hd = i)) as [Heq|Hne].
    + rewrite Heq, list_lookup_alter_eq in Hi.
      destruct (heap c !! i) as [n|] eqn:Hn; [|discriminate].
      simpl in Hi. inversion Hi; subst node. apply (Hlinks _ _ Hn).
    + rewrite list_lookup_alter_ne in Hi by done. by apply Hlinks.
Qed.

Lemma ringbuffer_lookup_loop_total h hd p :
  (hd < length h)%nat ->
  (forall i node, h !! i = Some node -> ring_links_ok (length h) i node) ->
  forall fuel k, (fuel + k = length h)%nat -> (k < length h)%nat ->
  exists r, ringbuffer_lookup_loop fuel h hd ((hd + k) mod length h)%nat p = Some r.
Proof.
  intros Hhd Hlinks. induction fuel as [|fuel IH]; intros k Hsum Hk; [lia|].
  simpl.
  assert (Hit : ((hd + k) mod length h < length h)%nat) by (apply Nat.mod_upper_bound; lia).
  destruct (lookup_lt_is_Some_2 h _ Hit) as [node Hnode]. rewrite Hnode.
  destruct (path node) as [q|]; [|eauto].
  destruct (strcmp q p =? 0); [eauto|].
  destruct (Hlinks _ _ Hnode) as [Hnext _]. rewrite Hnext.
  assert (Hstep : (S ((hd + k) mod length h) mod length h = (hd + S k) mod length h)%nat).
  { replace (S ((hd + k) mod length h)) with ((hd + k) mod length h + 1)%nat by lia.
    rewrite Nat.Div0.add_mod_idemp_l. f_equal. lia. }
  rewrite Hstep.
  destruct (Nat.eqb_spec ((hd + S k) mod length h) hd) as [Heq|Hne]; [eauto|].
  apply IH; [lia|].
  destruct (decide (S k = length h)) as [Hlast|]; [|lia].
  exfalso. apply Hne. rewrite Hlast.
  replace (hd + length h)%nat with (hd + 1 * length h)%nat by lia.
  rewrite Nat.Div0.mod_add. apply Nat.mod_small. lia.
Qed.

(** On a well-formed ring [ringbuffer_lookup] returns. *)
Lemma ringbuffer_lookup_total c p r k :
  ring_wf c -> exists res, ringbuffer_lookup c p r k = Some res.
Proof.
  unfold ring_wf, ringbuffer_lookup. destruct (head c) as [hd|]; [|eauto].
  intros [Hhd Hlinks].
  destruct (ringbuffer_lookup_loop_total (heap c) hd p Hhd Hlinks (length (heap c)) 0)
    as [res Hres]; [lia|lia|].
  rewrite Nat.add_0_r, Nat.mod_small in Hres by lia. rewrite Hres.
  destruct res as [[? ?]|]; eauto.
Qed.

(** A hit returns the record and key of a node that stores the path. *)
Lemma ringbuffer_lookup_loop_hit fuel h hd it p r k :
  ringbuffer_lookup_loop fuel h hd it p = Some (Some (r, k)) ->
  exists i node, h !! i = Some node /\ path node = Some p /\ record node = r /\ key node = k.
Proof.
  revert it. induction fuel as [|fuel IH]; intros it; simpl; [discriminate|].
  destruct (h !! it) as [node|] eqn:Hnode; [|discriminate].
  destruct (path node) as [q|] eqn:Hq; [|discriminate].
  destruct (Z.eqb_spec (strcmp q p) 0) as [Heq|Hne].
  - intros [= <- <-]. apply strcmp_eq in Heq as ->. by exists it, node.
  - destruct (next node =? hd)%nat; [discriminate|]. apply IH.
Qed.

Lemma ringbuffer_lookup_hit c p r0 k0 r k :
  ringbuffer_lookup c p r0 k0 = Some (true, r, k) ->
  exists i node, heap c !! i = Some node /\ path node = Some p /\ record node = r /\ key node = k.
Proof.
  unfold ringbuffer_lookup. destruct (head c) as [hd|]; [|discriminate].
  destruct (ringbuffer_lookup_loop _ _ _ _ _) as [[[r' k']|]|] eqn:Hloop; try discriminate.
  intros [= <- <-]. eapply ringbuffer_lookup_loop_hit, Hloop.
Qed.

(** [ringbuffer_add] stores into one node and leaves the paths of the others alone. *)
Lemma ringbuffer_add_stored c p r k i node :
  heap (ringbuffer_add c p r k) !! i = Some node ->
  (path node = Some p /\ record node = r /\ key node = k) \/ heap c !! i = Some node.
Proof.
  unfold ringbuffer_add. destruct (head c) as [hd|]; simpl; [|by right].
  destruct (decide (prev_of (heap c) hd = i)) as [Heq|Hne].
  - rewrite Heq, list_lookup_alter_eq. destruct (heap c !! i); [|discriminate].
    intros [= <-]. by left.
  - rewrite list_lookup_alter_ne by done. by right.
Qed.

(** C7 (evaluation of the code against the claim). The claim gives the ring a
    capacity of 1024 entries, which is [RING_BUFFER_SIZE]; [ringbuffer_init]
    allocates [head] and then [RING_BUFFER_SIZE] further nodes, so the ring
    has 1025. After 1025 distinct paths were added, all 1025 nodes hold one of
    them and the oldest, [/0], is still served together with the newest; only
    the 1026th insertion overwrites [/0], leaving [/1] in place. *)
Theorem ring_holds_1025_entries :
  length (heap ringbuffer_init) = S RING_BUFFER_SIZE
  /\ (let c := cache_fill 1025 in
      map path (heap c) = map (fun j => Some (test_path (1024 - j))) (seq 0 1025)
      /\ cache_hit c (test_path 0) = true
      /\ cache_hit c (test_path 1024) = true)
  /\ (let c := cache_fill 1026 in
      cache_hit c (test_path 0) = false
      /\ cache_hit c (test_path 1) = true
      /\ cache_hit c (test_path 1025) = true).
Proof. vm_compute. repeat split. Qed.

(** ** hfs_lookup *)

Section LookupProperties.

Context `{Utf8proc} `{UnicodeLib} `{Libhfs}.

(** The indeterminate initial value of [result] is never read when the string
    is not empty. *)
Lemma hfs_utf8proc_NFD_result0 r0 r0' x u8 :
  hfs_utf8proc_NFD r0 (x :: u8) = hfs_utf8proc_NFD r0' (x :: u8).
Proof. reflexivity. Qed.

(** Neither are the previous contents of [upath]. *)
Lemma lookup_descend_locals fuel r0 r0' vol rec k up up' sp :
  lookup_descend fuel r0 vol rec k up sp = lookup_descend fuel r0' vol rec k up' sp.
Proof.
  revert rec k up up' sp. induction fuel as [|fuel IH]; intros rec k up up' sp; [done|].
  simpl. destruct rec as [folder| |]; try done.
  destruct (strsep sp 47) as [[[|x pelem]|] sp']; try done.
  unfold hfs_pathname_from_unix. rewrite (hfs_utf8proc_NFD_result0 r0 r0').
  destruct (hfs_utf8proc_NFD r0' (x :: pelem)) as [[norm|]|]; simpl; try done.
  destruct (utf8_to_utf16 _) as [[n units] err]. simpl.
  destruct (_ <? 0); [done|].
  destruct (hfslib_make_catalog_key _ _ _) as [made k1].
  destruct (made =? 0); [done|].
  destruct (hfslib_find_catalog_record_with_key vol k1) as [ret rec1].
  destruct (negb (ret =? 0)); [done|].
  destruct rec1 as [|f|]; try apply IH.
  destruct (is_dir_hard_link f); [|apply IH].
  destruct (hfslib_get_directory_hardlink _ _) as [e rec2].
  destruct (negb (e =? 0)); [done|apply IH].
Qed.

(** A miss leaves [*record] and [*key] as they were. *)
Lemma ringbuffer_lookup_miss c p r0 k0 r k :
  ringbuffer_lookup c p r0 k0 = Some (false, r, k) -> r = r0 /\ k = k0.
Proof.
  unfold ringbuffer_lookup. destruct (head c); [|by intros [= <- <-]].
  destruct (ringbuffer_lookup_loop _ _ _ _ _) as [[[? ?]|]|]; try discriminate.
  by intros [= <- <-].
Qed.

Lemma lookup_finish_cache c vol path rec k fork sp :
  lr_cache (lookup_finish c vol path rec k fork sp) = c
  \/ (sp = None
      /\ exists rec', lookup_hardlink vol rec = (false, rec')
                      /\ lr_cache (lookup_finish c vol path rec k fork sp)
                         = ringbuffer_add c path rec' k).
Proof.
  unfold lookup_finish. destruct (lookup_suffix rec fork sp); [by left|].
  destruct (lookup_hardlink vol rec) as [[|] rec']; [by left|].
  destruct sp; [by left|]. right. eauto.
Qed.

(** What a call can do to the cache: nothing, or add its path after a
    resolution that used up the path. *)
Lemma hfs_lookup_cache result0 upath0 c vol path rec0 k0 fork r :
  hfs_lookup result0 upath0 c vol path rec0 k0 fork = Some r ->
  lr_cache r = c
  \/ exists rec k, resolves_plain vol path rec /\ lr_cache r = ringbuffer_add c path rec k.
Proof.
  unfold hfs_lookup.
  destruct (ringbuffer_lookup c path rec0 k0) as [[[[|] rec] k]|]; cbn -[lookup_descend cstr]; try discriminate.
  { intros [= <-]. by left. }
  destruct (hfslib_find_catalog_record_with_cnid vol HFS_CNID_ROOT_FOLDER)
    as [[e rootrec] rootkey] eqn:Hroot.
  destruct (Z.eqb_spec e 0) as [->|]; cbn -[lookup_descend cstr]; [|intros [= <-]; by left].
  destruct (lookup_descend (S (length path)) result0 vol rootrec rootkey upath0 _)
    as [[val rec1 k1|rec1 k1 sp]|] eqn:Hd; cbn -[lookup_descend cstr]; try discriminate.
  { intros [= <-]. by left. }
  intros [= <-].
  destruct (lookup_finish_cache c vol path rec1 k1
              (option_map (fun _ => HFS_DATAFORK) fork) sp)
    as [Hc|[-> (rec' & Hlink & Hc)]];
    [by left|right].
  exists rec', k1. split; [|done].
  exists rootrec, rootkey, rec1, k1. split; [done|]. split; [|done].
  rewrite <- Hd. apply lookup_descend_locals.
Qed.

Lemma lookup_reachable_wf vol c : lookup_reachable vol c -> ring_wf c.
Proof.
  induction 1 as [| |c result0 upath0 path rec0 k0 fork r _ IH Hr].
  - exact I.
  - apply ringbuffer_init_wf.
  - destruct (hfs_lookup_cache _ _ _ _ _ _ _ _ _ Hr) as [->|(rec & k & _ & ->)];
      [done|by apply ringbuffer_add_wf].
Qed.

(** Every path in the ring was put there, with its record, by a resolution
    that used up the path. *)
Lemma lookup_reachable_stored vol c :
  lookup_reachable vol c ->
  forall i node q, heap c !! i = Some node -> path node = Some q ->
                   resolves_plain vol q (record node).
Proof.
  induction 1 as [| |c result0 upath0 path rec0 k0 fork r _ IH Hr]; intros i node q Hi Hq.
  - unfold cache_null in Hi; simpl in Hi. by rewrite lookup_nil in Hi.
  - rewrite ringbuffer_init_heap, list_lookup_fmap in Hi.
    destruct (seq 0 1025 !! i); [|discriminate]. simpl in Hi.
    inversion Hi; subst node. discriminate.
  - destruct (hfs_lookup_cache _ _ _ _ _ _ _ _ _ Hr) as [Hc|(rec & k & Hplain & Hc)];
      rewrite Hc in Hi; [by eapply IH|].
    apply ringbuffer_add_stored in Hi as [(Hnew & Hrec & _)|Hold]; [|by eapply IH].
    rewrite Hq in Hnew. inversion Hnew; subst q. by rewrite Hrec.
Qed.

(** C10. When [ringbuffer_lookup] finds the path, [hfs_lookup] returns 0 with
    the cached record and key, the cache as it was, and [*fork] (for a [fork]
    that is not NULL) holding [HFS_DATAFORK], the value stored before the
    cache was consulted. *)
Theorem hfs_lookup_cached_is_datafork result0 upath0 c vol path rec0 k0 fork rec k :
  ringbuffer_lookup c path rec0 k0 = Some (true, rec, k) ->
  hfs_lookup result0 upath0 c vol path rec0 k0 fork
  = Some {| lr_ret := 0; lr_record := rec; lr_key := k;
            lr_fork := option_map (fun _ => HFS_DATAFORK) fork; lr_cache := c |}.
Proof. intros Hhit. unfold hfs_lookup. rewrite Hhit. reflexivity. Qed.

(** C3 (amended). Let the cache miss, the root folder be found and the loop
    of [hfs_lookup] end with [splitptr] at a remainder [rest]. If the record
    is a file and [rest] is exactly [rsrc], [*fork] becomes [HFS_RSRCFORK],
    nothing is cached, and the call returns 0, unless the file is a hard link
    whose target cannot be fetched, in which case it returns -6. In every
    other case the call returns -5 with [*fork] still [HFS_DATAFORK]. *)
Theorem hfs_lookup_remainder result0 upath0 c vol path rec0 k0 fork
    rootrec rootkey rec k rest :
  ringbuffer_lookup c path rec0 k0 = Some (false, rec0, k0) ->
  hfslib_find_catalog_record_with_cnid vol HFS_CNID_ROOT_FOLDER = (0, rootrec, rootkey) ->
  lookup_descend (S (length path)) result0 vol rootrec rootkey upath0 (Some (drop 1 path))
  = Some (Descent_done rec k (Some rest)) ->
  exists r,
    hfs_lookup result0 upath0 c vol path rec0 k0 fork = Some r
    /\ lr_cache r = c
    /\ if is_FILE rec && (strcmp rest (cstr "rsrc") =? 0) then
         lr_fork r = option_map (fun _ => HFS_RSRCFORK) fork
         /\ lr_ret r = (if fst (lookup_hardlink vol rec) then -6 else 0)
       else
         lr_fork r = option_map (fun _ => HFS_DATAFORK) fork
         /\ lr_ret r = -5.
Proof.
  intros Hmiss Hroot Hd. unfold hfs_lookup. rewrite Hmiss. cbn -[lookup_descend cstr].
  rewrite Hroot. cbn -[lookup_descend cstr]. rewrite Hd. cbn -[lookup_descend cstr]. eexists. split; [reflexivity|].
  unfold lookup_finish, lookup_suffix.
  destruct (is_FILE rec); cbn [negb orb andb]; [|by repeat split].
  destruct (strcmp rest (cstr "rsrc") =? 0); cbn [negb orb andb]; [|by repeat split].
  destruct (lookup_hardlink vol rec) as [[|] rec']; cbn [fst]; destruct fork; by repeat split.
Qed.

(** C4. A call of [hfs_lookup] that sets the resource-fork flag leaves the
    cache as it found it, and no cache that calls on this volume can produce
    holds its path: then, before and afterwards [ringbuffer_lookup] misses
    on it. *)
Theorem rsrc_resolutions_never_cached vol c result0 upath0 path rec0 k0 v r :
  lookup_reachable vol c ->
  hfs_lookup result0 upath0 c vol path rec0 k0 (Some v) = Some r ->
  lr_fork r = Some HFS_RSRCFORK ->
  lr_cache r = c
  /\ forall c', lookup_reachable vol c' ->
       forall rec k, ringbuffer_lookup c' path rec k = Some (false, rec, k).
Proof.
  intros Hreach Hr Hfork.
  assert (Hsuffix : lr_cache r = c /\ forall rec, ~ resolves_plain vol path rec).
  { revert Hr. unfold hfs_lookup.
    destruct (ringbuffer_lookup c path rec0 k0) as [[[[|] rec] k]|]; cbn -[lookup_descend cstr]; try discriminate.
    { intros [= <-]. cbn in Hfork. discriminate. }
    destruct (hfslib_find_catalog_record_with_cnid vol HFS_CNID_ROOT_FOLDER)
      as [[e rootrec] rootkey] eqn:Hroot.
    destruct (Z.eqb_spec e 0) as [->|]; cbn -[lookup_descend cstr];
      [|intros [= <-]; cbn in Hfork; discriminate].
    destruct (lookup_descend (S (length path)) result0 vol rootrec rootkey upath0 _)
      as [[val rec1 k1|rec1 k1 sp]|] eqn:Hd; cbn -[lookup_descend cstr]; try discriminate.
    { intros [= <-]. cbn in Hfork. discriminate. }
    intros [= <-]. revert Hfork. unfold lookup_finish, lookup_suffix.
    destruct sp as [rest|].
    - intros Hfork. split.
      + destruct (_ || _); [done|]. by destruct (lookup_hardlink vol rec1) as [[|] ?].
      + intros rec2 (rootrec' & rootkey' & rec' & k' & Hroot' & Hd' & _).
        rewrite Hroot in Hroot'. inversion Hroot'; subst rootrec' rootkey'.
        rewrite (lookup_descend_locals _ _ result0 _ _ _ _ upath0) in Hd'.
        rewrite Hd in Hd'. discriminate.
    - destruct (lookup_hardlink vol rec1) as [[|] ?]; cbn -[lookup_descend cstr]; discriminate. }
  destruct Hsuffix as [Hc Hnot]. split; [done|].
  intros c' Hreach' rec k.
  destruct (ringbuffer_lookup_total c' path rec k (lookup_reachable_wf _ _ Hreach'))
    as [[[[|] rec'] k'] Hres].
  - exfalso.
    destruct (ringbuffer_lookup_hit _ _ _ _ _ _ Hres) as (i & node & Hi & Hq & _).
    eapply Hnot. by eapply lookup_reachable_stored.
  - by destruct (ringbuffer_lookup_miss _ _ _ _ _ _ Hres) as [-> ->].
Qed.

End LookupProperties.

Lemma hfs_lookup_cached_is_datafork_witness :
  ringbuffer_lookup fixture_cache (cstr "/a") (Rec_OTHER 0) blank_key
  = Some (true, mk_file 17 0 0 0,
          {| key_parent_cnid := 2; key_name := unistr (cstr "a") |})
  /\ fixture_lookup fixture_cache fixture_volume (cstr "/a") (Some HFS_RSRCFORK)
     = Some {| lr_ret := 0; lr_record := mk_file 17 0 0 0;
               lr_key := {| key_parent_cnid := 2; key_name := unistr (cstr "a") |};
               lr_fork := Some HFS_DATAFORK; lr_cache := fixture_cache |}.
Proof.
  split; [vm_compute; reflexivity|].
  apply (@hfs_lookup_cached_is_datafork utf8proc_fragment fixture_unicode fixture_libhfs
           0 empty_unistr fixture_cache fixture_volume (cstr "/a") (Rec_OTHER 0) blank_key
           (Some HFS_RSRCFORK)).
  vm_compute; reflexivity.
Defined.

(** C3 (counterexample). In [/gone/rsrc] the loop stops at the file [gone]
    with exactly [rsrc] left, and the flag is set; but [gone] is a hard link
    whose indirect node is missing, and the call fails with -6. *)
Lemma rsrc_suffix_on_dangling_link :
  fixture_descent fixture_volume (cstr "/gone/rsrc")
  = Some (Descent_done (mk_file 23 HFS_HARD_LINK_FILE_TYPE HFS_HFSPLUS_CREATOR 99)
                       {| key_parent_cnid := 2; key_name := unistr (cstr "gone") |}
                       (Some (cstr "rsrc")))
  /\ fixture_lookup ringbuffer_init fixture_volume (cstr "/gone/rsrc") (Some HFS_DATAFORK)
     = Some {| lr_ret := -6; lr_record := Rec_OTHER 0;
               lr_key := {| key_parent_cnid := 2; key_name := unistr (cstr "gone") |};
               lr_fork := Some HFS_RSRCFORK; lr_cache := ringbuffer_init |}.
Proof. split; vm_compute; reflexivity. Qed.

Lemma hfs_lookup_remainder_witness :
  ringbuffer_lookup ringbuffer_init (cstr "/a/rsrc") (Rec_OTHER 0) blank_key
  = Some (false, Rec_OTHER 0, blank_key)
  /\ fixture_find_with_cnid fixture_volume HFS_CNID_ROOT_FOLDER
     = (0, mk_folder 2, {| key_parent_cnid := 1; key_name := unistr (cstr "vol") |})
  /\ fixture_descent fixture_volume (cstr "/a/rsrc")
     = Some (Descent_done (mk_file 17 0 0 0)
                          {| key_parent_cnid := 2; key_name := unistr (cstr "a") |}
                          (Some (cstr "rsrc")))
  /\ exists r,
       fixture_lookup ringbuffer_init fixture_volume (cstr "/a/rsrc") (Some HFS_DATAFORK)
       = Some r
       /\ lr_cache r = ringbuffer_init
       /\ lr_fork r = Some HFS_RSRCFORK /\ lr_ret r = 0.
Proof.
  split; [vm_compute; reflexivity|]. split; [vm_compute; reflexivity|].
  split; [vm_compute; reflexivity|].
  destruct (@hfs_lookup_remainder utf8proc_fragment fixture_unicode fixture_libhfs
              0 empty_unistr ringbuffer_init fixture_volume (cstr "/a/rsrc")
              (Rec_OTHER 0) blank_key (Some HFS_DATAFORK)
              (mk_folder 2) {| key_parent_cnid := 1; key_name := unistr (cstr "vol") |}
              (mk_file 17 0 0 0) {| key_parent_cnid := 2; key_name := unistr (cstr "a") |}
              (cstr "rsrc"))
    as (r & Hr & Hc & Hf & Hret);
    [vm_compute; reflexivity | vm_compute; reflexivity | vm_compute; reflexivity |].
  exists r. split; [exact Hr|]. split; [exact Hc|]. split; [exact Hf | exact Hret].
Defined.

Lemma rsrc_resolutions_never_cached_witness :
  @lookup_reachable utf8proc_fragment fixture_unicode fixture_libhfs fixture_volume
    ringbuffer_init
  /\ fixture_lookup ringbuffer_init fixture_volume (cstr "/a/rsrc") (Some HFS_DATAFORK)
     = Some rsrc_lookup_result
  /\ lr_fork rsrc_lookup_result = Some HFS_RSRCFORK
  /\ lr_cache rsrc_lookup_result = ringbuffer_init
  /\ forall c',
       @lookup_reachable utf8proc_fragment fixture_unicode fixture_libhfs
         fixture_volume c' ->
       forall rec k,
         ringbuffer_lookup c' (cstr "/a/rsrc") rec k = Some (false, rec, k).
Proof.
  split; [apply reach_init|].
  split; [vm_compute; reflexivity|]. split; [reflexivity|].
  apply (@rsrc_resolutions_never_cached utf8proc_fragment fixture_unicode fixture_libhfs
           fixture_volume ringbuffer_init 0 empty_unistr (cstr "/a/rsrc")
           (Rec_OTHER 0) blank_key HFS_DATAFORK rsrc_lookup_result).
  - apply reach_init.
  - vm_compute; reflexivity.
  - reflexivity.
Defined.

(** ** hfs_serialize_finderinfo *)

Lemma swapcopy_loop_spec (src : list Z) (size : nat) :
  forall (n i : nat) (mem : list Z) (buf : nat),
    (buf + n <= length mem)%nat ->
    swapcopy_loop n i mem buf src size
    = (take buf mem ++ map (fun j => src !!! (size - j - 1)%nat) (seq i n)
         ++ drop (buf + n) mem, (buf + n)%nat).
Proof.
  induction n as [|n IH]; intros i mem buf Hlen; simpl.
  - rewrite Nat.add_0_r, take_drop. reflexivity.
  - rewrite IH by (rewrite length_insert; lia).
    f_equal; [|lia].
    rewrite (take_S_r _ _ (src !!! (size - i - 1)%nat))
      by (apply list_lookup_insert_eq; lia).
    rewrite take_insert_ge by lia. rewrite drop_insert_lt by lia.
    rewrite <- app_assoc. simpl. repeat f_equal. lia.
Qed.

Lemma object_bytes_reversed (size : nat) (v : Z) :
  map (fun j => object_bytes size v !!! (size - j - 1)%nat) (seq 0 size)
  = big_endian size v.
Proof.
  unfold big_endian. apply map_ext_in. intros j Hj. apply in_seq in Hj.
  apply list_lookup_total_correct. unfold object_bytes.
  rewrite list_lookup_fmap, lookup_seq_lt by lia. simpl.
  replace (size - 1 - j)%nat with (size - j - 1)%nat by lia. reflexivity.
Qed.

Lemma length_big_endian (size : nat) (v : Z) : length (big_endian size v) = size.
Proof. unfold big_endian. by rewrite length_map, length_seq. Qed.

(** One [SWAPCOPY] replaces the next [size] bytes by the big-endian encoding
    of the field and moves [buf] past them. *)
Lemma SWAPCOPY_spec (size : nat) (v : Z) (pre rest : list Z) :
  (size <= length rest)%nat ->
  SWAPCOPY size v (pre ++ rest, length pre)
  = ((pre ++ big_endian size v) ++ drop size rest, length (pre ++ big_endian size v)).
Proof.
  intros Hlen. unfold SWAPCOPY, swapcopy. simpl.
  rewrite swapcopy_loop_spec by (rewrite length_app; lia).
  rewrite object_bytes_reversed, take_app_length, drop_app_add', length_app,
    length_big_endian, <- app_assoc by done.
  reflexivity.
Qed.

Lemma length_folder_finderinfo_bytes folder :
  length (folder_finderinfo_bytes folder) = 32%nat.
Proof. reflexivity. Qed.

Lemma length_file_finderinfo_bytes file :
  length (file_finderinfo_bytes file) = 32%nat.
Proof. reflexivity. Qed.

Ltac swapcopy_step :=
  rewrite SWAPCOPY_spec by (rewrite ?length_drop; lia); rewrite ?drop_drop.

Lemma serialize_folder_at folder (pre rest : list Z) :
  (32 <= length rest)%nat ->
  hfs_serialize_finderinfo (Rec_FLDR folder) (pre ++ rest) (length pre)
  = (pre ++ folder_finderinfo_bytes folder ++ drop 32 rest, (length pre + 32)%nat).
Proof.
  intros Hrest. unfold hfs_serialize_finderinfo. cbv zeta.
  repeat swapcopy_step.
  rewrite !length_app, !length_big_endian.
  unfold folder_finderinfo_bytes. cbv zeta. rewrite <- !app_assoc.
  f_equal. lia.
Qed.

Lemma serialize_file_at file (pre rest : list Z) :
  (32 <= length rest)%nat ->
  hfs_serialize_finderinfo (Rec_FILE file) (pre ++ rest) (length pre)
  = (pre ++ file_finderinfo_bytes file ++ drop 32 rest, (length pre + 32)%nat).
Proof.
  intros Hrest. unfold hfs_serialize_finderinfo. cbv zeta.
  cbn [fold_left seq].
  repeat swapcopy_step.
  rewrite !length_app, !length_big_endian.
  unfold file_finderinfo_bytes. cbv zeta. rewrite <- !app_assoc.
  f_equal. lia.
Qed.

(** C8. With room for 32 bytes at [buf], [hfs_serialize_finderinfo] stores
    exactly the 32 bytes [buf[0..31]] and nothing else: for a folder record
    the big-endian encodings of window_bounds.t, .l, .b, .r, finder_flags,
    location.v, location.h, reserved (16 bits), scroll_position.v, .h,
    reserved (32 bits), extended_finder_flags, reserved2 and
    put_away_folder_cnid, in this order; for a file record those of the file
    layout in its declared order. *)
Theorem hfs_serialize_finderinfo_layout rec (mem : list Z) (buf : nat) :
  (buf + 32 <= length mem)%nat ->
  match rec with
  | Rec_FLDR folder =>
      length (folder_finderinfo_bytes folder) = 32%nat
      /\ hfs_serialize_finderinfo rec mem buf
         = (take buf mem ++ folder_finderinfo_bytes folder ++ drop (buf + 32) mem,
            (buf + 32)%nat)
  | Rec_FILE file =>
      length (file_finderinfo_bytes file) = 32%nat
      /\ hfs_serialize_finderinfo rec mem buf
         = (take buf mem ++ file_finderinfo_bytes file ++ drop (buf + 32) mem,
            (buf + 32)%nat)
  | Rec_OTHER _ => hfs_serialize_finderinfo rec mem buf = (mem, buf)
  end.
Proof.
  intros Hlen.
  assert (Hrest : (32 <= length (drop buf mem))%nat) by (rewrite length_drop; lia).
  assert (Hbuf : length (take buf mem) = buf) by (rewrite length_take; lia).
  destruct rec as [folder|file|ty]; [| |reflexivity]; split; try reflexivity.
  - pose proof (serialize_folder_at folder (take buf mem) (drop buf mem) Hrest) as E.
    by rewrite take_drop, Hbuf, drop_drop in E.
  - pose proof (serialize_file_at file (take buf mem) (drop buf mem) Hrest) as E.
    by rewrite take_drop, Hbuf, drop_drop in E.
Qed.

Lemma hfs_serialize_finderinfo_layout_witness :
  (0 + 32 <= length (replicate 32 0xAA))%nat
  /\ hfs_serialize_finderinfo
       (mk_file 17 HFS_HARD_LINK_FILE_TYPE HFS_HFSPLUS_CREATOR 21) (replicate 32 0xAA) 0
     = (cstr "hlnkhfs+" ++ replicate 24 0, 32%nat).
Proof.
  split; [vm_compute; lia|].
  destruct (hfs_serialize_finderinfo_layout
              (mk_file 17 HFS_HARD_LINK_FILE_TYPE HFS_HFSPLUS_CREATOR 21)
              (replicate 32 0xAA) 0) as [_ ->]; [vm_compute; lia|].
  vm_compute. reflexivity.
Defined.

(** ** hfs_read *)

Lemma length_write_at (data buf : list Z) (pos : nat) :
  length (write_at buf pos data) = length buf.
Proof.
  revert buf pos. induction data as [|x data IH]; intros buf pos; simpl; [done|].
  by rewrite IH, length_insert.
Qed.

Lemma lookup_write_at_outside (data buf : list Z) (pos i : nat) :
  (i < pos \/ pos + length data <= i)%nat ->
  write_at buf pos data !! i = buf !! i.
Proof.
  revert buf pos. induction data as [|x data IH]; intros buf pos Hi; simpl; [done|].
  simpl in Hi. rewrite IH by lia. apply list_lookup_insert_ne. lia.
Qed.

(** Within the buffer, [write_at] replaces [length data] bytes. *)
Lemma write_at_app (data pre old post : list Z) :
  length old = length data ->
  write_at (pre ++ old ++ post) (length pre) data = pre ++ data ++ post.
Proof.
  revert pre old. induction data as [|x data IH]; intros pre [|y old] Hlen;
    simpl in *; try done.
  rewrite insert_app_r_alt, Nat.sub_diag by lia. simpl.
  replace (S (length pre)) with (length (pre ++ [x])) by (rewrite length_app; simpl; lia).
  rewrite (cons_middle x pre), app_assoc, IH by lia.
  by rewrite <- app_assoc.
Qed.

Lemma write_at_take_drop (data mem : list Z) (pos : nat) :
  (pos + length data <= length mem)%nat ->
  write_at mem pos data = take pos mem ++ data ++ drop (pos + length data) mem.
Proof.
  intros Hlen.
  pose proof (write_at_app data (take pos mem) (take (length data) (drop pos mem))
                (drop (pos + length data) mem)) as E.
  rewrite (length_take_le mem pos) in E by lia.
  rewrite <- (drop_drop mem (length data) pos), !take_drop in E.
  rewrite <- drop_drop. apply E. rewrite length_take, length_drop. lia.
Qed.

Section ReadProperties.

Context `{Posix}.

Hypothesis pread_ok : pread_bounded.
Hypothesis min_ok : c_min_spec.

(** The loop returns; it stops only when the aligned part is complete or the
    call for what is still missing returned zero or a negative value; it
    advances [outbuf] by what it took off [length] and stores nothing outside
    the bytes [outbuf[0 .. length-1]]. *)
Lemma read_loop_spec dev :
  forall fuel st,
    0 <= rs_length st < 2 ^ 63 ->
    (Z.to_nat (rs_length st) < fuel)%nat ->
    exists st',
      read_loop fuel dev st = Some st'
      /\ 0 <= rs_length st' <= rs_length st
      /\ rs_outbuf st' = (rs_outbuf st + Z.to_nat (rs_length st - rs_length st'))%nat
      /\ (rs_length st' = 0
          \/ exists w data,
               pread w (fd dev) (rs_length st') (rs_offset st')
               = (rs_world st', rs_ret st', data)
               /\ rs_ret st' <= 0)
      /\ (rs_length st = 0 -> st' = st)
      /\ length (rs_mem st') = length (rs_mem st)
      /\ forall i,
           (i < rs_outbuf st \/ rs_outbuf st + Z.to_nat (rs_length st) <= i)%nat ->
           rs_mem st' !! i = rs_mem st !! i.
Proof.
  induction fuel as [|fuel IH]; intros st Hlen Hfuel; [lia|].
  simpl. destruct (Z.eqb_spec (rs_length st) 0) as [Hz|Hnz].
  { exists st. rewrite Hz. repeat split; try lia; auto. }
  destruct (pread (rs_world st) (fd dev) (rs_length st) (rs_offset st))
    as [[w ret] data] eqn:Hp.
  destruct (pread_ok _ _ _ _ _ _ _ (proj1 Hlen) Hp) as (Hret & Hssize & Hdata).
  destruct (Z.gtb_spec ret 0) as [Hpos|Hnonpos].
  - destruct (min_ok (rs_length st) ret) as [Hmin _]; [lia|lia|].
    rewrite Hmin by lia. rewrite Z.min_r by lia.
    destruct (Z.leb_spec ret 0) as [?|_]; [lia|].
    set (st1 := {| rs_world := w; rs_mem := write_at (rs_mem st) (rs_outbuf st) data;
                   rs_outbuf := (rs_outbuf st + Z.to_nat ret)%nat;
                   rs_length := u64 (rs_length st - ret);
                   rs_offset := u64 (rs_offset st + ret); rs_ret := ret |}).
    assert (Hl1 : rs_length st1 = rs_length st - ret).
    { unfold st1, u64. simpl. apply Z.mod_small. lia. }
    assert (2 ^ 63 < 2 ^ 64) by (vm_compute; reflexivity).
    destruct (IH st1) as (st' & Hloop & Hrange & Hout & Hstop & _ & Hmem & Hout_of);
      [lia | lia |].
    exists st'. split; [exact Hloop|]. split; [lia|]. split.
    { rewrite Hout, Hl1. unfold st1. simpl. lia. }
    split; [exact Hstop|]. split; [lia|]. split.
    { rewrite Hmem. unfold st1. simpl. apply length_write_at. }
    intros i Hi. rewrite Hout_of by (rewrite Hl1; unfold st1; simpl; lia).
    unfold st1. simpl. apply lookup_write_at_outside. lia.
  - exists {| rs_world := w; rs_mem := write_at (rs_mem st) (rs_outbuf st) data;
              rs_outbuf := rs_outbuf st; rs_length := rs_length st;
              rs_offset := rs_offset st; rs_ret := ret |}.
    simpl. split; [done|]. split; [lia|]. split; [rewrite Z.sub_diag; simpl; lia|].
    split; [right; exists (rs_world st), data; split; [done|lia]|].
    split; [lia|]. split; [apply length_write_at|].
    intros i Hi. apply lookup_write_at_outside. lia.
Qed.

(** The loop does what [retried_reads] says. *)
Lemma read_loop_retried dev :
  forall fuel st st',
    0 <= rs_length st < 2 ^ 63 ->
    read_loop fuel dev st = Some st' ->
    retried_reads dev st st'.
Proof.
  induction fuel as [|fuel IH]; intros st st' Hlen; [discriminate|].
  simpl. destruct (Z.eqb_spec (rs_length st) 0) as [Hz|Hnz].
  { intros [= <-]. by apply retried_complete. }
  destruct (pread (rs_world st) (fd dev) (rs_length st) (rs_offset st))
    as [[w ret] data] eqn:Hp.
  destruct (pread_ok _ _ _ _ _ _ _ (proj1 Hlen) Hp) as (Hret & Hssize & Hdata).
  destruct (Z.gtb_spec ret 0) as [Hpos|Hnonpos].
  - destruct (min_ok (rs_length st) ret) as [Hmin _]; [lia|lia|].
    rewrite Hmin by lia. rewrite Z.min_r by lia.
    destruct (Z.leb_spec ret 0) as [?|_]; [lia|].
    assert (2 ^ 63 < 2 ^ 64) by (vm_compute; reflexivity).
    replace (u64 (rs_length st - ret)) with (rs_length st - ret)
      by (symmetry; apply Z.mod_small; lia).
    intros Hloop. apply (retried_short dev st w ret data st' Hnz Hp); [lia|].
    apply IH; [simpl; lia|exact Hloop].
  - intros [= <-].
    assert (Hnil : data = []) by (apply length_zero_iff_nil; lia).
    rewrite Hnil. simpl. by apply (retried_end dev st w ret data).
Qed.

(** C5 (amended). [hfs_read] returns. The aligned part of the request,
    [length - length % blksize] bytes, is read by calls of [pread] that are
    repeated after each short read, each one for what is still missing, at the
    offset and into the place the calls before it have reached
    ([retried_reads]); they stop only when that part is complete or when a
    call returned zero or a negative value. A negative value makes [hfs_read]
    return [-errno] at once. Otherwise, when [length % blksize] is zero,
    [hfs_read] returns 0, also after a call that returned zero with bytes
    still missing. When it is not zero, one more [pread] of a whole block
    follows at the offset reached; if that call does not fail, [hfs_read]
    returns 0 and stores the first [length % blksize] bytes it gave, or all of
    them if they are fewer, where the aligned part ended; if it fails,
    [hfs_read] returns [-errno] and stores nothing, or (the [min] of the
    headers deciding) returns 0 and stores the block buffer as it was.
    Whatever the calls do, [hfs_read] stores only into the [length] bytes at
    [outbytes]. *)
Theorem hfs_read_retries_within_bounds w vol buf0 mem outbytes len offset :
  0 < blksize (cbdata vol) < 2 ^ 63 ->
  0 <= len < 2 ^ 63 ->
  length buf0 = Z.to_nat (blksize (cbdata vol)) ->
  let rem := len mod blksize (cbdata vol) in
  let st0 := {| rs_world := w; rs_mem := mem; rs_outbuf := outbytes;
                rs_length := len - rem; rs_offset := u64 (offset + vol_offset vol);
                rs_ret := 0 |} in
  exists st w' r mem',
    read_loop (S (Z.to_nat (len - rem))) (cbdata vol) st0 = Some st
    /\ hfs_read w vol buf0 mem outbytes len offset = Some (w', r, mem')
    /\ retried_reads (cbdata vol) st0 st
    /\ rs_outbuf st = (outbytes + Z.to_nat (len - rem - rs_length st))%nat
    /\ (rs_length st = 0
        \/ exists w1 data,
             pread w1 (fd (cbdata vol)) (rs_length st) (rs_offset st)
             = (rs_world st, rs_ret st, data)
             /\ rs_ret st <= 0)
    /\ (rs_ret st < 0 ->
        w' = rs_world st /\ r = - errno (rs_world st) /\ mem' = rs_mem st)
    /\ (0 <= rs_ret st -> rem = 0 ->
        w' = rs_world st /\ r = 0 /\ mem' = rs_mem st)
    /\ (0 <= rs_ret st -> rem <> 0 ->
        exists ret data,
          pread (rs_world st) (fd (cbdata vol)) (blksize (cbdata vol)) (rs_offset st)
          = (w', ret, data)
          /\ (0 <= ret ->
              r = 0
              /\ mem' = write_at (rs_mem st) (rs_outbuf st)
                          (take (Z.to_nat (Z.min rem ret)) data))
          /\ (ret < 0 ->
              (r = - errno w' /\ mem' = rs_mem st)
              \/ (r = 0
                  /\ mem' = write_at (rs_mem st) (rs_outbuf st)
                              (take (Z.to_nat rem) buf0))))
    /\ length mem' = length mem
    /\ forall i, (i < outbytes \/ outbytes + Z.to_nat len <= i)%nat ->
                 mem' !! i = mem !! i.
Proof.
  intros Hblk Hlen Hbuf0 rem st0.
  assert (Hrem : 0 <= rem < blksize (cbdata vol)) by (apply Z.mod_pos_bound; lia).
  assert (Hrem_le : rem <= len) by (apply Z.mod_le; lia).
  destruct (read_loop_spec (cbdata vol) (S (Z.to_nat (len - rem))) st0)
    as (st & Hloop & Hrange & Hout & Hstop & _ & Hmem & Hout_of);
    [simpl; lia | simpl; lia |].
  pose proof (read_loop_retried (cbdata vol) _ st0 st ltac:(simpl; lia) Hloop) as Hretried.
  simpl in Hrange, Hout, Hmem, Hout_of.
  assert (Hu : u64 (len - rem) = len - rem) by (apply Z.mod_small; lia).
  unfold hfs_read. fold rem. rewrite Hu. fold st0. rewrite Hloop. simpl.
  unfold read_tail.
  destruct (Z.ltb_spec (rs_ret st) 0) as [Hneg|Hnonneg].
  { exists st, (rs_world st), (- errno (rs_world st)), (rs_mem st).
    split; [done|]. split; [done|]. split; [done|]. split; [done|]. split; [done|].
    split; [done|]. split; [lia|]. split; [lia|]. split; [done|].
    intros i Hi. apply Hout_of. lia. }
  destruct (Z.eqb_spec rem 0) as [Hrem0|Hrem_nz]; simpl.
  { exists st, (rs_world st), 0, (rs_mem st).
    split; [done|]. split; [done|]. split; [done|]. split; [done|]. split; [done|].
    split; [lia|]. split; [done|]. split; [done|]. split; [done|].
    intros i Hi. apply Hout_of. lia. }
  destruct (pread (rs_world st) (fd (cbdata vol)) (blksize (cbdata vol)) (rs_offset st))
    as [[w1 ret] data] eqn:Hp.
  destruct (pread_ok _ _ (blksize (cbdata vol)) _ _ _ _ ltac:(lia) Hp)
    as (Hret_le & Hssize & Hdata).
  assert (Hm : c_min rem ret <= rem).
  { destruct (min_ok rem ret) as [Hge Hlt]; [lia|lia|].
    destruct (Z.le_gt_cases 0 ret) as [?|?]; [rewrite Hge by lia; lia|].
    destruct Hlt as [->| ->]; lia. }
  set (m := c_min rem ret) in *.
  assert (Em : m = c_min rem ret) by reflexivity.
  set (mem1 := if m >? 0
               then write_at (rs_mem st) (rs_outbuf st)
                             (take (Z.to_nat m) (write_at buf0 0 data))
               else rs_mem st).
  assert (Hmem1 : length mem1 = length mem
                  /\ forall i, (i < outbytes \/ outbytes + Z.to_nat len <= i)%nat ->
                               mem1 !! i = mem !! i).
  { unfold mem1. destruct (m >? 0).
    - split; [by rewrite length_write_at|].
      intros i Hi. rewrite lookup_write_at_outside; [apply Hout_of; lia|].
      rewrite length_take. lia.
    - split; [done|]. intros i Hi. apply Hout_of. lia. }
  destruct Hmem1 as [Hlen1 Hout1].
  exists st, w1, (if m <? 0 then - errno w1 else 0), mem1.
  split; [done|]. split; [by destruct (m <? 0)|]. split; [done|]. split; [done|].
  split; [done|]. split; [lia|]. split; [lia|]. split; [|by split].
  intros _ _. exists ret, data. split; [done|].
  destruct (min_ok rem ret) as [Hge Hlt]; [lia|lia|]. split.
  - intros Hret0. rewrite <- Em in Hge. specialize (Hge Hret0).
    destruct (Z.ltb_spec m 0) as [?|_]; [lia|]. split; [done|].
    unfold mem1. destruct (Z.gtb_spec m 0) as [Hmpos|Hm0].
    + rewrite (write_at_take_drop data buf0 0) by (simpl; lia).
      rewrite take_0. cbn [app]. rewrite take_app_le by lia. by rewrite Hge.
    + replace (Z.to_nat (Z.min rem ret)) with 0%nat by lia. by rewrite take_0.
  - intros Hret_neg. rewrite <- Em in Hlt.
    assert (Hnil : data = []) by (apply length_zero_iff_nil; lia).
    destruct (Hlt Hret_neg) as [Hm_ret|Hm_rem].
    + left. destruct (Z.ltb_spec m 0) as [_|?]; [|lia]. split; [done|].
      unfold mem1. by destruct (Z.gtb_spec m 0) as [?|_]; [lia|].
    + right. destruct (Z.ltb_spec m 0) as [?|_]; [lia|]. split; [done|].
      unfold mem1. destruct (Z.gtb_spec m 0) as [_|?]; [|lia].
      by rewrite Hnil, Hm_rem.
Qed.

(** C6 (amended). [hfs_read] adds [vol->offset] to the offset it is given. On
    a device that serves every request in full, and for a request that lies
    within the device, it returns 0 and the [length] bytes stored at
    [outbytes] are the bytes of the device at
    [vol->offset + offset, vol->offset + offset + length). *)
Theorem hfs_read_adds_volume_offset (good : world -> Prop) (content : list Z)
    w vol buf0 mem outbytes len offset :
  pread_complete good content ->
  good w ->
  0 < blksize (cbdata vol) ->
  length buf0 = Z.to_nat (blksize (cbdata vol)) ->
  0 <= len -> 0 <= offset -> 0 <= vol_offset vol ->
  offset + vol_offset vol + len <= Z.of_nat (length content) ->
  Z.of_nat (length content) < 2 ^ 63 ->
  (outbytes + Z.to_nat len <= length mem)%nat ->
  exists w',
    good w'
    /\ hfs_read w vol buf0 mem outbytes len offset
       = Some (w', 0,
               take outbytes mem
               ++ take (Z.to_nat len) (drop (Z.to_nat (offset + vol_offset vol)) content)
               ++ drop (outbytes + Z.to_nat len) mem).
Proof.
  intros Hcomplete Hgood Hblk Hbuf0 Hlen Hoff Hvoff Hin Hsize Hroom.
  set (blk := blksize (cbdata vol)) in *.
  set (base := offset + vol_offset vol) in *.
  set (rem := len mod blk).
  assert (Hrem : 0 <= rem < blk) by (apply Z.mod_pos_bound; lia).
  assert (Hrem_le : rem <= len) by (apply Z.mod_le; lia).
  set (aligned := len - rem).
  unfold hfs_read. fold blk base rem aligned.
  assert (Ha : aligned = len - rem) by reflexivity. clearbody aligned.
  assert (Hbase : base = offset + vol_offset vol) by reflexivity. clearbody base.
  clearbody rem.
  assert (H63 : 2 ^ 63 < 2 ^ 64) by (vm_compute; reflexivity).
  assert (Hub : u64 base = base) by (apply Z.mod_small; lia).
  assert (Hua : u64 aligned = aligned) by (apply Z.mod_small; lia).
  rewrite Hub, Hua.
  (* the loop: at most one call, which transfers the whole aligned part *)
  assert (Hloop : exists w1,
             good w1
             /\ read_loop (S (Z.to_nat aligned)) (cbdata vol)
                  {| rs_world := w; rs_mem := mem; rs_outbuf := outbytes;
                     rs_length := aligned; rs_offset := base; rs_ret := 0 |}
                = Some {| rs_world := w1;
                          rs_mem := take outbytes mem
                                    ++ take (Z.to_nat aligned) (drop (Z.to_nat base) content)
                                    ++ drop (outbytes + Z.to_nat aligned) mem;
                          rs_outbuf := (outbytes + Z.to_nat aligned)%nat;
                          rs_length := 0; rs_offset := base + aligned;
                          rs_ret := aligned |}).
  { destruct (Z.eq_dec aligned 0) as [Hz|Hnz].
    - exists w. split; [done|]. rewrite Hz. simpl.
      rewrite Nat.add_0_r, take_drop, Z.add_0_r. reflexivity.
    - destruct (Hcomplete w (fd (cbdata vol)) aligned base Hgood) as (w1 & Hgood1 & Hp);
        [lia | lia |].
      exists w1. split; [done|].
      destruct (Z.to_nat aligned) as [|n] eqn:Hn; [lia|].
      cbn [read_loop rs_length rs_world rs_offset rs_mem rs_outbuf].
      destruct (Z.eqb_spec aligned 0) as [?|_]; [done|].
      rewrite Hp. rewrite Z.min_l by (lia).
      destruct (Z.gtb_spec aligned 0) as [_|?]; [|lia].
      destruct (min_ok aligned aligned ltac:(lia) ltac:(lia)) as [Hmin _]. rewrite Hmin by lia.
      rewrite Z.min_id. destruct (Z.leb_spec aligned 0) as [?|_]; [lia|].
      rewrite Z.sub_diag. change (u64 0) with 0.
      replace (u64 (base + aligned)) with (base + aligned)
        by (symmetry; apply Z.mod_small; lia).
      cbn [read_loop rs_length]. simpl (0 =? 0). cbv iota.
      rewrite <- Hn. do 2 f_equal.
      rewrite write_at_take_drop; rewrite length_take, length_drop; [|lia].
      repeat f_equal; lia. }
  destruct Hloop as (w1 & Hgood1 & ->). cbn [mbind option_bind].
  unfold read_tail. cbn [rs_ret rs_world rs_mem rs_offset rs_outbuf].
  destruct (Z.ltb_spec aligned 0) as [?|_]; [lia|].
  destruct (Z.eqb_spec rem 0) as [Hrem0|Hrem_nz]; cbn [negb].
  { exists w1. split; [done|]. do 3 f_equal. all: repeat f_equal; lia. }
  destruct (Hcomplete w1 (fd (cbdata vol)) blk (base + aligned) Hgood1) as (w2 & Hgood2 & Hp);
    [lia | lia |].
  fold blk. rewrite Hp.
  set (ret := Z.min blk (Z.of_nat (length content) - (base + aligned))).
  assert (Hret : rem <= ret) by (unfold ret; lia).
  destruct (min_ok rem ret ltac:(lia) ltac:(unfold ret; lia)) as [Hmin _]. rewrite Hmin by lia.
  rewrite Z.min_l by lia.
  destruct (Z.gtb_spec rem 0) as [_|?]; [|lia].
  destruct (Z.ltb_spec rem 0) as [?|_]; [lia|].
  exists w2. split; [done|]. do 2 f_equal.
  set (data := take (Z.to_nat blk) (drop (Z.to_nat (base + aligned)) content)).
  assert (Hdata : (Z.to_nat rem <= length data)%nat).
  { unfold data. rewrite length_take, length_drop. lia. }
  assert (Hdata_le : (length data <= length buf0)%nat).
  { unfold data. rewrite length_take. lia. }
  rewrite (write_at_take_drop data buf0 0) by (simpl; lia).
  rewrite take_0. cbn [app]. rewrite take_app_le by lia.
  unfold data. rewrite take_take, Nat.min_l by lia.
  rewrite write_at_take_drop.
  2: { rewrite !length_app, length_take, !length_take, !length_drop.
       lia. }
  rewrite length_take, length_drop.
  replace (Z.to_nat rem `min` (length content - Z.to_nat (base + aligned)))%nat
    with (Z.to_nat rem) by (lia).
  assert (Hpre : length (take outbytes mem) = outbytes) by (rewrite length_take; lia).
  assert (Hmid : length (take (Z.to_nat aligned) (drop (Z.to_nat base) content))
                 = Z.to_nat aligned).
  { rewrite length_take, length_drop. lia. }
  rewrite take_app_ge by lia. rewrite Hpre, Nat.add_comm, Nat.add_sub.
  rewrite take_app_ge by lia. rewrite Hmid, Nat.sub_diag, take_0, app_nil_r.
  rewrite drop_app_ge by lia. rewrite Hpre.
  rewrite drop_app_ge by lia. rewrite Hmid, drop_drop.
  rewrite <- !app_assoc. f_equal. rewrite app_assoc. f_equal.
  - replace (Z.to_nat (base + aligned)) with (Z.to_nat base + Z.to_nat aligned)%nat
      by (lia).
    rewrite <- drop_drop, take_take_drop. f_equal. lia.
  - f_equal. lia.
Qed.

End ReadProperties.

(** The device of the examples keeps the promises of [pread]. *)
Lemma device_pread_bounded : @pread_bounded device_posix.
Proof.
  assert (H63 : 2 ^ 63 = 9223372036854775808) by reflexivity.
  intros w fd0 count offset w' ret data Hcount. simpl. unfold device_pread.
  rewrite H63.
  destruct (Z.ltb_spec offset 0); destruct (9223372036854775808 <=? offset); simpl;
    try (intros [= <- <- <-]; simpl; lia).
  destruct (script w) as [|[n|e] rest]; intros [= <- <- <-]; simpl;
    rewrite ?length_take, ?length_drop; lia.
Qed.

Lemma macro_min_spec : @c_min_spec device_posix.
Proof.
  assert (H63 : 2 ^ 63 = 9223372036854775808) by reflexivity.
  assert (H64 : 2 ^ 64 = 18446744073709551616) by reflexivity.
  intros a b Ha Hb. simpl. unfold macro_min. rewrite H63 in *. rewrite H64. split.
  - intros Hb0. rewrite Z.mod_small by lia.
    destruct (Z.ltb_spec a b);
      match goal with |- context [?x <? 9223372036854775808] =>
        destruct (Z.ltb_spec x 9223372036854775808) end; lia.
  - intros Hneg. right.
    replace (b mod 18446744073709551616) with (b + 18446744073709551616)
      by (apply Z.mod_unique with (q := -1); lia).
    destruct (Z.ltb_spec a (b + 18446744073709551616)); [|lia].
    destruct (Z.ltb_spec a 9223372036854775808); lia.
Qed.

Lemma device_pread_complete (content : list Z) :
  Z.of_nat (length content) < 2 ^ 63 ->
  @pread_complete device_posix (plain_device content) content.
Proof.
  assert (H63 : 2 ^ 63 = 9223372036854775808) by reflexivity.
  rewrite H63.
  intros Hsize w fd0 count offset [Hdisk Hscript] Hcount Hoff.
  exists w. split; [by split|]. simpl. unfold device_pread. rewrite H63.
  destruct (Z.ltb_spec offset 0); [lia|].
  destruct (Z.leb_spec 9223372036854775808 offset); [lia|]. simpl.
  rewrite Hscript, Hdisk. f_equal; [f_equal; lia|].
  set (l := drop (Z.to_nat offset) content).
  assert (Hl : Z.of_nat (length l) = Z.of_nat (length content) - offset)
    by (unfold l; rewrite length_drop; lia).
  destruct (Z.le_gt_cases count (Z.of_nat (length l))).
  - f_equal. lia.
  - rewrite !take_ge by lia. reflexivity.
Qed.

(** C5 (counterexample). The device is empty, so the first [pread] returns 0;
    [hfs_read] then returns 0, the value for success, although none of the 4
    bytes asked for was delivered. *)
Lemma hfs_read_end_of_device_is_no_error :
  device_pread (counting_device 0 []) 3 4 0 = (counting_device 0 [], 0, [])
  /\ @hfs_read device_posix (counting_device 0 []) (device_volume 0 4)
       (replicate 4 0) (replicate 4 0xAA) 0 4 0
     = Some (counting_device 0 [], 0, replicate 4 0xAA).
Proof. split; vm_compute; reflexivity. Qed.

Lemma hfs_read_retries_within_bounds_witness :
  @pread_bounded device_posix
  /\ @c_min_spec device_posix
  /\ 0 < blksize (cbdata (device_volume 0 4)) < 2 ^ 63
  /\ 0 <= 10 < 2 ^ 63
  /\ length (replicate 4 0) = Z.to_nat (blksize (cbdata (device_volume 0 4)))
  /\ @hfs_read device_posix (counting_device 16 [Transfer 1; Transfer 2])
       (device_volume 0 4) (replicate 4 0) (replicate 12 0xAA) 1 10 3
     = Some (counting_device 16 [], 0, [0xAA; 3; 4; 5; 6; 7; 8; 9; 10; 11; 12; 0xAA])
  /\ let st0 :=
       @Build_read_state device_posix (counting_device 16 [Transfer 1; Transfer 2])
         (replicate 12 0xAA) 1 (10 - 10 mod 4) (u64 (3 + 0)) 0 in
     exists st w' r mem',
       @read_loop device_posix (S (Z.to_nat (10 - 10 mod 4))) (cbdata (device_volume 0 4))
         st0 = Some st
       /\ @hfs_read device_posix (counting_device 16 [Transfer 1; Transfer 2])
            (device_volume 0 4) (replicate 4 0) (replicate 12 0xAA) 1 10 3
          = Some (w', r, mem')
       /\ @retried_reads device_posix (cbdata (device_volume 0 4)) st0 st
       /\ rs_outbuf st = (1 + Z.to_nat (10 - 10 mod 4 - rs_length st))%nat
       /\ (rs_length st = 0
           \/ exists w1 data,
                device_pread w1 3 (rs_length st) (rs_offset st)
                = (rs_world st, rs_ret st, data)
                /\ rs_ret st <= 0)
       /\ (rs_ret st < 0 ->
           w' = rs_world st /\ r = - dw_errno (rs_world st) /\ mem' = rs_mem st)
       /\ (0 <= rs_ret st -> 10 mod 4 = 0 ->
           w' = rs_world st /\ r = 0 /\ mem' = rs_mem st)
       /\ (0 <= rs_ret st -> 10 mod 4 <> 0 ->
           exists ret data,
             device_pread (rs_world st) 3 4 (rs_offset st) = (w', ret, data)
             /\ (0 <= ret ->
                 r = 0
                 /\ mem' = write_at (rs_mem st) (rs_outbuf st)
                             (take (Z.to_nat (Z.min (10 mod 4) ret)) data))
             /\ (ret < 0 ->
                 (r = - dw_errno w' /\ mem' = rs_mem st)
                 \/ (r = 0
                     /\ mem' = write_at (rs_mem st) (rs_outbuf st)
                                 (take (Z.to_nat (10 mod 4)) (replicate 4 0)))))
       /\ length mem' = length (replicate 12 0xAA)
       /\ forall i, (i < 1 \/ 1 + Z.to_nat 10 <= i)%nat ->
                    mem' !! i = replicate 12 0xAA !! i.
Proof.
  split; [exact device_pread_bounded|]. split; [exact macro_min_spec|].
  split; [vm_compute; split; reflexivity|]. split; [vm_compute; split; [discriminate|reflexivity]|].
  split; [vm_compute; reflexivity|].
  split; [vm_compute; reflexivity|].
  apply (@hfs_read_retries_within_bounds device_posix device_pread_bounded macro_min_spec
           (counting_device 16 [Transfer 1; Transfer 2]) (device_volume 0 4)
           (replicate 4 0) (replicate 12 0xAA) 1 10 3).
  - vm_compute; split; reflexivity.
  - vm_compute; split; [discriminate|reflexivity].
  - vm_compute; reflexivity.
Defined.

(** C6 (counterexample). The volume starts 2 bytes into a device that holds
    the bytes 0, 1, 2, ...; [hfs_read] of 6 bytes at offset 0 delivers the
    bytes 2 to 7 of the device, not the bytes 0 to 5 that lie at
    [offset, offset + length). *)
Lemma hfs_read_translates_offset :
  @hfs_read device_posix (counting_device 16 []) (device_volume 2 4)
    (replicate 4 0) (replicate 6 0xAA) 0 6 0
  = Some (counting_device 16 [], 0, [2; 3; 4; 5; 6; 7])
  /\ take 6 (drop 0 (disk (counting_device 16 []))) = [0; 1; 2; 3; 4; 5].
Proof. split; vm_compute; reflexivity. Qed.

Lemma hfs_read_adds_volume_offset_witness :
  @c_min_spec device_posix
  /\ @pread_complete device_posix (plain_device (map Z.of_nat (seq 0 16)))
       (map Z.of_nat (seq 0 16))
  /\ plain_device (map Z.of_nat (seq 0 16)) (counting_device 16 [])
  /\ 0 < blksize (cbdata (device_volume 2 4))
  /\ length (replicate 4 0) = Z.to_nat (blksize (cbdata (device_volume 2 4)))
  /\ 0 <= 6 /\ 0 <= 0 /\ 0 <= vol_offset (device_volume 2 4)
  /\ 0 + vol_offset (device_volume 2 4) + 6 <= Z.of_nat (length (map Z.of_nat (seq 0 16)))
  /\ Z.of_nat (length (map Z.of_nat (seq 0 16))) < 2 ^ 63
  /\ (0 + Z.to_nat 6 <= length (replicate 6 0xAA))%nat
  /\ exists w',
       plain_device (map Z.of_nat (seq 0 16)) w'
       /\ @hfs_read device_posix (counting_device 16 []) (device_volume 2 4)
            (replicate 4 0) (replicate 6 0xAA) 0 6 0
          = Some (w', 0,
                  take 0 (replicate 6 0xAA)
                  ++ take (Z.to_nat 6)
                          (drop (Z.to_nat (0 + vol_offset (device_volume 2 4)))
                                (map Z.of_nat (seq 0 16)))
                  ++ drop (0 + Z.to_nat 6) (replicate 6 0xAA)).
Proof.
  assert (Hsize : Z.of_nat (length (map Z.of_nat (seq 0 16))) < 2 ^ 63)
    by (vm_compute; reflexivity).
  split; [exact macro_min_spec|]. split; [exact (device_pread_complete _ Hsize)|].
  split; [split; reflexivity|]. split; [vm_compute; reflexivity|].
  split; [reflexivity|]. split; [lia|]. split; [lia|]. split; [vm_compute; discriminate|].
  split; [vm_compute; discriminate|]. split; [exact Hsize|]. split; [vm_compute; lia|].
  apply (@hfs_read_adds_volume_offset device_posix macro_min_spec
           (plain_device (map Z.of_nat (seq 0 16))) (map Z.of_nat (seq 0 16))
           (counting_device 16 []) (device_volume 2 4) (replicate 4 0)
           (replicate 6 0xAA) 0 6 0).
  - exact (device_pread_complete _ Hsize).
  - split; reflexivity.
  - vm_compute; reflexivity.
  - reflexivity.
  - lia.
  - lia.
  - vm_compute; discriminate.
  - vm_compute; discriminate.
  - exact Hsize.
  - vm_compute; lia.
Defined.

(** ** HFS+ NFD normalisation *)

Lemma HFSINRANGE_spec (c : Z) :
  HFSINRANGE c = true <-> in_hfs_decomposition_range c.
Proof.
  unfold HFSINRANGE, in_hfs_decomposition_range.
  rewrite !andb_true_iff, negb_true_iff, orb_false_iff, !andb_false_iff, !Z.leb_le,
    !Z.leb_gt.
  lia.
Qed.

Lemma size_t_wrap_nonneg (x : Z) : 0 <= size_t_wrap x.
Proof. unfold size_t_wrap. apply Z.mod_pos_bound. reflexivity. Qed.

Lemma length_swap_adjacent (buf : list Z) (i : nat) :
  length (swap_adjacent buf i) = length buf.
Proof. unfold swap_adjacent. by rewrite !length_insert. Qed.

Lemma lookup_swap_adjacent_ne (buf : list Z) (i j : nat) :
  j <> i -> j <> S i -> swap_adjacent buf i !! j = buf !! j.
Proof.
  intros Hi HSi. unfold swap_adjacent.
  rewrite list_lookup_insert_ne by done. by rewrite list_lookup_insert_ne.
Qed.

Section NfdProperties.

Context `{Utf8proc}.

Lemma keeps_outsiders_refl buf : keeps_outsiders buf buf.
Proof. by split. Qed.

Lemma keeps_outsiders_swap buf (i : nat) :
  HFSINRANGE (buf !!! i) = true -> HFSINRANGE (buf !!! S i) = true ->
  keeps_outsiders buf (swap_adjacent buf i).
Proof.
  intros Hi HSi. split; [apply length_swap_adjacent|].
  intros j c Hj Hc. rewrite lookup_swap_adjacent_ne; [done| |].
  - intros ->. rewrite (list_lookup_total_correct _ _ _ Hj) in Hi. congruence.
  - intros ->. rewrite (list_lookup_total_correct _ _ _ Hj) in HSi. congruence.
Qed.

Lemma keeps_outsiders_trans a b c :
  keeps_outsiders a b -> keeps_outsiders b c -> keeps_outsiders a c.
Proof.
  intros [Hl1 H1] [Hl2 H2]. split; [congruence|].
  intros j x Hj Hx. apply H2; [|done]. by apply H1.
Qed.

Lemma sort_loop_keeps_outsiders fuel : forall buf len i sorted,
  0 <= i ->
  sort_loop fuel buf len i = Some sorted -> keeps_outsiders buf sorted.
Proof.
  induction fuel as [|fuel IH]; intros buf len i sorted Hi; simpl; [discriminate|].
  destruct (i <? len - 1); [|intros [= <-]; apply keeps_outsiders_refl].
  replace (Z.to_nat (i + 1)) with (S (Z.to_nat i)) by lia.
  destruct (HFSINRANGE (buf !!! S (Z.to_nat i))) eqn:Hnext;
    [|rewrite andb_false_r; apply IH, size_t_wrap_nonneg].
  destruct (negb _); [apply IH, size_t_wrap_nonneg|].
  destruct (HFSINRANGE (buf !!! Z.to_nat i)) eqn:Hin; simpl;
    [|apply IH, size_t_wrap_nonneg].
  destruct (_ >? _); [|apply IH, size_t_wrap_nonneg].
  intros Hs. eapply keeps_outsiders_trans; [|eapply IH, Hs; apply size_t_wrap_nonneg].
  by apply keeps_outsiders_swap.
Qed.

Lemma sort_first_pair_keeps_outsiders buf : keeps_outsiders buf (sort_first_pair buf).
Proof.
  unfold sort_first_pair.
  destruct (HFSINRANGE (buf !!! 0%nat)) eqn:H0; [|apply keeps_outsiders_refl].
  destruct (HFSINRANGE (buf !!! 1%nat)) eqn:H1; [|apply keeps_outsiders_refl].
  destruct (_ && _); [|apply keeps_outsiders_refl].
  by apply keeps_outsiders_swap.
Qed.

Lemma sort_combining_characters_keeps_outsiders buf len sorted :
  sort_combining_characters buf len = Some sorted -> keeps_outsiders buf sorted.
Proof.
  unfold sort_combining_characters.
  destruct (len <=? 1); [intros [= <-]; apply keeps_outsiders_refl|].
  intros Hs. eapply keeps_outsiders_trans; [apply sort_first_pair_keeps_outsiders|].
  eapply sort_loop_keeps_outsiders, Hs. lia.
Qed.

(** The second loop stores the decompositions of the codepoints it goes
    through, one after the other. *)
Lemma nfd_fill_spec fuel : forall u8 buf,
  (length u8 < fuel)%nat ->
  nfd_fill fuel u8 buf
  = Some (buf ++ concat (map hfs_decompose (iterated_codepoints fuel u8))).
Proof.
  induction fuel as [|fuel IH]; intros u8 buf Hfuel; [lia|].
  destruct u8 as [|x u8]; simpl; [by rewrite app_nil_r|].
  destruct (utf8proc_iterate (x :: u8)) as [result codepoint].
  destruct (Z.gtb_spec result 0) as [Hpos|_]; [|by rewrite app_nil_r].
  assert (Hdrop : (length (drop (Z.to_nat result) (x :: u8)) < fuel)%nat).
  { rewrite length_drop. simpl in *. lia. }
  simpl. unfold hfs_decompose at 1.
  destruct (HFSINRANGE codepoint); rewrite IH by done; by rewrite <- app_assoc.
Qed.

(** When the first loop leaves a [len] that is not zero, it is the number of
    codepoints the second loop will store. *)
Lemma nfd_count_len fuel : forall it result len r l,
  nfd_count fuel it result len = Some (r, l) ->
  l <> 0 ->
  l = len + Z.of_nat (length (concat (map hfs_decompose (iterated_codepoints fuel it)))).
Proof.
  induction fuel as [|fuel IH]; intros it result len r l; simpl; [discriminate|].
  destruct it as [|x it]; [intros [= <- <-] _; simpl; lia|].
  destruct (utf8proc_iterate (x :: it)) as [result' codepoint].
  destruct (result' >? 0); [|intros [= <- <-] _; simpl; lia].
  simpl. unfold hfs_decompose at 1. rewrite length_app.
  destruct (HFSINRANGE codepoint).
  - destruct (_ >? 0); [|intros [= <- <-]; done].
    intros Hc Hl. rewrite (IH _ _ _ _ _ Hc Hl). lia.
  - intros Hc Hl. rewrite (IH _ _ _ _ _ Hc Hl). simpl. lia.
Qed.

(** *** Termination of the reordering pass *)

Lemma length_filter_swap (P : Z -> Prop) `{!forall x, Decision (P x)}
    (l1 l2 : list Z) (a b : Z) :
  length (filter P (l1 ++ a :: b :: l2)) = length (filter P (l1 ++ b :: a :: l2)).
Proof.
  rewrite !filter_app, !length_app, !filter_cons.
  destruct (decide (P a)), (decide (P b)); simpl; lia.
Qed.

(** Exchanging two neighbours that are out of order removes one inversion. *)
Lemma inversions_swap (l1 l2 : list Z) (a b : Z) :
  combining_class a > combining_class b ->
  (inversions (l1 ++ b :: a :: l2) + 1 = inversions (l1 ++ a :: b :: l2))%nat.
Proof.
  intros Hgt. induction l1 as [|x l1 IH]; simpl.
  - rewrite !filter_cons.
    destruct (decide (combining_class a < combining_class b)); [lia|].
    destruct (decide (combining_class b < combining_class a)); [|lia].
    simpl. lia.
  - rewrite (length_filter_swap _ l1 l2 a b). lia.
Qed.

Lemma inversions_bound (l : list Z) :
  (2 * inversions l + length l <= length l * length l)%nat.
Proof.
  induction l as [|x l IH]; simpl; [lia|].
  pose proof (length_filter (fun y => combining_class y < combining_class x) l).
  nia.
Qed.

Lemma swap_adjacent_middle (l1 l2 : list Z) (a b : Z) :
  swap_adjacent (l1 ++ a :: b :: l2) (length l1) = l1 ++ b :: a :: l2.
Proof.
  unfold swap_adjacent.
  rewrite (list_lookup_total_middle l1 (b :: l2) a (length l1)) by done.
  replace (S (length l1)) with (length (l1 ++ [a])) by (rewrite length_app; simpl; lia).
  rewrite (cons_middle a l1 (b :: l2)), app_assoc.
  rewrite (list_lookup_total_middle (l1 ++ [a]) l2 b _) by done.
  rewrite <- app_assoc. simpl.
  rewrite insert_app_r_alt, Nat.sub_diag by lia. simpl.
  rewrite length_app. simpl.
  rewrite insert_app_r_alt by lia.
  replace (length l1 + 1 - length l1)%nat with 1%nat by lia. reflexivity.
Qed.

Lemma inversions_swap_adjacent (buf : list Z) (i : nat) :
  (S i < length buf)%nat ->
  combining_class (buf !!! i) > combining_class (buf !!! S i) ->
  (inversions (swap_adjacent buf i) + 1 = inversions buf)%nat.
Proof.
  intros Hlen Hgt.
  destruct (lookup_lt_is_Some_2 buf i ltac:(lia)) as [a Ha].
  destruct (lookup_lt_is_Some_2 buf (S i) ltac:(lia)) as [b Hb].
  rewrite (list_lookup_total_correct _ _ _ Ha), (list_lookup_total_correct _ _ _ Hb) in Hgt.
  assert (Hsplit : exists l1 l2, buf = l1 ++ a :: b :: l2 /\ length l1 = i).
  { exists (take i buf), (drop (S (S i)) buf). split; [|rewrite length_take; lia].
    rewrite <- (take_drop_middle buf (S i) b Hb) at 1.
    rewrite (take_S_r buf i a Ha), <- app_assoc. reflexivity. }
  destruct Hsplit as (l1 & l2 & -> & <-).
  rewrite swap_adjacent_middle. by apply inversions_swap.
Qed.

(** The loop returns: every exchange removes an inversion, every other step
    moves [i] forward. *)
Lemma sort_loop_total fuel : forall buf i,
  Z.of_nat (length buf) < 2 ^ 64 ->
  0 <= i ->
  (2 * inversions buf + Z.to_nat (Z.of_nat (length buf) - i) < fuel)%nat ->
  exists sorted, sort_loop fuel buf (Z.of_nat (length buf)) i = Some sorted.
Proof.
  induction fuel as [|fuel IH]; intros buf i Hsize Hi Hfuel; [lia|].
  simpl. destruct (Z.ltb_spec i (Z.of_nat (length buf) - 1)) as [Hlt|_]; [|eauto].
  assert (Hw1 : size_t_wrap (i + 1) = i + 1) by (apply Z.mod_small; lia).
  assert (Hw2 : size_t_wrap (i + 2) = i + 2) by (apply Z.mod_small; lia).
  replace (Z.to_nat (i + 1)) with (S (Z.to_nat i)) by lia.
  destruct (negb _); [rewrite Hw2; apply IH; lia|].
  destruct (HFSINRANGE (buf !!! Z.to_nat i)); simpl; [|rewrite Hw1; apply IH; lia].
  destruct (Z.gtb_spec (combining_class (buf !!! Z.to_nat i))
                       (combining_class (buf !!! S (Z.to_nat i)))) as [Hgt|_];
    [|rewrite Hw1; apply IH; lia].
  pose proof (inversions_swap_adjacent buf (Z.to_nat i) ltac:(lia) ltac:(lia)) as Hinv.
  pose proof (size_t_wrap_nonneg (i - 1)) as Hw.
  assert (Hwrap : Z.of_nat (length buf) - size_t_wrap (i - 1)
                  <= Z.of_nat (length buf) - i + 1).
  { destruct (Z.eq_dec i 0) as [->|].
    - change (size_t_wrap (0 - 1)) with (2 ^ 64 - 1). lia.
    - unfold size_t_wrap. rewrite Z.mod_small by lia. lia. }
  rewrite <- (length_swap_adjacent buf (Z.to_nat i)).
  apply IH; rewrite ?length_swap_adjacent; lia.
Qed.

Lemma length_sort_first_pair buf : length (sort_first_pair buf) = length buf.
Proof.
  unfold sort_first_pair. destruct (_ && _); [apply length_swap_adjacent|done].
Qed.

(** [sort_combining_characters] returns. *)
Lemma sort_combining_characters_total buf :
  Z.of_nat (length buf) < 2 ^ 64 ->
  exists sorted, sort_combining_characters buf (Z.of_nat (length buf)) = Some sorted.
Proof.
  intros Hsize. unfold sort_combining_characters.
  destruct (Z.leb_spec (Z.of_nat (length buf)) 1); [eauto|].
  pose proof (sort_loop_total (sort_fuel (Z.to_nat (Z.of_nat (length buf))))
                (sort_first_pair buf) 1) as Ht.
  rewrite length_sort_first_pair in Ht. apply Ht; [done|lia|].
  pose proof (inversions_bound (sort_first_pair buf)) as Hb.
  rewrite length_sort_first_pair in Hb. unfold sort_fuel. rewrite Nat2Z.id. lia.
Qed.

Lemma nfd_count_total fuel : forall it result len,
  (length it < fuel)%nat -> exists r, nfd_count fuel it result len = Some r.
Proof.
  induction fuel as [|fuel IH]; intros it result len Hfuel; [lia|].
  destruct it as [|x it]; simpl; [eauto|].
  destruct (utf8proc_iterate (x :: it)) as [result' codepoint].
  destruct (Z.gtb_spec result' 0) as [Hpos|_]; [|eauto].
  assert (Hdrop : (length (drop (Z.to_nat result') (x :: it)) < fuel)%nat).
  { rewrite length_drop. simpl in *. lia. }
  destruct (HFSINRANGE codepoint); [|by apply IH].
  destruct (_ >? 0); [by apply IH|eauto].
Qed.

(** [hfs_utf8proc_NFD] returns, as long as the number of codepoints to store
    fits a [size_t]. *)
Lemma hfs_utf8proc_NFD_total result0 u8 :
  Z.of_nat (length (concat (map hfs_decompose
                                (iterated_codepoints (S (length u8)) u8)))) < 2 ^ 64 ->
  exists r, hfs_utf8proc_NFD result0 u8 = Some r.
Proof.
  intros Hsize. unfold hfs_utf8proc_NFD.
  destruct (nfd_count_total (S (length u8)) u8 result0 0) as [[result len] Hcount]; [lia|].
  rewrite Hcount. cbn [mbind option_bind].
  destruct (Z.ltb_spec result 0); cbn [orb]; [eauto|].
  destruct (Z.eqb_spec len 0) as [|Hlen]; [eauto|].
  rewrite nfd_fill_spec by lia. cbn [mbind option_bind app].
  rewrite (nfd_count_len _ _ _ _ _ _ Hcount Hlen), Z.add_0_l.
  destruct (sort_combining_characters_total _ Hsize) as [sorted ->].
  cbn [mbind option_bind]. eauto.
Qed.

(** On a string that [utf8proc_iterate] accepts to its end and whose
    codepoints all have a decomposition, the first loop ends with the
    [result] of its last step and with the number of codepoints the second
    loop will store. *)
Lemma nfd_count_accepted fuel : forall it result len,
  iterates_to_end fuel it = true ->
  Forall (fun c => hfs_decompose c <> []) (iterated_codepoints fuel it) ->
  exists r,
    nfd_count fuel it result len
    = Some (r, len + Z.of_nat (length (concat (map hfs_decompose
                                                   (iterated_codepoints fuel it)))))
    /\ (0 < result \/ it <> [] -> 0 < r)
    /\ (it <> [] ->
        (0 < length (concat (map hfs_decompose (iterated_codepoints fuel it))))%nat).
Proof.
  induction fuel as [|fuel IH]; intros it result len; simpl; [discriminate|].
  destruct it as [|x it].
  { intros _ _. exists result. simpl. rewrite Z.add_0_r.
    split; [done|]. split; [intros [?|?]; [lia|done]|done]. }
  destruct (utf8proc_iterate (x :: it)) as [result' codepoint].
  destruct (Z.gtb_spec result' 0) as [Hpos|_]; [|discriminate].
  cbn [andb]. intros Hend Hdec. apply Forall_cons in Hdec as [Hc Hdec].
  assert (Hct : (0 < length (hfs_decompose codepoint))%nat)
    by (destruct (hfs_decompose codepoint); [done|simpl; lia]).
  destruct (IH (drop (Z.to_nat result') (x :: it)) result'
               (len + Z.of_nat (length (hfs_decompose codepoint))) Hend Hdec)
    as (r & Hcount & Hr & _).
  exists r. cbn [map concat]. rewrite length_app, Nat2Z.inj_add, Z.add_assoc.
  split; [|split; [intros _; apply Hr; lia|intros _; lia]].
  destruct (HFSINRANGE codepoint) eqn:Hin.
  - assert (Hd : hfs_decompose codepoint = utf8proc_decompose_char codepoint)
      by (unfold hfs_decompose; by rewrite Hin).
    rewrite Hd in Hcount, Hct |- *.
    destruct (Z.gtb_spec (Z.of_nat (length (utf8proc_decompose_char codepoint))) 0);
      [exact Hcount|lia].
  - assert (Hd : hfs_decompose codepoint = [codepoint])
      by (unfold hfs_decompose; by rewrite Hin).
    rewrite Hd in Hcount |- *. exact Hcount.
Qed.

(** C1. [HFSINRANGE] is the decomposition range of the specification. When
    [hfs_utf8proc_NFD] returns a string, the codepoints it re-encodes are those
    of the input with each codepoint inside the range replaced by its full
    canonical decomposition and each codepoint outside it (every codepoint
    above U+FFFF among them) left as it is, after the reordering pass; and
    that pass leaves every codepoint outside the range at the place it had.
    It does return that string for every string that is not empty, that
    [utf8proc_iterate] accepts to its end and whose codepoints inside the
    range all have a decomposition, as long as the number of codepoints to
    store fits a [size_t]. *)
Theorem hfs_nfd_decomposes_in_range_only result0 u8 :
  let buf := concat (map hfs_decompose (iterated_codepoints (S (length u8)) u8)) in
  (forall c, HFSINRANGE c = true <-> in_hfs_decomposition_range c)
  /\ (forall out,
        hfs_utf8proc_NFD result0 u8 = Some (Some out) ->
        exists sorted,
          sort_combining_characters buf (Z.of_nat (length buf)) = Some sorted
          /\ out = utf8proc_reencode sorted
          /\ keeps_outsiders buf sorted)
  /\ (u8 <> [] ->
      iterates_to_end (S (length u8)) u8 = true ->
      Forall (fun c => hfs_decompose c <> []) (iterated_codepoints (S (length u8)) u8) ->
      Z.of_nat (length buf) < 2 ^ 64 ->
      exists sorted,
        sort_combining_characters buf (Z.of_nat (length buf)) = Some sorted
        /\ hfs_utf8proc_NFD result0 u8 = Some (Some (utf8proc_reencode sorted))
        /\ keeps_outsiders buf sorted).
Proof.
  intros buf. split; [apply HFSINRANGE_spec|]. split.
  - intros out. unfold hfs_utf8proc_NFD.
    destruct (nfd_count _ _ _ _) as [[result len]|] eqn:Hcount; cbn [mbind option_bind];
      [|done].
    destruct (Z.ltb_spec result 0); cbn [orb]; [done|].
    destruct (Z.eqb_spec len 0) as [|Hlen]; [done|].
    rewrite nfd_fill_spec by lia. cbn [mbind option_bind app].
    rewrite (nfd_count_len _ _ _ _ _ _ Hcount Hlen), Z.add_0_l. fold buf.
    destruct (sort_combining_characters _ _) as [sorted|] eqn:Hsort;
      cbn [mbind option_bind]; [|done].
    intros [= <-]. exists sorted. split; [done|]. split; [done|].
    by eapply sort_combining_characters_keeps_outsiders.
  - intros Hne Hend Hdec Hsize.
    destruct (nfd_count_accepted (S (length u8)) u8 result0 0 Hend Hdec)
      as (r & Hcount & Hr & Hlen).
    fold buf in Hcount, Hlen. rewrite Z.add_0_l in Hcount.
    specialize (Hr (or_intror Hne)). specialize (Hlen Hne).
    destruct (sort_combining_characters_total buf Hsize) as [sorted Hsort].
    exists sorted. split; [done|]. split.
    + unfold hfs_utf8proc_NFD. rewrite Hcount. cbn [mbind option_bind].
      destruct (Z.ltb_spec r 0) as [?|_]; [lia|]. cbn [orb].
      destruct (Z.eqb_spec (Z.of_nat (length buf)) 0) as [?|_]; [lia|].
      rewrite nfd_fill_spec by lia. cbn [mbind option_bind app]. fold buf.
      rewrite Hsort. reflexivity.
    + by eapply sort_combining_characters_keeps_outsiders.
Qed.

End NfdProperties.

(** The examples of the specification: a precomposed e with acute is
    decomposed; U+F900, which has a canonical decomposition but lies in an
    excluded range, and U+1D15E, which has one but lies above U+FFFF, are
    passed through. *)
Example hfs_nfd_examples :
  hfs_nfd (cstr "caf" ++ [0xC3; 0xA9]) = Some (Some (cstr "cafe" ++ [0xCC; 0x81]))
  /\ hfs_nfd [0xEF; 0xA4; 0x80] = Some (Some [0xEF; 0xA4; 0x80])
  /\ hfs_nfd [0xF0; 0x9D; 0x85; 0x9E] = Some (Some [0xF0; 0x9D; 0x85; 0x9E]).
Proof. repeat split; vm_compute; reflexivity. Qed.

Lemma hfs_nfd_decomposes_in_range_only_witness :
  cstr "caf" ++ [0xC3; 0xA9] <> []
  /\ @iterates_to_end utf8proc_fragment (S (length (cstr "caf" ++ [0xC3; 0xA9])))
       (cstr "caf" ++ [0xC3; 0xA9]) = true
  /\ @iterated_codepoints utf8proc_fragment (S (length (cstr "caf" ++ [0xC3; 0xA9])))
       (cstr "caf" ++ [0xC3; 0xA9]) = [0x63; 0x61; 0x66; 0xE9]
  /\ Forall (fun c => @hfs_decompose utf8proc_fragment c <> [])
       (@iterated_codepoints utf8proc_fragment (S (length (cstr "caf" ++ [0xC3; 0xA9])))
          (cstr "caf" ++ [0xC3; 0xA9]))
  /\ @hfs_utf8proc_NFD utf8proc_fragment 0 (cstr "caf" ++ [0xC3; 0xA9])
     = Some (Some (cstr "cafe" ++ [0xCC; 0x81]))
  /\ exists sorted,
       @sort_combining_characters utf8proc_fragment
         (concat (map (@hfs_decompose utf8proc_fragment)
                    (@iterated_codepoints utf8proc_fragment
                       (S (length (cstr "caf" ++ [0xC3; 0xA9])))
                       (cstr "caf" ++ [0xC3; 0xA9]))))
         (Z.of_nat (length (concat (map (@hfs_decompose utf8proc_fragment)
                    (@iterated_codepoints utf8proc_fragment
                       (S (length (cstr "caf" ++ [0xC3; 0xA9])))
                       (cstr "caf" ++ [0xC3; 0xA9]))))))
       = Some sorted
       /\ @hfs_utf8proc_NFD utf8proc_fragment 0 (cstr "caf" ++ [0xC3; 0xA9])
          = Some (Some (@utf8proc_reencode utf8proc_fragment sorted))
       /\ keeps_outsiders
            (concat (map (@hfs_decompose utf8proc_fragment)
                       (@iterated_codepoints utf8proc_fragment
                          (S (length (cstr "caf" ++ [0xC3; 0xA9])))
                          (cstr "caf" ++ [0xC3; 0xA9]))))
            sorted.
Proof.
  assert (Hne : cstr "caf" ++ [0xC3; 0xA9] <> []) by (vm_compute; discriminate).
  assert (Hend : @iterates_to_end utf8proc_fragment
                   (S (length (cstr "caf" ++ [0xC3; 0xA9])))
                   (cstr "caf" ++ [0xC3; 0xA9]) = true) by (vm_compute; reflexivity).
  assert (Hcps : @iterated_codepoints utf8proc_fragment
                   (S (length (cstr "caf" ++ [0xC3; 0xA9])))
                   (cstr "caf" ++ [0xC3; 0xA9]) = [0x63; 0x61; 0x66; 0xE9])
    by (vm_compute; reflexivity).
  assert (Hdec : Forall (fun c => @hfs_decompose utf8proc_fragment c <> [])
                   (@iterated_codepoints utf8proc_fragment
                      (S (length (cstr "caf" ++ [0xC3; 0xA9])))
                      (cstr "caf" ++ [0xC3; 0xA9]))).
  { rewrite Hcps. repeat constructor; vm_compute; discriminate. }
  split; [exact Hne|]. split; [exact Hend|]. split; [exact Hcps|]. split; [exact Hdec|].
  split; [vm_compute; reflexivity|].
  apply (proj2 (proj2 (@hfs_nfd_decomposes_in_range_only utf8proc_fragment 0
                         (cstr "caf" ++ [0xC3; 0xA9]))) Hne Hend Hdec).
  vm_compute. reflexivity.
Defined.

(** C9 (evaluation of the code against the claim). The string is U+0301
    U+0323 U+0327 U+0328: four combining marks of classes 230, 220, 202, 202,
    none of which decomposes. The pass exchanges the first two marks, then the
    second and third, steps back to [i == 0] and exchanges there as well;
    [i--] then wraps around, [i < len - 1] fails and the loop ends with the
    last mark never looked at. The result, U+0327 U+0323 U+0301 U+0328
    (classes 202, 220, 230, 202), is not in canonical order, and normalising
    it again gives a different string. *)
Theorem hfs_nfd_not_idempotent :
  hfs_nfd [0xCC; 0x81; 0xCC; 0xA3; 0xCC; 0xA7; 0xCC; 0xA8]
  = Some (Some [0xCC; 0xA7; 0xCC; 0xA3; 0xCC; 0x81; 0xCC; 0xA8])
  /\ hfs_nfd [0xCC; 0xA7; 0xCC; 0xA3; 0xCC; 0x81; 0xCC; 0xA8]
     = Some (Some [0xCC; 0xA7; 0xCC; 0xA8; 0xCC; 0xA3; 0xCC; 0x81]).
Proof. split; vm_compute; reflexivity. Qed.

(** ** The round trip between hfs_lookup and hfs_get_path *)

Lemma strchr_none (c : cstring) (d : Z) :
  Forall (fun b => b <> d) c -> strchr c d = None.
Proof.
  induction 1 as [|x c Hx _ IH]; simpl; [done|].
  destruct (Z.eqb_spec x d); [done|]. by rewrite IH.
Qed.

Lemma strchr_first (c rest : cstring) (d : Z) :
  Forall (fun b => b <> d) c -> strchr (c ++ d :: rest) d = Some (length c).
Proof.
  induction 1 as [|x c Hx _ IH]; simpl; [by rewrite Z.eqb_refl|].
  destruct (Z.eqb_spec x d); [done|]. by rewrite IH.
Qed.

(** [strsep] takes the first element off the rest of the path. *)
Lemma strsep_rest_of_path (c : cstring) (cs : list cstring) :
  Forall (fun b => b <> 47) c ->
  strsep (rest_of_path (c :: cs)) 47 = (Some c, rest_of_path cs).
Proof.
  intros Hc. unfold strsep. simpl. destruct cs as [|c2 cs]; simpl.
  - rewrite app_nil_r, strchr_none by done. reflexivity.
  - rewrite strchr_first by done.
    rewrite take_app_length.
    rewrite (cons_middle 47 c), app_assoc,
      drop_app_length' by (rewrite length_app; simpl; lia).
    reflexivity.
Qed.

Lemma unistr_eta (u : hfs_unistr255_t) :
  {| us_length := us_length u; us_unicode := us_unicode u |} = u.
Proof. by destruct u. Qed.

Section RoundTrip.

Context `{Utf8proc} `{UnicodeLib} `{Libhfs}.

(** [RET] in the loop is never [RET(0)]. *)
Lemma lookup_descend_RET fuel : forall result0 vol rec k upath sp val rec' k',
  lookup_descend fuel result0 vol rec k upath sp = Some (Descent_RET val rec' k') ->
  val <> 0.
Proof.
  induction fuel as [|fuel IH]; intros result0 vol rec k upath sp val rec' k'; simpl;
    [discriminate|].
  destruct rec as [folder| |]; try discriminate.
  destruct (strsep sp 47) as [[[|x pelem]|] sp']; try discriminate.
  destruct (hfs_pathname_from_unix _ _ _) as [[r up]|]; simpl; [|discriminate].
  destruct (r <? 0); [intros [= <- _ _]; lia|].
  destruct (hfslib_make_catalog_key _ _ _) as [made k1].
  destruct (made =? 0); [intros [= <- _ _]; lia|].
  destruct (hfslib_find_catalog_record_with_key vol k1) as [ret rec1].
  destruct (Z.eqb_spec ret 0) as [->|Hret]; simpl; [|by intros [= <- _ _]].
  destruct rec1 as [|f|]; try apply IH.
  destruct (is_dir_hard_link f); [|apply IH].
  destruct (hfslib_get_directory_hardlink _ _) as [e rec2].
  destruct (negb (e =? 0)); [intros [= <- _ _]; lia|apply IH].
Qed.

(** A call that returns 0 and leaves [HFS_DATAFORK] resolved its path
    plainly, be it from the cache or not. *)
Lemma hfs_lookup_resolves vol c result0 upath0 path rec0 k0 v r :
  lookup_reachable vol c ->
  hfs_lookup result0 upath0 c vol path rec0 k0 (Some v) = Some r ->
  lr_ret r = 0 -> lr_fork r = Some HFS_DATAFORK ->
  resolves_plain vol path (lr_record r).
Proof.
  intros Hreach Hr Hret Hfork. revert Hr. unfold hfs_lookup.
  destruct (ringbuffer_lookup c path rec0 k0) as [[[[|] rec] k]|] eqn:Hl;
    cbn -[lookup_descend cstr]; try discriminate.
  { intros [= <-]. simpl.
    destruct (ringbuffer_lookup_hit _ _ _ _ _ _ Hl) as (i & node & Hi & Hq & <- & _).
    by eapply lookup_reachable_stored. }
  destruct (hfslib_find_catalog_record_with_cnid vol HFS_CNID_ROOT_FOLDER)
    as [[e rootrec] rootkey] eqn:Hroot.
  destruct (Z.eqb_spec e 0) as [->|]; cbn -[lookup_descend cstr];
    [|intros [= <-]; cbn in Hret; lia].
  destruct (lookup_descend (S (length path)) result0 vol rootrec rootkey upath0 _)
    as [[val rec1 k1|rec1 k1 sp]|] eqn:Hd; cbn -[lookup_descend cstr]; try discriminate.
  { intros [= <-]. cbn in Hret. apply lookup_descend_RET in Hd. lia. }
  intros [= <-]. revert Hret Hfork. unfold lookup_finish, lookup_suffix.
  destruct sp as [rest|].
  - destruct (_ || _); cbn; [lia|].
    destruct (lookup_hardlink vol rec1) as [[|] ?]; cbn; [lia|discriminate].
  - destruct (lookup_hardlink vol rec1) as [[|] rec2] eqn:Hlink; cbn; [lia|].
    intros _ _. exists rootrec, rootkey, rec1, k1. split; [done|]. split; [|done].
    rewrite <- Hd. apply lookup_descend_locals.
Qed.

(** What [hfs_pathname_from_unix] stores for an element that it accepts is
    [unix_to_hfs] of the element. *)
Lemma hfs_pathname_from_unix_accepts result0 x c upath r u :
  hfs_pathname_from_unix result0 (x :: c) upath = Some (r, u) ->
  (r <? 0) = false ->
  unix_to_hfs (x :: c) = Some u.
Proof.
  unfold unix_to_hfs, hfs_pathname_from_unix.
  rewrite (hfs_utf8proc_NFD_result0 result0 0).
  destruct (hfs_utf8proc_NFD 0 (x :: c)) as [[norm|]|]; simpl; try discriminate.
  - destruct (utf8_to_utf16 _) as [[n units] err]. simpl.
    intros [= <- <-] ->. reflexivity.
  - intros [= <- <-]. discriminate.
Qed.

Section Walk.

Variable same : hfs_unistr255_t -> hfs_unistr255_t -> Prop.
Variable vol : hfs_volume.
Hypothesis catalog_ok : catalog_mirrors same vol.

(** Down the catalog: when the loop uses up the elements, the names made of
    them were the keys of a chain of records from the current folder to the
    record reached, each found under the CNID of the one before, and the
    thread records of the chain bear the [same] names. *)
Lemma lookup_descend_walk : forall comps fuel result0 cur k upath prefix rec k',
  (length comps < fuel)%nat ->
  Forall path_element comps ->
  thread_chain vol prefix (rec_cnid cur) ->
  rec_cnid cur <> 0 -> rec_cnid cur <> 1 ->
  no_file_link cur ->
  lookup_descend fuel result0 vol cur k upath (rest_of_path comps)
  = Some (Descent_done rec k' None) ->
  exists names,
    Forall2 (fun c n => exists u, unix_to_hfs c = Some u /\ same u n) comps names
    /\ thread_chain vol (prefix ++ names) (rec_cnid rec)
    /\ no_file_link rec.
Proof.
  destruct catalog_ok as (_ & Hkey & Hfound).
  induction comps as [|c cs IH];
    intros [|fuel] result0 cur k upath prefix rec k' Hfuel Helems Hchain Hcur Hcur1 Hlink;
    simpl in Hfuel; try lia.
  - simpl. intros Hd. exists []. rewrite app_nil_r.
    assert (rec = cur) as ->; [|by repeat split].
    destruct cur; simpl in Hd; by inversion Hd.
  - apply Forall_cons in Helems as [[Hne Hslash] Helems].
    cbn [lookup_descend]. destruct cur as [folder|f|ty]; [|discriminate..].
    rewrite strsep_rest_of_path by done.
    destruct c as [|x c]; [done|].
    destruct (hfs_pathname_from_unix result0 (x :: c) upath) as [[r u]|] eqn:Hfrom;
      cbn [mbind option_bind]; [|discriminate].
    destruct (r <? 0) eqn:Hr; [discriminate|].
    destruct (hfslib_make_catalog_key _ _ _) as [made k1] eqn:Hmake.
    destruct (Z.eqb_spec made 0) as [|Hmade]; [discriminate|].
    destruct (hfslib_find_catalog_record_with_key vol k1) as [ret rec1] eqn:Hfind.
    destruct (Z.eqb_spec ret 0) as [->|]; cbn [negb]; [|discriminate].
    apply Hkey in Hmake; [|done]. rewrite unistr_eta in Hmake. subst k1.
    destruct (Hfound _ _ Hfind Hcur1)
      as (Hnr & Hn0 & Hn1 & (t & Hthread & Hname) & Hnolink).
    cbn [key_parent_cnid key_name] in Hthread, Hname.
    assert (Hnext : lookup_descend fuel result0 vol rec1
                      {| key_parent_cnid := folder_cnid folder; key_name := u |}
                      u (rest_of_path cs) = Some (Descent_done rec k' None) ->
                    exists names,
                      Forall2 (fun c n => exists u, unix_to_hfs c = Some u /\ same u n)
                        ((x :: c) :: cs) names
                      /\ thread_chain vol (prefix ++ names) (rec_cnid rec)
                      /\ no_file_link rec).
    { intros Hd.
      destruct (IH fuel result0 rec1 {| key_parent_cnid := folder_cnid folder; key_name := u |}
                  u (prefix ++ [thread_name t]) rec k') as
        (names & Hnames & Hch & Hl); try done; [lia| | |].
      - eapply chain_child; eauto.
      - destruct rec1; [done| |done]. by destruct Hnolink.
      - exists (thread_name t :: names). split; [|split]; try done.
        + constructor; [|done]. exists u. split; [|done].
          eapply hfs_pathname_from_unix_accepts; eauto.
        + by rewrite <- app_assoc in Hch. }
    destruct rec1 as [d|f|ty]; try exact Hnext.
    destruct Hnolink as [-> _]. exact Hnext.
Qed.

End Walk.

Lemma names_len_app names n :
  names_len (names ++ [n]) = names_len names + (us_length n + 1).
Proof. induction names as [|m names IH]; simpl; [lia|]. rewrite IH. lia. Qed.

(** Up the catalog: the first loop of [hfs_get_path] collects the names of
    the chain, last name first, and adds up their lengths. *)
Lemma get_path_elements_chain vol names cnid :
  thread_chain vol names cnid ->
  forall extra acc len,
    get_path_elements (S (length names) + extra) vol cnid acc len
    = Some (Some (acc ++ rev names, len + names_len names)).
Proof.
  induction 1 as [|names parent cnid t _ IH Hthread Hcnid Hparent]; intros extra acc len.
  - simpl. by rewrite app_nil_r, Z.add_0_r.
  - rewrite length_app. simpl length.
    replace (S (length names + 1) + extra)%nat with (S (S (length names) + extra)) by lia.
    cbn [get_path_elements].
    destruct (Z.eqb_spec cnid HFS_CNID_ROOT_FOLDER); [done|].
    rewrite Hthread. destruct (Z.eqb_spec parent 0); [done|].
    rewrite IH, rev_app_distr, names_len_app, <- app_assoc. simpl.
    do 3 f_equal. lia.
Qed.

Lemma until_nul_app (s rest : list Z) :
  Forall (fun b => b <> 0) s -> until_nul (s ++ 0 :: rest) = s.
Proof.
  induction 1 as [|x s Hx _ IH]; simpl; [done|].
  destruct (Z.eqb_spec x 0); [done|]. by rewrite IH.
Qed.

Lemma replace_in_cstring_app (c d : Z) (s rest : list Z) :
  Forall (fun b => b <> 0) s ->
  replace_in_cstring c d (s ++ 0 :: rest)
  = map (fun x => if x =? c then d else x) s ++ 0 :: rest.
Proof.
  induction 1 as [|x s Hx _ IH]; simpl; [done|].
  destruct (Z.eqb_spec x 0); [done|]. by rewrite IH.
Qed.

(** The path element of a plain name: its UTF-8 bytes with [/] made [:]. *)
Lemma hfs_pathname_to_unix_plain n :
  plain_name n ->
  exists s,
    Z.of_nat (length s) = us_length n
    /\ Forall (fun b => b <> 0) s
    /\ hfs_to_unix n = s
    /\ forall pre rest,
         (length s < length rest)%nat ->
         hfs_pathname_to_unix n (pre ++ rest) (length pre)
         = (us_length n, pre ++ s ++ 0 :: drop (S (length s)) rest).
Proof.
  intros (bytes & Hconv & Hlen & Hsmall & Hnz).
  set (s := map (fun x => if x =? 47 then 58 else x) bytes).
  assert (Hs : length s = length bytes) by apply length_map.
  assert (Hsnz : Forall (fun b => b <> 0) s).
  { unfold s. rewrite Forall_fmap. eapply Forall_impl; [exact Hnz|].
    intros x Hx. simpl. destruct (x =? 47); [done|exact Hx]. }
  assert (Hwrite : forall pre rest,
             (length s < length rest)%nat ->
             hfs_pathname_to_unix n (pre ++ rest) (length pre)
             = (us_length n, pre ++ s ++ 0 :: drop (S (length s)) rest)).
  { intros pre rest Hroom. unfold hfs_pathname_to_unix, hfs_unistr_to_utf8.
    rewrite Hconv. simpl (0 =? 0). cbv iota.
    rewrite write_at_take_drop by (rewrite length_app; lia).
    rewrite take_app_length, drop_app_add'  by done.
    replace (length pre + Z.to_nat (us_length n))%nat
      with (length (pre ++ bytes) + 0)%nat by (rewrite length_app; lia).
    rewrite app_assoc, insert_app_r.
    assert (Hdrop : <[0%nat := 0]> (drop (length bytes) rest)
                    = 0 :: drop (S (length bytes)) rest).
    { destruct (drop (length bytes) rest) as [|y tl] eqn:Hd.
      - apply (f_equal length) in Hd. rewrite length_drop in Hd. simpl in Hd. lia.
      - simpl. f_equal.
        replace (S (length bytes)) with (length bytes + 1)%nat by lia.
        by rewrite <- drop_drop, Hd. }
    rewrite Hdrop, <- app_assoc.
    rewrite take_app_length, drop_app_length.
    rewrite replace_in_cstring_app by done. fold s. rewrite Hs.
    destruct (us_length n >? 0) eqn:Hpos; [done|].
    assert (bytes = []) as -> by (destruct bytes; [done|simpl in *; lia]).
    reflexivity. }
  exists s. split; [lia|]. split; [done|]. split; [|exact Hwrite].
  unfold hfs_to_unix.
  pose proof (Hwrite [] (replicate 512 0)) as E.
  rewrite length_replicate in E.
  change ([] ++ replicate 512 0) with (replicate 512 0) in E.
  change (length (@nil Z)) with 0%nat in E.
  rewrite E by lia. cbn [snd app]. unfold cstring_at. rewrite drop_0.
  by apply until_nul_app.
Qed.

(** The second loop of [hfs_get_path] writes each plain name, as a path
    element, followed by [/]. *)
Lemma get_path_write_plain : forall names pre rest,
  Forall plain_name names ->
  (Z.to_nat (names_len names) <= length rest)%nat ->
  get_path_write names (pre ++ rest) (length pre)
  = (pre ++ concat (map (fun n => hfs_to_unix n ++ [47]) names)
         ++ drop (Z.to_nat (names_len names)) rest,
     (length pre + Z.to_nat (names_len names))%nat).
Proof.
  induction names as [|n names IH]; intros pre rest Hplain Hroom.
  - simpl. by rewrite Nat.add_0_r.
  - apply Forall_cons in Hplain as [Hn Hplain].
    destruct (hfs_pathname_to_unix_plain n Hn) as (s & Hlen & Hnz & Hs & Hwrite).
    assert (Hnames : 0 <= names_len names).
    { clear -Hplain. induction Hplain as [|m ms (b & _ & Hb & _) _ IH]; simpl; lia. }
    simpl in Hroom. cbn [get_path_write].
    rewrite Hwrite by lia.
    replace (length pre + Z.to_nat (us_length n))%nat
      with (length (pre ++ s) + 0)%nat by (rewrite length_app; lia).
    rewrite app_assoc, insert_app_r. simpl.
    replace (S (length (pre ++ s) + 0)) with (length ((pre ++ s) ++ [47]))
      by (rewrite !length_app; simpl; lia).
    rewrite (cons_middle 47 (pre ++ s)), app_assoc.
    rewrite IH by (try done; rewrite length_drop; lia).
    rewrite drop_drop, Hs, !length_app. simpl. f_equal; [|lia].
    rewrite <- !app_assoc. simpl.
    replace (Z.to_nat (us_length n + 1 + names_len names))
      with (S (length s + Z.to_nat (names_len names))) by lia.
    reflexivity.
Qed.

Lemma concat_elements (ss : list cstring) :
  ss <> [] ->
  47 :: concat (map (fun s => s ++ [47]) ss) = unix_path ss ++ [47].
Proof.
  intros Hne. destruct ss as [|s0 ss]; [done|]. clear Hne. simpl.
  f_equal. revert s0. induction ss as [|s1 ss IH]; intros s0; simpl.
  - by rewrite !app_nil_r.
  - rewrite <- !app_assoc. f_equal. simpl. f_equal.
    rewrite <- IH, <- app_assoc. reflexivity.
Qed.

Lemma unix_path_nonzero (ss : list cstring) :
  Forall (Forall (fun b => b <> 0)) ss -> Forall (fun b => b <> 0) (unix_path ss).
Proof.
  intros Hss. destruct ss as [|s0 ss]; [by repeat constructor|].
  unfold unix_path. induction Hss as [|s ss' Hs _ IH]; simpl; [done|].
  constructor; [done|]. by apply Forall_app.
Qed.

(** [hfs_get_path] along a chain of plain names. *)
Lemma hfs_get_path_chain vol names cnid :
  thread_chain vol names cnid ->
  Forall plain_name names ->
  hfs_get_path (S (length names)) vol cnid
  = Some (Some (unix_path (map hfs_to_unix names))).
Proof.
  intros Hchain Hplain. unfold hfs_get_path.
  pose proof (get_path_elements_chain vol names cnid Hchain 0 [] 0) as Hel.
  rewrite Nat.add_0_r in Hel. rewrite Hel. cbn [mbind option_bind app].
  rewrite Z.add_0_l, rev_involutive.
  destruct names as [|n names].
  { reflexivity. }
  assert (Hlen : 0 < names_len (n :: names)).
  { apply Forall_cons in Hplain as [(b & _ & Hb & _) Hrest]. simpl.
    assert (0 <= names_len names); [|lia].
    clear -Hrest. induction Hrest as [|m ms (b & _ & Hb & _) _ IH]; simpl; lia. }
  destruct (Z.eqb_spec (names_len (n :: names)) 0); [lia|].
  set (len := names_len (n :: names)) in *.
  change (<[0%nat := 47]> (replicate (S (Z.to_nat len)) 0))
    with ([47] ++ replicate (Z.to_nat len) 0).
  change 1%nat with (length [47]).
  rewrite get_path_write_plain by (try done; rewrite length_replicate; lia).
  rewrite (drop_ge (replicate _ _)) by (rewrite length_replicate; lia).
  rewrite app_nil_r. cbn [app].
  assert (Hne : map hfs_to_unix (n :: names) <> []) by done.
  pose proof (concat_elements (map hfs_to_unix (n :: names)) Hne) as Hcat.
  rewrite map_map in Hcat. rewrite Hcat.
  assert (Hsize : length (unix_path (map hfs_to_unix (n :: names))) = Z.to_nat len).
  { assert (Hc := f_equal length Hcat). rewrite length_app in Hc. cbn [length] in Hc.
    assert (Hsum : forall ns, Forall plain_name ns ->
              Z.of_nat (length (concat (map (fun x => hfs_to_unix x ++ [47]) ns)))
              = names_len ns).
    { clear. induction 1 as [|m ns Hm _ IH]; simpl; [done|].
      destruct (hfs_pathname_to_unix_plain m Hm) as (s & Hl & _ & -> & _).
      rewrite !length_app. simpl. lia. }
    specialize (Hsum _ Hplain). fold len in Hsum. lia. }
  rewrite <- Hsize.
  replace (length (unix_path (map hfs_to_unix (n :: names))))
    with (length (unix_path (map hfs_to_unix (n :: names))) + 0)%nat by lia.
  rewrite insert_app_r. change (<[0%nat := 0]> [47]) with [0].
  unfold cstring_at. rewrite drop_0.
  rewrite until_nul_app; [done|].
  apply unix_path_nonzero. rewrite Forall_fmap.
  eapply Forall_impl; [exact Hplain|]. intros m Hm. simpl.
  by destruct (hfs_pathname_to_unix_plain m Hm) as (s & _ & Hnz & -> & _).
Qed.

Lemma length_unix_path (comps : list cstring) :
  (length comps <= length (unix_path comps))%nat.
Proof.
  destruct comps as [|c cs]; [simpl; lia|].
  unfold unix_path. generalize (c :: cs). clear.
  induction l as [|x l IH]; simpl; [lia|]. rewrite length_app. lia.
Qed.

Lemma lookup_hardlink_no_link vol rec :
  no_file_link rec -> lookup_hardlink vol rec = (false, rec).
Proof. destruct rec as [|f|]; simpl; try done. by intros ->. Qed.

(** A path of elements that resolves plainly on a catalog that mirrors its
    keys leads to a record from which the thread records lead back through
    names that are the [same] as the names made of the elements. *)
Lemma resolves_plain_chain same vol comps rec :
  catalog_mirrors same vol -> Forall path_element comps ->
  resolves_plain vol (unix_path comps) rec ->
  exists names,
    Forall2 (fun c n => exists u, unix_to_hfs c = Some u /\ same u n) comps names
    /\ thread_chain vol names (rec_cnid rec).
Proof.
  intros Hcat Hcomps (rootrec & rootkey & rec1 & k & Hroot & Hd & Hlink).
  pose proof Hcat as ((rootd & rootkey' & Hroot' & Hcnid) & _).
  rewrite Hroot in Hroot'. injection Hroot' as -> _.
  destruct comps as [|c cs].
  - simpl in Hd. injection Hd as <- _. simpl in Hlink. injection Hlink as <-.
    exists []. split; [constructor|]. simpl. rewrite Hcnid. constructor.
  - assert (Hrest : Some (drop 1 (unix_path (c :: cs))) = rest_of_path (c :: cs))
      by reflexivity.
    rewrite Hrest in Hd.
    destruct (lookup_descend_walk same vol Hcat (c :: cs)
                (S (length (unix_path (c :: cs)))) 0 (Rec_FLDR rootd) rootkey
                empty_unistr [] rec1 k) as (names & Hnames & Hchain & Hnl);
      try done.
    + pose proof (length_unix_path (c :: cs)). lia.
    + simpl. rewrite Hcnid. constructor.
    + simpl. rewrite Hcnid. done.
    + simpl. rewrite Hcnid. done.
    + rewrite lookup_hardlink_no_link in Hlink by done. injection Hlink as <-.
      by exists names.
Qed.


End RoundTrip.

(** ** The round trip on the fixtures *)

Lemma key_eqb_eq (a b : hfs_catalog_key_t) : key_eqb a b = true -> a = b.
Proof.
  destruct a as [pa [la ua]], b as [pb [lb ub]]. unfold key_eqb, unistr_eqb, Z_list_eqb.
  simpl. rewrite !andb_true_iff, !Z.eqb_eq, bool_decide_eq_true.
  by intros (-> & -> & ->).
Qed.

(** [names_volume] mirrors its keys exactly for the fixture libraries. *)
Lemma names_volume_catalog : @catalog_mirrors fixture_libhfs eq names_volume.
Proof.
  split; [|split].
  - eexists _, _. split; vm_compute; reflexivity.
  - intros cnid len units made k. simpl. unfold fixture_make_catalog_key.
    by intros [= _ <-] _.
  - intros k rec. simpl. unfold fixture_find_with_key.
    cbn -[key_eqb].
    repeat match goal with
    | |- context [key_eqb ?a k] =>
        let E := fresh "E" in
        destruct (key_eqb a k) eqn:E;
        [apply key_eqb_eq in E; subst k; try discriminate|]
    end; try discriminate.
    all: intros [= <-] Hparent; try (exfalso; apply Hparent; reflexivity).
    all: repeat split; try discriminate; try reflexivity.
    all: eexists; split; vm_compute; reflexivity.
Qed.

Lemma key_folded_eqb_same (a b : hfs_catalog_key_t) :
  key_folded_eqb a b = true ->
  key_parent_cnid a = key_parent_cnid b /\ folded_same (key_name b) (key_name a).
Proof.
  unfold key_folded_eqb, unistr_folded_eqb, Z_list_eqb, folded_same.
  rewrite !andb_true_iff, !Z.eqb_eq, bool_decide_eq_true.
  by intros (-> & -> & ->).
Qed.

(** [plain_volume], read as a case-insensitive volume, mirrors its keys up to
    the folding of case. *)
Lemma plain_volume_folding_catalog : @catalog_mirrors folding_libhfs folded_same plain_volume.
Proof.
  split; [|split].
  - eexists _, _. split; vm_compute; reflexivity.
  - intros cnid len units made k. simpl. unfold fixture_make_catalog_key.
    by intros [= _ <-] _.
  - intros k rec. simpl. unfold folding_find_with_key.
    cbn -[key_folded_eqb].
    repeat match goal with
    | |- context [key_folded_eqb ?a k] =>
        let E := fresh "E" in
        destruct (key_folded_eqb a k) eqn:E;
        [apply key_folded_eqb_same in E as [Ep Es]; cbn [key_parent_cnid key_name] in Ep, Es;
         try discriminate|]
    end; try discriminate.
    all: intros [= <-] Hparent; try (exfalso; apply Hparent; by rewrite <- Ep).
    all: rewrite <- Ep.
    all: repeat split; try discriminate; try reflexivity.
    all: eexists; split; [vm_compute; reflexivity|exact Es].
Qed.



(** The length of a name in [hfs_get_path] is its count of UTF-16 code units,
    used as a count of bytes: [/b/caf] + U+00E9 resolves to the file whose
    name normalises to [cafe] + U+0301 (six bytes of UTF-8, five code units),
    and the path returned for it ends in the middle of the last character. *)
Lemma hfs_get_path_counts_code_units :
  (fun r => (lr_ret r, rec_cnid (lr_record r), lr_fork r))
    <$> fixture_lookup ringbuffer_init fixture_volume (cstr "/b/caf" ++ [0xC3; 0xA9])
          (Some HFS_DATAFORK)
  = Some (0, 18, Some HFS_DATAFORK)
  /\ @normalized utf8proc_fragment fixture_unicode (cstr "caf" ++ [0xC3; 0xA9])
     = Some (cstr "cafe" ++ [0xCC; 0x81])
  /\ fixture_get_path fixture_volume 18 = Some (Some (cstr "/b/cafe" ++ [0xCC])).
Proof. repeat split; vm_compute; reflexivity. Qed.

(** A trailing [/] is read as an empty last element: [/b/] resolves to the
    folder [b], whose path is [/b]. *)
Lemma hfs_lookup_trailing_slash :
  (fun r => (lr_ret r, rec_cnid (lr_record r), lr_fork r))
    <$> fixture_lookup ringbuffer_init fixture_volume (cstr "/b/") (Some HFS_DATAFORK)
  = Some (0, 16, Some HFS_DATAFORK)
  /\ fixture_get_path fixture_volume 16 = Some (Some (cstr "/b")).
Proof. split; vm_compute; reflexivity. Qed.

(** ** The record cache as its callers see it *)

Lemma ring_index (n hd j : nat) :
  (hd < n)%nat -> (j < n)%nat ->
  ((hd + j) mod n = if (hd + j <? n)%nat then hd + j else hd + j - n)%nat.
Proof.
  intros Hhd Hj. destruct (Nat.ltb_spec (hd + j) n) as [Hlt|Hge].
  - by apply Nat.mod_small.
  - replace (hd + j)%nat with ((hd + j - n) + 1 * n)%nat at 1 by lia.
    rewrite Nat.Div0.mod_add. apply Nat.mod_small. lia.
Qed.

Lemma strcmp_decide (q p : cstring) : (strcmp q p =? 0) = bool_decide (q = p).
Proof.
  destruct (Z.eqb_spec (strcmp q p) 0) as [Heq|Hne].
  - apply strcmp_eq in Heq. by rewrite bool_decide_eq_true_2.
  - rewrite bool_decide_eq_false_2; [done|]. intros ->. by rewrite strcmp_refl in Hne.
Qed.

(** The loop of [ringbuffer_lookup] is the walk [scan_entries]. *)
Lemma ringbuffer_lookup_loop_scan c hd l p :
  ring_holds c l -> head c = Some hd ->
  forall fuel j, (fuel + j = length (heap c))%nat -> (j < length (heap c))%nat ->
    ringbuffer_lookup_loop fuel (heap c) hd ((hd + j) mod length (heap c))%nat p
    = Some (scan_entries (drop j l) p).
Proof.
  intros (hd' & Hhd' & Hwf & Hlen & Hfields) Hhd.
  rewrite Hhd in Hhd'. injection Hhd' as <-.
  unfold ring_wf in Hwf. rewrite Hhd in Hwf. destruct Hwf as [Hlt Hlinks].
  set (n := length (heap c)) in *.
  induction fuel as [|fuel IH]; intros j Hsum Hj; [lia|].
  simpl. pose proof (Hfields j Hj) as Hf.
  destruct (heap c !! ((hd + j) mod n)%nat) as [node|] eqn:Hnode.
  2:{ apply lookup_ge_None in Hnode. pose proof (Nat.mod_upper_bound (hd + j) n). lia. }
  simpl in Hf. symmetry in Hf.
  rewrite (drop_S _ _ _ Hf). unfold node_fields. simpl.
  destruct (path node) as [q|]; [|done].
  rewrite strcmp_decide. destruct (bool_decide (q = p)); [done|].
  destruct (Hlinks _ _ Hnode) as [Hnext _]. fold n in Hnext. rewrite Hnext.
  assert (Hstep : (S ((hd + j) mod n) mod n = (hd + S j) mod n)%nat).
  { replace (S ((hd + j) mod n)) with ((hd + j) mod n + 1)%nat by lia.
    rewrite Nat.Div0.add_mod_idemp_l. f_equal. lia. }
  rewrite Hstep.
  destruct (Nat.eqb_spec ((hd + S j) mod n) hd) as [Heq|Hne].
  - destruct (decide (S j = n)) as [Hlast|Hmore]; [by rewrite drop_ge by lia|].
    exfalso. rewrite (ring_index n hd (S j)) in Heq by lia.
    destruct (Nat.ltb_spec (hd + S j) n); lia.
  - apply IH; [lia|].
    destruct (decide (S j = n)) as [Hlast|Hmore]; [|lia].
    exfalso. apply Hne. rewrite Hlast.
    replace (hd + n)%nat with (hd + 1 * n)%nat by lia.
    rewrite Nat.Div0.mod_add. apply Nat.mod_small. lia.
Qed.

Lemma ringbuffer_init_holds :
  ring_holds ringbuffer_init (replicate 1025 (None, Rec_OTHER 0, blank_key)).
Proof.
  exists 0%nat. split; [reflexivity|]. split; [apply ringbuffer_init_wf|].
  rewrite ringbuffer_init_heap, length_map, length_seq, length_replicate.
  split; [done|]. intros j Hj. rewrite Nat.add_0_l, Nat.mod_small by done.
  change (map ?f ?l) with (f <$> l).
  rewrite list_lookup_fmap, lookup_seq_lt by done.
  by rewrite lookup_replicate_2.
Qed.

(** [ringbuffer_add] puts its entry in front of the others and drops the
    last one. *)
Lemma ringbuffer_add_holds c l p r k :
  ring_holds c l ->
  ring_holds (ringbuffer_add c p r k) ((Some p, r, k) :: take (length l - 1) l).
Proof.
  intros (hd & Hhd & Hwf & Hlen & Hfields).
  pose proof (ringbuffer_add_wf c p r k Hwf) as Hwf'.
  unfold ring_wf in Hwf. rewrite Hhd in Hwf. destruct Hwf as [Hlt Hlinks].
  destruct (lookup_lt_is_Some_2 _ _ Hlt) as [hnode Hhnode].
  destruct (Hlinks _ _ Hhnode) as [_ Hprev].
  revert Hwf'. unfold ringbuffer_add. rewrite Hhd. unfold prev_of. rewrite Hhnode, Hprev.
  set (n := length (heap c)) in *. set (tl := ((hd + (n - 1)) mod n)%nat).
  assert (Htl : (tl < n)%nat) by (apply Nat.mod_upper_bound; lia).
  intros Hwf'. exists tl. cbn [head heap]. rewrite length_alter. fold n.
  split; [done|]. split; [done|].
  split; [simpl; rewrite length_take; lia|].
  intros j Hj. destruct j as [|j].
  - rewrite Nat.add_0_r, Nat.mod_small by done.
    rewrite list_lookup_alter_eq.
    destruct (lookup_lt_is_Some_2 (heap c) tl Htl) as [tnode ->]. reflexivity.
  - assert (Hidx : ((tl + S j) mod n = (hd + j) mod n)%nat).
    { unfold tl. rewrite Nat.Div0.add_mod_idemp_l.
      replace (hd + (n - 1) + S j)%nat with (hd + j + 1 * n)%nat by lia.
      by rewrite Nat.Div0.mod_add. }
    rewrite Hidx. assert (Hne : tl <> ((hd + j) mod n)%nat).
    { unfold tl. rewrite (ring_index n hd (n - 1)), (ring_index n hd j) by lia.
      destruct (Nat.ltb_spec (hd + (n - 1)) n), (Nat.ltb_spec (hd + j) n); lia. }
    rewrite list_lookup_alter_ne by done. rewrite Hfields by lia.
    change (((Some p, r, k) :: take (length l - 1) l) !! S j)
      with (take (length l - 1) l !! j).
    rewrite lookup_take_lt by lia. reflexivity.
Qed.

Lemma cache_after_snoc adds e :
  cache_after (adds ++ [e]) = ringbuffer_add (cache_after adds) e.1.1 e.1.2 e.2.
Proof. unfold cache_after. by rewrite fold_left_app. Qed.

(** The ring after the additions [adds]: the newest entries first, then the
    nodes that were never written. *)
Lemma cache_after_holds adds :
  ring_holds (cache_after adds)
    (take 1025 (map (fun e : cache_entry => (Some e.1.1, e.1.2, e.2)) (rev adds)
                ++ replicate 1025 (None, Rec_OTHER 0, blank_key))).
Proof.
  induction adds as [|e adds IH] using rev_ind.
  - change (cache_after []) with ringbuffer_init. cbn [rev map app].
    rewrite take_ge by (rewrite length_replicate; lia).
    apply ringbuffer_init_holds.
  - rewrite cache_after_snoc, rev_app_distr. cbn [rev map app].
    pose proof (ringbuffer_add_holds _ _ e.1.1 e.1.2 e.2 IH) as Hadd.
    rewrite length_take, length_app, length_replicate in Hadd.
    replace (1025 `min` (length (map (fun e0 : cache_entry => (Some e0.1.1, e0.1.2, e0.2))
                                   (rev adds)) + 1025) - 1)%nat
      with 1024%nat in Hadd by lia.
    rewrite take_take in Hadd. by replace (1024 `min` 1025)%nat with 1024%nat in Hadd by lia.
Qed.

Lemma scan_entries_blank n m p :
  scan_entries (take n (replicate m (None, Rec_OTHER 0, blank_key))) p = None.
Proof. destruct n, m; reflexivity. Qed.

Lemma scan_entries_added (l : list cache_entry) : forall n p,
  scan_entries (take n (map (fun e : cache_entry => (Some e.1.1, e.1.2, e.2)) l
                        ++ replicate 1025 (None, Rec_OTHER 0, blank_key))) p
  = (fun e : cache_entry => (e.1.2, e.2))
      <$> find (fun e : cache_entry => bool_decide (e.1.1 = p)) (take n l).
Proof.
  induction l as [|[[q r] k] l IH]; intros n p.
  - cbn [map app]. rewrite scan_entries_blank. by destruct n.
  - destruct n as [|n]; [done|]. cbn [map app take scan_entries find fst snd fmap option_fmap option_map].
    destruct (bool_decide (q = p)); [done|]. apply IH.
Qed.

(** X1. From [ringbuffer_init] on, the cache is a first-in first-out store of
    the last [RING_BUFFER_SIZE + 1] entries added: after any sequence of
    calls of [ringbuffer_add], [ringbuffer_lookup] for a path returns the
    record and key of the newest entry with that path among the last 1025
    added, and misses, leaving [*record] and [*key] as they were, when there
    is none. *)
Theorem ringbuffer_lookup_after_adds (adds : list cache_entry) (p : cstring)
    (r0 : hfs_catalog_keyed_record_t) (k0 : hfs_catalog_key_t) :
  ringbuffer_lookup (cache_after adds) p r0 k0
  = Some (match newest_entry p adds with
          | Some e => (true, e.1.2, e.2)
          | None => (false, r0, k0)
          end).
Proof.
  pose proof (cache_after_holds adds) as Hholds.
  pose proof Hholds as (hd & Hhd & Hwf & Hlen & _).
  unfold ring_wf in Hwf. rewrite Hhd in Hwf. destruct Hwf as [Hlt _].
  unfold ringbuffer_lookup. rewrite Hhd.
  pose proof (ringbuffer_lookup_loop_scan _ hd _ p Hholds Hhd
                (length (heap (cache_after adds))) 0%nat) as Hscan.
  specialize (Hscan ltac:(lia) ltac:(lia)).
  rewrite Nat.add_0_r, Nat.mod_small, drop_0 in Hscan by lia.
  rewrite Hscan. rewrite scan_entries_added. unfold newest_entry.
  change (S RING_BUFFER_SIZE) with 1025%nat.
  by destruct (find _ _) as [[[q r] k]|].
Qed.

(** The entry just added is the one found. *)
Lemma ringbuffer_add_hit c hd p r k r0 k0 :
  ring_wf c -> head c = Some hd ->
  ringbuffer_lookup (ringbuffer_add c p r k) p r0 k0 = Some (true, r, k).
Proof.
  intros Hwf Hhd. unfold ring_wf in Hwf. rewrite Hhd in Hwf. destruct Hwf as [Hlt Hlinks].
  destruct (lookup_lt_is_Some_2 _ _ Hlt) as [hnode Hhnode].
  destruct (Hlinks _ _ Hhnode) as [_ Hprev].
  unfold ringbuffer_add, ringbuffer_lookup. rewrite Hhd. cbn [head heap].
  unfold prev_of. rewrite Hhnode, Hprev, length_alter.
  set (n := length (heap c)) in *. set (tl := ((hd + (n - 1)) mod n)%nat).
  assert (Htl : (tl < n)%nat) by (apply Nat.mod_upper_bound; lia).
  destruct (lookup_lt_is_Some_2 (heap c) tl Htl) as [tnode Htnode].
  destruct n as [|n']; [lia|]. cbn [ringbuffer_lookup_loop].
  rewrite list_lookup_alter_eq, Htnode. simpl.
  by rewrite strcmp_refl.
Qed.

(** X2. On an initialised ring, whatever it holds, the entry just added is
    the one found: [ringbuffer_lookup] for the path of the last
    [ringbuffer_add] returns true with the record and key of that call. *)
Theorem ringbuffer_lookup_after_add c hd p r k r0 k0 :
  ring_wf c -> head c = Some hd ->
  ringbuffer_lookup (ringbuffer_add c p r k) p r0 k0 = Some (true, r, k).
Proof. apply ringbuffer_add_hit. Qed.

Lemma ringbuffer_lookup_after_add_witness :
  ring_wf ringbuffer_init /\ head ringbuffer_init = Some 0%nat
  /\ ringbuffer_lookup
       (ringbuffer_add ringbuffer_init (cstr "/a") (mk_file 17 0 0 0) blank_key)
       (cstr "/a") (Rec_OTHER 0) blank_key
     = Some (true, mk_file 17 0 0 0, blank_key).
Proof.
  split; [apply ringbuffer_init_wf|]. split; [reflexivity|].
  apply (ringbuffer_lookup_after_add ringbuffer_init 0 (cstr "/a") (mk_file 17 0 0 0)
           blank_key (Rec_OTHER 0) blank_key);
    [apply ringbuffer_init_wf | reflexivity].
Defined.

(** *** ringbuffer_destroy *)

Lemma ring_index_inj (n hd i j : nat) :
  (hd < n)%nat -> (i < n)%nat -> (j < n)%nat ->
  ((hd + i) mod n = (hd + j) mod n)%nat -> i = j.
Proof.
  intros Hhd Hi Hj. rewrite (ring_index n hd i), (ring_index n hd j) by done.
  destruct (Nat.ltb_spec (hd + i) n), (Nat.ltb_spec (hd + j) n); lia.
Qed.

(** The loop of [ringbuffer_destroy] goes once around the ring. *)
Lemma ringbuffer_destroy_loop_spec h hd :
  (hd < length h)%nat ->
  (forall i node, h !! i = Some node -> ring_links_ok (length h) i node) ->
  forall fuel j paths,
    (fuel + j = length h)%nat -> (j < length h)%nat ->
    ringbuffer_destroy_loop fuel h paths
      ((fun i => (hd + i) mod length h)%nat <$> seq 0 j)
      ((hd + j) mod length h)%nat hd
    = Some {| freed_paths :=
                paths ++ (seq j fuel ≫= fun i =>
                            option_list (h !! ((hd + i) mod length h)%nat ≫= path));
              freed_nodes := (fun i => (hd + i) mod length h)%nat <$> seq 0 (length h);
              head_after := Some hd |}.
Proof.
  intros Hhd Hlinks. set (n := length h) in *.
  induction fuel as [|fuel IH]; intros j paths Hsum Hj; [lia|].
  cbn [ringbuffer_destroy_loop].
  rewrite bool_decide_eq_false_2.
  2:{ intros Hin. apply list_elem_of_fmap in Hin as (i & Heq & Hi).
      apply elem_of_seq in Hi. apply ring_index_inj in Heq; lia. }
  assert (Hit : ((hd + j) mod n < n)%nat) by (apply Nat.mod_upper_bound; lia).
  destruct (lookup_lt_is_Some_2 h _ Hit) as [node Hnode]. rewrite Hnode.
  destruct (Hlinks _ _ Hnode) as [Hnext _]. fold n in Hnext. rewrite Hnext.
  assert (Hstep : (S ((hd + j) mod n) mod n = (hd + S j) mod n)%nat).
  { replace (S ((hd + j) mod n)) with ((hd + j) mod n + 1)%nat by lia.
    rewrite Nat.Div0.add_mod_idemp_l. f_equal. lia. }
  rewrite Hstep.
  assert (Hfreed : ((fun i => (hd + i) mod n)%nat <$> seq 0 j) ++ [((hd + j) mod n)%nat]
                   = (fun i => (hd + i) mod n)%nat <$> seq 0 (S j)).
  { by rewrite seq_S, fmap_app. }
  rewrite Hfreed. change (seq j (S fuel)) with (j :: seq (S j) fuel).
  rewrite bind_cons, Hnode. cbn [mbind option_bind].
  destruct (Nat.eqb_spec ((hd + S j) mod n) hd) as [Heq|Hne].
  - assert (S j = n) as Hlast.
    { destruct (decide (S j = n)) as [|Hmore]; [done|]. exfalso.
      rewrite (ring_index n hd (S j)) in Heq by lia.
      destruct (Nat.ltb_spec (hd + S j) n); lia. }
    assert (fuel = 0%nat) as -> by lia. rewrite Heq, Hlast. cbn [seq mbind list_bind].
    by rewrite app_nil_r.
  - assert (S j < n)%nat as Hmore.
    { destruct (decide (S j = n)) as [Hlast|]; [|lia]. exfalso. apply Hne.
      rewrite Hlast. replace (hd + n)%nat with (hd + 1 * n)%nat by lia.
      rewrite Nat.Div0.mod_add. apply Nat.mod_small. lia. }
    rewrite IH by lia. by rewrite <- app_assoc.
Qed.

Lemma omap_lookups {A B} (f : A -> option B) (h : list A) :
  omap f h = seq 0 (length h) ≫= (fun i => option_list (h !! i ≫= f)).
Proof.
  induction h as [|x h IH] using rev_ind; [done|].
  rewrite omap_app, length_app, Nat.add_1_r, seq_S, bind_app. cbn [length seq].
  f_equal.
  - rewrite IH. apply Forall_bind_ext, Forall_forall. intros i Hi.
    apply elem_of_seq in Hi. by rewrite lookup_app_l by lia.
  - rewrite bind_cons. cbn [seq]. rewrite list_lookup_middle by done. simpl.
    destruct (f x); reflexivity.
Qed.

(** X3. [ringbuffer_destroy] on an initialised ring returns after one turn:
    it frees every node exactly once and, with the nodes, exactly the path
    strings that the cache holds; it leaves the global [head] as it was, so
    pointing to a freed node and not NULL. Before [ringbuffer_init] it frees
    nothing. *)
Theorem ringbuffer_destroy_frees_ring c hd :
  ring_wf c -> head c = Some hd ->
  exists d,
    ringbuffer_destroy c = Some d
    /\ NoDup (freed_nodes d)
    /\ (forall i, i ∈ freed_nodes d <-> (i < length (heap c))%nat)
    /\ freed_paths d ≡ₚ omap path (heap c)
    /\ head_after d = Some hd.
Proof.
  intros Hwf Hhd. unfold ring_wf in Hwf. rewrite Hhd in Hwf. destruct Hwf as [Hlt Hlinks].
  unfold ringbuffer_destroy. rewrite Hhd.
  pose proof (ringbuffer_destroy_loop_spec (heap c) hd Hlt Hlinks
                (length (heap c)) 0%nat [] ltac:(lia) ltac:(lia)) as Hloop.
  rewrite Nat.add_0_r, Nat.mod_small in Hloop by lia. cbn [seq fmap list_fmap] in Hloop.
  rewrite Hloop. eexists. split; [reflexivity|]. cbn [freed_nodes freed_paths head_after].
  set (n := length (heap c)) in *.
  assert (Hnodup : NoDup ((fun i => (hd + i) mod n)%nat <$> seq 0 n)).
  { apply NoDup_fmap_2_strong; [|apply NoDup_seq].
    intros i j Hi Hj Heq. apply elem_of_seq in Hi, Hj.
    apply ring_index_inj in Heq; lia. }
  assert (Hmem : forall i, i ∈ (fun i => (hd + i) mod n)%nat <$> seq 0 n <-> (i < n)%nat).
  { intros i. rewrite list_elem_of_fmap. split.
    - intros (j & -> & _). apply Nat.mod_upper_bound. lia.
    - intros Hi. exists ((i + (n - hd)) mod n)%nat. split.
      + rewrite Nat.Div0.add_mod_idemp_r.
        replace (hd + (i + (n - hd)))%nat with (i + 1 * n)%nat by lia.
        rewrite Nat.Div0.mod_add. symmetry. by apply Nat.mod_small.
      + apply elem_of_seq. pose proof (Nat.mod_upper_bound (i + (n - hd)) n). lia. }
  split; [done|]. split; [done|]. split; [|done].
  rewrite app_nil_l, omap_lookups. fold n.
  assert (Hperm : (fun i => (hd + i) mod n)%nat <$> seq 0 n ≡ₚ seq 0 n).
  { apply NoDup_Permutation; [done|apply NoDup_seq|].
    intros i. rewrite Hmem, elem_of_seq. lia. }
  trans (((fun i => (hd + i) mod n)%nat <$> seq 0 n)
           ≫= fun i => option_list (heap c !! i ≫= path)).
  - by rewrite list_fmap_bind.
  - by rewrite Hperm.
Qed.

Lemma ringbuffer_destroy_frees_ring_witness :
  ring_wf ringbuffer_init /\ head ringbuffer_init = Some 0%nat
  /\ exists d,
       ringbuffer_destroy ringbuffer_init = Some d
       /\ NoDup (freed_nodes d)
       /\ (forall i, i ∈ freed_nodes d <-> (i < length (heap ringbuffer_init))%nat)
       /\ freed_paths d ≡ₚ omap path (heap ringbuffer_init)
       /\ head_after d = Some 0%nat.
Proof.
  split; [apply ringbuffer_init_wf|]. split; [reflexivity|].
  apply (ringbuffer_destroy_frees_ring ringbuffer_init 0);
    [apply ringbuffer_init_wf | reflexivity].
Defined.

(** ** hfs_lookup and the cache *)

Lemma ringbuffer_lookup_hit_any c p r0 k0 r k r0' k0' :
  ringbuffer_lookup c p r0 k0 = Some (true, r, k) ->
  ringbuffer_lookup c p r0' k0' = Some (true, r, k).
Proof.
  unfold ringbuffer_lookup. destruct (head c); [|discriminate].
  by destruct (ringbuffer_lookup_loop _ _ _ _ _) as [[[? ?]|]|].
Qed.

Section LookupCache.

Context `{Utf8proc} `{UnicodeLib} `{Libhfs}.

(** What [lookup_finish] caches is what it returns. *)
Lemma lookup_finish_cached c vol path rec k fork sp :
  let r := lookup_finish c vol path rec k fork sp in
  (lr_ret r <> 0 -> lr_cache r = c)
  /\ (lr_cache r = c \/ lr_cache r = ringbuffer_add c path (lr_record r) (lr_key r))
  /\ (lr_ret r = 0 -> lr_fork r = Some HFS_DATAFORK -> fork = Some HFS_DATAFORK ->
      lr_cache r = ringbuffer_add c path (lr_record r) (lr_key r)).
Proof.
  cbv zeta. unfold lookup_finish, lookup_suffix.
  destruct sp as [rest|].
  - destruct (_ || _); cbn; [repeat split; auto; intros; lia|].
    destruct (lookup_hardlink vol rec) as [[|] rec']; cbn;
      [repeat split; auto; intros; lia|].
    split; [done|]. split; [by left|]. intros _ Hf ->. by inversion Hf.
  - destruct (lookup_hardlink vol rec) as [[|] rec']; cbn;
      [repeat split; auto; intros; lia|].
    split; [done|]. split; [by right|]. done.
Qed.

(** X4. A call of [hfs_lookup] that fails leaves the record cache as it was,
    and so does a hit; a call that changes the cache adds exactly one entry:
    its path with the record and key that it returns. *)
Theorem hfs_lookup_caches_what_it_returns result0 upath0 c vol path rec0 k0 fork r :
  hfs_lookup result0 upath0 c vol path rec0 k0 fork = Some r ->
  (lr_ret r <> 0 -> lr_cache r = c)
  /\ (lr_cache r = c \/ lr_cache r = ringbuffer_add c path (lr_record r) (lr_key r)).
Proof.
  unfold hfs_lookup.
  destruct (ringbuffer_lookup c path rec0 k0) as [[[[|] rec] k]|];
    cbn -[lookup_descend]; try discriminate.
  { intros [= <-]. cbn. auto. }
  destruct (hfslib_find_catalog_record_with_cnid vol HFS_CNID_ROOT_FOLDER)
    as [[e rootrec] rootkey].
  destruct (negb (e =? 0)); cbn -[lookup_descend]; [intros [= <-]; cbn; auto|].
  destruct (lookup_descend _ _ _ _ _ _ _) as [[val rec1 k1|rec1 k1 sp]|];
    cbn -[lookup_descend]; try discriminate.
  { intros [= <-]. cbn. auto. }
  intros [= <-].
  destruct (lookup_finish_cached c vol path rec1 k1
              (option_map (fun _ => HFS_DATAFORK) fork) sp) as (Hfail & Hadd & _).
  by split.
Qed.

(** X5. After a call of [hfs_lookup] on an initialised cache has returned 0
    for a path and left the fork at [HFS_DATAFORK], any later call for the
    same path on that cache is answered from the cache alone: it returns 0
    with the same record and key, does not change the cache, and does so
    whatever the volume is that it is given. *)
Theorem hfs_lookup_again_is_cached result0 upath0 c hd vol path rec0 k0 v r
    result0' upath0' vol' rec0' k0' fork' :
  ring_wf c -> head c = Some hd ->
  hfs_lookup result0 upath0 c vol path rec0 k0 (Some v) = Some r ->
  lr_ret r = 0 -> lr_fork r = Some HFS_DATAFORK ->
  hfs_lookup result0' upath0' (lr_cache r) vol' path rec0' k0' fork'
  = Some {| lr_ret := 0; lr_record := lr_record r; lr_key := lr_key r;
            lr_fork := option_map (fun _ => HFS_DATAFORK) fork';
            lr_cache := lr_cache r |}.
Proof.
  intros Hwf Hhd Hr Hret Hfork.
  assert (Hhit : ringbuffer_lookup (lr_cache r) path rec0' k0'
                 = Some (true, lr_record r, lr_key r)).
  { revert Hr Hret Hfork. unfold hfs_lookup.
    destruct (ringbuffer_lookup c path rec0 k0) as [[[[|] rec] k]|] eqn:Hl;
      cbn -[lookup_descend]; try discriminate.
    { intros [= <-] _ _. cbn. eapply ringbuffer_lookup_hit_any, Hl. }
    destruct (hfslib_find_catalog_record_with_cnid vol HFS_CNID_ROOT_FOLDER)
      as [[e rootrec] rootkey].
    destruct (negb (e =? 0)); cbn -[lookup_descend]; [intros [= <-]; cbn; lia|].
    destruct (lookup_descend _ _ _ _ _ _ _) as [[val rec1 k1|rec1 k1 sp]|] eqn:Hd;
      cbn -[lookup_descend]; try discriminate.
    { intros [= <-]. cbn. intros Hval. apply lookup_descend_RET in Hd. lia. }
    intros [= <-] Hret Hfork.
    destruct (lookup_finish_cached c vol path rec1 k1 (Some HFS_DATAFORK) sp)
      as (_ & _ & ->); try done.
    by eapply ringbuffer_add_hit. }
  unfold hfs_lookup. rewrite Hhit. reflexivity.
Qed.

Lemma cache_miss_lookup c p rec0 k0 :
  ring_wf c -> cache_hit c p = false ->
  ringbuffer_lookup c p rec0 k0 = Some (false, rec0, k0).
Proof.
  intros Hwf Hmiss. destruct (ringbuffer_lookup_total c p rec0 k0 Hwf) as [[[hit r] k] Hres].
  destruct hit.
  - unfold cache_hit in Hmiss.
    by rewrite (ringbuffer_lookup_hit_any _ _ _ _ _ _ (Rec_OTHER 0) blank_key Hres) in Hmiss.
  - by destruct (ringbuffer_lookup_miss _ _ _ _ _ _ Hres) as [-> ->].
Qed.

(** X17. [hfs_lookup] does not look at the first byte of the path
    ([splitptr = splitpath+1]): when the cache has neither of them, two
    paths that differ in their first byte only get the same return value,
    record, key and fork. *)
Theorem hfs_lookup_skips_first_byte result0 upath0 c vol (b1 b2 : Z) (rest : cstring)
    rec0 k0 fork r1 :
  ring_wf c ->
  cache_hit c (b1 :: rest) = false -> cache_hit c (b2 :: rest) = false ->
  hfs_lookup result0 upath0 c vol (b1 :: rest) rec0 k0 fork = Some r1 ->
  exists r2,
    hfs_lookup result0 upath0 c vol (b2 :: rest) rec0 k0 fork = Some r2
    /\ lr_ret r2 = lr_ret r1 /\ lr_record r2 = lr_record r1
    /\ lr_key r2 = lr_key r1 /\ lr_fork r2 = lr_fork r1.
Proof.
  intros Hwf Hm1 Hm2. unfold hfs_lookup.
  rewrite (cache_miss_lookup c _ rec0 k0 Hwf Hm1), (cache_miss_lookup c _ rec0 k0 Hwf Hm2).
  cbn -[lookup_descend].
  destruct (hfslib_find_catalog_record_with_cnid vol HFS_CNID_ROOT_FOLDER)
    as [[e rootrec] rootkey].
  destruct (negb (e =? 0)); [intros [= <-]; by eexists|].
  destruct (lookup_descend _ _ _ _ _ _ _) as [[val rec1 k1|rec1 k1 sp]|];
    cbn -[lookup_descend]; [| |discriminate].
  { intros [= <-]. by eexists. }
  intros [= <-]. eexists. split; [reflexivity|].
  unfold lookup_finish. destruct (lookup_suffix rec1 _ sp); [done|].
  destruct (lookup_hardlink vol rec1) as [[|] rec2]; done.
Qed.

End LookupCache.

Lemma hfs_lookup_caches_what_it_returns_witness :
  fixture_lookup ringbuffer_init fixture_volume (cstr "/nowhere") (Some HFS_DATAFORK)
  = Some nowhere_lookup_result
  /\ (lr_ret nowhere_lookup_result <> 0 -> lr_cache nowhere_lookup_result = ringbuffer_init)
  /\ (lr_cache nowhere_lookup_result = ringbuffer_init
      \/ lr_cache nowhere_lookup_result
         = ringbuffer_add ringbuffer_init (cstr "/nowhere")
             (lr_record nowhere_lookup_result) (lr_key nowhere_lookup_result)).
Proof.
  unfold fixture_lookup.
  assert (Hr : @hfs_lookup utf8proc_fragment fixture_unicode fixture_libhfs 0 empty_unistr
                 ringbuffer_init fixture_volume (cstr "/nowhere") (Rec_OTHER 0) blank_key
                 (Some HFS_DATAFORK) = Some nowhere_lookup_result)
    by (vm_compute; reflexivity).
  split; [exact Hr|].
  exact (@hfs_lookup_caches_what_it_returns utf8proc_fragment fixture_unicode
           fixture_libhfs 0 empty_unistr ringbuffer_init fixture_volume
           (cstr "/nowhere") (Rec_OTHER 0) blank_key (Some HFS_DATAFORK)
           nowhere_lookup_result Hr).
Defined.

Lemma hfs_lookup_again_is_cached_witness :
  ring_wf ringbuffer_init /\ head ringbuffer_init = Some 0%nat
  /\ fixture_lookup ringbuffer_init plain_volume (cstr "/b/c") (Some HFS_DATAFORK)
     = Some plain_lookup_result
  /\ lr_ret plain_lookup_result = 0
  /\ lr_fork plain_lookup_result = Some HFS_DATAFORK
  /\ @hfs_lookup utf8proc_fragment fixture_unicode fixture_libhfs 0 empty_unistr
       (lr_cache plain_lookup_result) fixture_volume (cstr "/b/c") (Rec_OTHER 0)
       blank_key None
     = Some {| lr_ret := 0; lr_record := lr_record plain_lookup_result;
               lr_key := lr_key plain_lookup_result;
               lr_fork := @option_map Z Z (fun _ => HFS_DATAFORK) None;
               lr_cache := lr_cache plain_lookup_result |}.
Proof.
  unfold fixture_lookup.
  assert (Hhd : head ringbuffer_init = Some 0%nat) by reflexivity.
  assert (Hr : @hfs_lookup utf8proc_fragment fixture_unicode fixture_libhfs 0 empty_unistr
                 ringbuffer_init plain_volume (cstr "/b/c") (Rec_OTHER 0) blank_key
                 (Some HFS_DATAFORK) = Some plain_lookup_result)
    by (vm_compute; reflexivity).
  assert (Hret : lr_ret plain_lookup_result = 0) by reflexivity.
  assert (Hfork : lr_fork plain_lookup_result = Some HFS_DATAFORK) by reflexivity.
  split; [apply ringbuffer_init_wf|]. split; [exact Hhd|]. split; [exact Hr|].
  split; [exact Hret|]. split; [exact Hfork|].
  exact (@hfs_lookup_again_is_cached utf8proc_fragment fixture_unicode fixture_libhfs
           0 empty_unistr ringbuffer_init 0%nat plain_volume (cstr "/b/c") (Rec_OTHER 0)
           blank_key HFS_DATAFORK plain_lookup_result 0 empty_unistr fixture_volume
           (Rec_OTHER 0) blank_key None ringbuffer_init_wf Hhd Hr Hret Hfork).
Defined.

(** ** Termination of hfs_lookup *)

Lemma strchr_lt (s : cstring) (d : Z) (i : nat) :
  strchr s d = Some i -> (i < length s)%nat.
Proof.
  revert i. induction s as [|x s IH]; intros i; simpl; [discriminate|].
  destruct (x =? d); [intros [= <-]; lia|].
  destruct (strchr s d) as [j|]; [|discriminate].
  intros [= <-]. specialize (IH j eq_refl). lia.
Qed.

Section LookupTermination.

Context `{Utf8proc} `{UnicodeLib} `{Libhfs}.

Lemma iterated_codepoints_length fuel : forall it,
  (length (iterated_codepoints fuel it) <= length it)%nat.
Proof.
  induction fuel as [|fuel IH]; intros it; simpl; [lia|].
  destruct it as [|x it]; [done|].
  destruct (utf8proc_iterate (x :: it)) as [result codepoint].
  destruct (Z.gtb_spec result 0) as [Hpos|_]; [|simpl; lia].
  cbn [length]. specialize (IH (drop (Z.to_nat result) (x :: it))).
  rewrite length_drop in IH. cbn [length] in IH. lia.
Qed.

Variable D : nat.
Hypothesis decompositions_bounded :
  forall c, (length (utf8proc_decompose_char c) <= D)%nat.
Hypothesis D_pos : (1 <= D)%nat.

Lemma decomposed_length (cps : list Z) :
  (length (concat (map hfs_decompose cps)) <= D * length cps)%nat.
Proof.
  induction cps as [|c cps IH]; simpl; [lia|].
  rewrite length_app. unfold hfs_decompose at 1.
  pose proof (decompositions_bounded c).
  destruct (HFSINRANGE c); simpl; lia.
Qed.

Lemma hfs_pathname_from_unix_total result0 u8 u16 :
  Z.of_nat (D * length u8) < 2 ^ 64 ->
  exists r, hfs_pathname_from_unix result0 u8 u16 = Some r.
Proof.
  intros Hsize. unfold hfs_pathname_from_unix.
  destruct (hfs_utf8proc_NFD_total result0 u8) as [norm ->].
  { pose proof (decomposed_length (iterated_codepoints (S (length u8)) u8)).
    pose proof (iterated_codepoints_length (S (length u8)) u8). nia. }
  cbn [mbind option_bind]. destruct norm as [norm|]; [|eauto].
  destruct (utf8_to_utf16 _) as [[n units] err]. eauto.
Qed.

Lemma lookup_descend_step fuel result0 vol folder k upath sp x pelem sp' :
  strsep sp 47 = (Some (x :: pelem), sp') ->
  Z.of_nat (D * length (x :: pelem)) < 2 ^ 64 ->
  (forall rec k upath, exists d, lookup_descend fuel result0 vol rec k upath sp' = Some d) ->
  exists d, lookup_descend (S fuel) result0 vol (Rec_FLDR folder) k upath sp = Some d.
Proof.
  intros Hsep Hsize Hrec. cbn [lookup_descend]. rewrite Hsep.
  destruct (hfs_pathname_from_unix_total result0 (x :: pelem) upath Hsize) as [[r u] ->].
  cbn [mbind option_bind]. destruct (r <? 0); [eauto|].
  destruct (hfslib_make_catalog_key _ _ _) as [made k1].
  destruct (made =? 0); [eauto|].
  destruct (hfslib_find_catalog_record_with_key vol k1) as [ret rec1].
  destruct (negb (ret =? 0)); [eauto|].
  destruct rec1 as [d1|f1|ty1]; try apply Hrec.
  destruct (is_dir_hard_link f1); [|apply Hrec].
  destruct (hfslib_get_directory_hardlink _ _) as [e rec2].
  destruct (negb (e =? 0)); [eauto|apply Hrec].
Qed.

Lemma strsep_shrinks (s p : cstring) (sp' : option cstring) :
  strsep (Some s) 47 = (Some p, sp') ->
  (length p <= length s)%nat
  /\ match sp' with Some s' => (length s' < length s)%nat | None => True end.
Proof.
  unfold strsep. destruct (strchr s 47) as [i|] eqn:Hchr.
  - pose proof (strchr_lt _ _ _ Hchr) as Hi. intros [= <- <-].
    rewrite length_take, length_drop. lia.
  - by intros [= <- <-].
Qed.

(** The [while] loop of [hfs_lookup] takes at least one byte off the rest of
    the path in every iteration. *)
Lemma lookup_descend_total : forall fuel result0 vol rec k upath sp,
  (match sp with Some s => S (length s) | None => 1 end <= fuel)%nat ->
  (forall s, sp = Some s -> Z.of_nat (D * length s) < 2 ^ 64) ->
  exists d, lookup_descend fuel result0 vol rec k upath sp = Some d.
Proof.
  induction fuel as [|fuel IH]; intros result0 vol rec k upath sp Hfuel Hsize;
    [destruct sp; lia|].
  destruct rec as [folder|f|ty]; [|cbn [lookup_descend]; eauto..].
  destruct (strsep sp 47) as [[[|x pelem]|] sp'] eqn:Hsep;
    [cbn [lookup_descend]; rewrite Hsep; eauto| |cbn [lookup_descend]; rewrite Hsep; eauto].
  destruct sp as [s|]; [|discriminate].
  specialize (Hsize s eq_refl).
  destruct (strsep_shrinks _ _ _ Hsep) as [Hp Hsp']. cbn [length] in Hp.
  eapply lookup_descend_step; [exact Hsep|cbn [length]; nia|].
  intros rec1 k1 u1. apply IH.
  - destruct sp' as [s'|]; lia.
  - intros s' ->. nia.
Qed.

(** X6. [hfs_lookup] returns on every path: its loop uses up at least one
    byte of the path per iteration, and the normalisation of each element
    returns (the number of codepoints it stores, at most [D] for each byte
    of the path where no codepoint decomposes into more than [D], fits a
    [size_t]). *)
Theorem hfs_lookup_total result0 upath0 c vol path rec0 k0 fork :
  ring_wf c ->
  Z.of_nat (D * length path) < 2 ^ 64 ->
  exists r, hfs_lookup result0 upath0 c vol path rec0 k0 fork = Some r.
Proof.
  intros Hwf Hsize. unfold hfs_lookup.
  destruct (ringbuffer_lookup_total c path rec0 k0 Hwf) as [[[hit rec] k] ->].
  cbn -[lookup_descend]. destruct hit; [eauto|].
  destruct (hfslib_find_catalog_record_with_cnid vol HFS_CNID_ROOT_FOLDER)
    as [[e rootrec] rootkey].
  destruct (negb (e =? 0)); [eauto|].
  destruct (lookup_descend_total (S (length path)) result0 vol rootrec rootkey upath0
              (Some (drop 1 path))) as [d ->].
  - rewrite length_drop. lia.
  - intros s [= <-]. rewrite length_drop. nia.
  - cbn. destruct d; eauto.
Qed.

End LookupTermination.

Lemma ucd_decompose_char_length (c : Z) : (length (ucd_decompose_char c) <= 3)%nat.
Proof.
  unfold ucd_decompose_char.
  repeat match goal with |- context [if ?b then _ else _] => destruct b end; simpl; lia.
Qed.

Lemma hfs_lookup_total_witness :
  ring_wf ringbuffer_init
  /\ Z.of_nat (3 * length (cstr "/b/cafe")) < 2 ^ 64
  /\ exists r, fixture_lookup ringbuffer_init fixture_volume (cstr "/b/cafe")
                 (Some HFS_DATAFORK) = Some r.
Proof.
  unfold fixture_lookup.
  assert (Hsize : Z.of_nat (3 * length (cstr "/b/cafe")) < 2 ^ 64)
    by (vm_compute; reflexivity).
  assert (Hpos : (1 <= 3)%nat) by lia.
  split; [apply ringbuffer_init_wf|]. split; [exact Hsize|].
  exact (@hfs_lookup_total utf8proc_fragment fixture_unicode fixture_libhfs 3
           ucd_decompose_char_length Hpos 0 empty_unistr ringbuffer_init fixture_volume
           (cstr "/b/cafe") (Rec_OTHER 0) blank_key (Some HFS_DATAFORK)
           ringbuffer_init_wf Hsize).
Defined.

Lemma hfs_lookup_skips_first_byte_witness :
  ring_wf ringbuffer_init
  /\ cache_hit ringbuffer_init (47 :: cstr "nowhere") = false
  /\ cache_hit ringbuffer_init (63 :: cstr "nowhere") = false
  /\ @hfs_lookup utf8proc_fragment fixture_unicode fixture_libhfs 0 empty_unistr
       ringbuffer_init fixture_volume (47 :: cstr "nowhere") (Rec_OTHER 0) blank_key
       (Some HFS_DATAFORK) = Some nowhere_lookup_result
  /\ exists r2,
       @hfs_lookup utf8proc_fragment fixture_unicode fixture_libhfs 0 empty_unistr
         ringbuffer_init fixture_volume (63 :: cstr "nowhere") (Rec_OTHER 0) blank_key
         (Some HFS_DATAFORK) = Some r2
       /\ lr_ret r2 = lr_ret nowhere_lookup_result
       /\ lr_record r2 = lr_record nowhere_lookup_result
       /\ lr_key r2 = lr_key nowhere_lookup_result
       /\ lr_fork r2 = lr_fork nowhere_lookup_result.
Proof.
  assert (Hm1 : cache_hit ringbuffer_init (47 :: cstr "nowhere") = false)
    by (vm_compute; reflexivity).
  assert (Hm2 : cache_hit ringbuffer_init (63 :: cstr "nowhere") = false)
    by (vm_compute; reflexivity).
  assert (Hr : @hfs_lookup utf8proc_fragment fixture_unicode fixture_libhfs 0 empty_unistr
                 ringbuffer_init fixture_volume (47 :: cstr "nowhere") (Rec_OTHER 0)
                 blank_key (Some HFS_DATAFORK) = Some nowhere_lookup_result)
    by (vm_compute; reflexivity).
  split; [apply ringbuffer_init_wf|]. split; [exact Hm1|]. split; [exact Hm2|].
  split; [exact Hr|].
  exact (@hfs_lookup_skips_first_byte utf8proc_fragment fixture_unicode fixture_libhfs
           0 empty_unistr ringbuffer_init fixture_volume 47 63 (cstr "nowhere")
           (Rec_OTHER 0) blank_key (Some HFS_DATAFORK) nowhere_lookup_result
           ringbuffer_init_wf Hm1 Hm2 Hr).
Defined.

(** ** More on the normalisation *)

Lemma swap_adjacent_Permutation (buf : list Z) (i : nat) :
  (S i < length buf)%nat -> swap_adjacent buf i ≡ₚ buf.
Proof.
  intros Hlen.
  destruct (lookup_lt_is_Some_2 buf i ltac:(lia)) as [a Ha].
  destruct (lookup_lt_is_Some_2 buf (S i) ltac:(lia)) as [b Hb].
  assert (Hsplit : exists l1 l2, buf = l1 ++ a :: b :: l2 /\ length l1 = i).
  { exists (take i buf), (drop (S (S i)) buf). split; [|rewrite length_take; lia].
    rewrite <- (take_drop_middle buf (S i) b Hb) at 1.
    rewrite (take_S_r buf i a Ha), <- app_assoc. reflexivity. }
  destruct Hsplit as (l1 & l2 & -> & <-).
  rewrite swap_adjacent_middle. apply Permutation_app_head, perm_swap.
Qed.

Section NfdMore.

Context `{Utf8proc}.

Lemma sort_loop_Permutation fuel : forall buf i sorted,
  0 <= i ->
  sort_loop fuel buf (Z.of_nat (length buf)) i = Some sorted ->
  sorted ≡ₚ buf.
Proof.
  induction fuel as [|fuel IH]; intros buf i sorted Hi; simpl; [discriminate|].
  destruct (Z.ltb_spec i (Z.of_nat (length buf) - 1)) as [Hlt|_]; [|by intros [= <-]].
  destruct (negb _); [apply IH, size_t_wrap_nonneg|].
  destruct (_ && _); [|apply IH, size_t_wrap_nonneg].
  rewrite <- (length_swap_adjacent buf (Z.to_nat i)) at 1.
  intros Hs. rewrite (IH _ _ _ (size_t_wrap_nonneg _) Hs).
  apply swap_adjacent_Permutation. lia.
Qed.

(** X7. The reordering pass of the normalisation returns, and what it leaves
    in the buffer is a permutation of what it found there: no codepoint is
    lost and none is stored twice. *)
Theorem sort_combining_characters_permutes buf :
  Z.of_nat (length buf) < 2 ^ 64 ->
  exists sorted,
    sort_combining_characters buf (Z.of_nat (length buf)) = Some sorted
    /\ sorted ≡ₚ buf.
Proof.
  intros Hsize. destruct (sort_combining_characters_total buf Hsize) as [sorted Hs].
  exists sorted. split; [done|]. revert Hs. unfold sort_combining_characters.
  destruct (Z.leb_spec (Z.of_nat (length buf)) 1) as [|Hlen]; [by intros [= <-]|].
  intros Hs. rewrite <- (length_sort_first_pair buf) in Hs.
  apply sort_loop_Permutation in Hs; [|lia]. rewrite Hs.
  unfold sort_first_pair. destruct (_ && _); [|done].
  apply swap_adjacent_Permutation. lia.
Qed.

(** *** ASCII strings *)

Hypothesis ascii_ok : utf8proc_ascii.

Lemma HFSINRANGE_ascii b : ascii_byte b -> HFSINRANGE b = true.
Proof. intros Hb. apply HFSINRANGE_spec. unfold ascii_byte in Hb. repeat split; lia. Qed.

Lemma nfd_count_ascii fuel : forall it result len,
  (length it < fuel)%nat -> Forall ascii_byte it ->
  nfd_count fuel it result len
  = Some (match it with [] => result | _ => 1 end, len + Z.of_nat (length it)).
Proof.
  destruct ascii_ok as (Hit & Hdec & _).
  induction fuel as [|fuel IH]; intros it result len Hfuel Hascii; [lia|].
  destruct Hascii as [|b it Hb Hrest]; cbn [nfd_count]; [by rewrite Z.add_0_r|].
  rewrite (Hit b it Hb). cbn [Z.gtb Z.compare]. rewrite (HFSINRANGE_ascii b Hb), (Hdec b Hb).
  cbn [length Z.of_nat Z.gtb Z.compare Pos.of_succ_nat Pos.succ].
  change (drop (Z.to_nat 1) (b :: it)) with it.
  rewrite IH by (simpl in Hfuel; done || lia). f_equal. f_equal.
  - by destruct it.
  - cbn [length]. lia.
Qed.

Lemma nfd_fill_ascii fuel : forall u8 buf,
  (length u8 < fuel)%nat -> Forall ascii_byte u8 ->
  nfd_fill fuel u8 buf = Some (buf ++ u8).
Proof.
  destruct ascii_ok as (Hit & Hdec & _).
  induction fuel as [|fuel IH]; intros u8 buf Hfuel Hascii; [lia|].
  destruct Hascii as [|b it Hb Hrest]; cbn [nfd_fill]; [by rewrite app_nil_r|].
  rewrite (Hit b it Hb). cbn [Z.gtb Z.compare]. rewrite (HFSINRANGE_ascii b Hb), (Hdec b Hb).
  change (drop (Z.to_nat 1) (b :: it)) with it.
  rewrite IH by (simpl in Hfuel; done || lia). by rewrite <- app_assoc.
Qed.

Lemma lookup_total_ascii (buf : list Z) (i : nat) :
  Forall ascii_byte buf -> (i < length buf)%nat -> ascii_byte (buf !!! i).
Proof.
  intros Hascii Hi. destruct (lookup_lt_is_Some_2 buf i Hi) as [b Hb].
  rewrite (list_lookup_total_correct _ _ _ Hb).
  by eapply Forall_lookup_1.
Qed.

Lemma sort_loop_ascii fuel : forall buf i,
  Forall ascii_byte buf -> Z.of_nat (length buf) < 2 ^ 64 -> 0 <= i ->
  (Z.to_nat (Z.of_nat (length buf) - i) < fuel)%nat ->
  sort_loop fuel buf (Z.of_nat (length buf)) i = Some buf.
Proof.
  destruct ascii_ok as (_ & _ & Hcc & _).
  induction fuel as [|fuel IH]; intros buf i Hascii Hsize Hi Hfuel; [lia|].
  simpl. destruct (Z.ltb_spec i (Z.of_nat (length buf) - 1)) as [Hlt|_]; [|done].
  rewrite (Hcc (buf !!! Z.to_nat (i + 1))) by (apply lookup_total_ascii; [done|lia]).
  cbn [Z.eqb negb andb].
  assert (Hw2 : size_t_wrap (i + 2) = i + 2) by (apply Z.mod_small; lia).
  rewrite Hw2. apply IH; try done; lia.
Qed.

(** X8. A string of ASCII characters that is not empty comes out of
    [hfs_utf8proc_NFD] as it went in; the empty string makes it return
    NULL. *)
Theorem hfs_utf8proc_NFD_ascii result0 (s : cstring) :
  Forall ascii_byte s -> Z.of_nat (length s) < 2 ^ 64 ->
  hfs_utf8proc_NFD result0 s = Some (match s with [] => None | _ => Some s end).
Proof.
  intros Hascii Hsize. unfold hfs_utf8proc_NFD.
  rewrite nfd_count_ascii by (done || lia). cbn [mbind option_bind].
  destruct s as [|b s]; [by rewrite orb_true_r|].
  cbn [Z.ltb Z.compare orb]. rewrite Z.add_0_l.
  destruct (Z.eqb_spec (Z.of_nat (length (b :: s))) 0) as [Heq|_]; [simpl in Heq; lia|].
  rewrite nfd_fill_ascii by (done || lia). cbn [mbind option_bind app].
  assert (Hsort : sort_combining_characters (b :: s) (Z.of_nat (length (b :: s)))
                  = Some (b :: s)).
  { unfold sort_combining_characters.
    destruct (Z.leb_spec (Z.of_nat (length (b :: s))) 1) as [|Hlen]; [done|].
    assert (Hfirst : sort_first_pair (b :: s) = b :: s).
    { unfold sort_first_pair. destruct ascii_ok as (_ & _ & Hcc & _).
      rewrite (Hcc ((b :: s) !!! 1%nat)) by (apply lookup_total_ascii; [done|lia]).
      cbn [Z.eqb negb]. by rewrite andb_false_r. }
    rewrite Hfirst. apply sort_loop_ascii; [done|done|lia|].
    unfold sort_fuel. rewrite Nat2Z.id.
    assert (Z.to_nat (Z.of_nat (length (b :: s)) - 1) <= length (b :: s))%nat by lia.
    nia. }
  rewrite Hsort. cbn [mbind option_bind].
  destruct ascii_ok as (_ & _ & _ & Hre). by rewrite Hre.
Qed.

End NfdMore.

Lemma utf8proc_fragment_ascii : @utf8proc_ascii utf8proc_fragment.
Proof.
  unfold utf8proc_ascii, ascii_byte. simpl. repeat split.
  - intros b rest Hb. unfold utf8_iterate.
    destruct (Z.ltb_spec b 128); [done|lia].
  - intros b Hb. unfold ucd_decompose_char.
    repeat match goal with
    | |- context [?x =? ?y] => destruct (Z.eqb_spec x y); [lia|]
    end. done.
  - intros b Hb. unfold ucd_combining_class.
    repeat match goal with
    | |- context [?x =? ?y] => destruct (Z.eqb_spec x y); [lia|]
    end. done.
  - intros l Hl. unfold utf8_reencode. induction Hl as [|b l Hb _ IH]; [done|].
    cbn [map concat]. rewrite IH. unfold utf8_encode_char.
    destruct (Z.ltb_spec b 128); [done|lia].
Qed.

Lemma sort_combining_characters_permutes_witness :
  Z.of_nat (length [0x65; 0x0301; 0x0323]) < 2 ^ 64
  /\ exists sorted,
       @sort_combining_characters utf8proc_fragment [0x65; 0x0301; 0x0323]
         (Z.of_nat (length [0x65; 0x0301; 0x0323])) = Some sorted
       /\ sorted ≡ₚ [0x65; 0x0301; 0x0323].
Proof.
  split; [vm_compute; reflexivity|].
  apply (@sort_combining_characters_permutes utf8proc_fragment [0x65; 0x0301; 0x0323]).
  vm_compute; reflexivity.
Defined.

Lemma hfs_utf8proc_NFD_ascii_witness :
  @utf8proc_ascii utf8proc_fragment
  /\ Forall ascii_byte (cstr "Read Me.txt")
  /\ Z.of_nat (length (cstr "Read Me.txt")) < 2 ^ 64
  /\ hfs_nfd (cstr "Read Me.txt") = Some (Some (cstr "Read Me.txt")).
Proof.
  assert (Hascii : Forall ascii_byte (cstr "Read Me.txt")).
  { repeat constructor; vm_compute; split; reflexivity. }
  split; [exact utf8proc_fragment_ascii|]. split; [exact Hascii|].
  split; [vm_compute; reflexivity|].
  apply (@hfs_utf8proc_NFD_ascii utf8proc_fragment utf8proc_fragment_ascii 0
           (cstr "Read Me.txt") Hascii).
  vm_compute; reflexivity.
Defined.

(** ** Pathname conversion *)

Lemma until_nul_replace (c d : Z) (s : list Z) :
  d <> 0 ->
  until_nul (replace_in_cstring c d s) = map (replace_byte c d) (until_nul s).
Proof.
  intros Hd. induction s as [|x s IH]; [done|]. cbn [replace_in_cstring until_nul].
  destruct (Z.eqb_spec x 0) as [->|Hx]; [done|].
  cbn [until_nul map]. rewrite IH. unfold replace_byte at 2.
  destruct (Z.eqb_spec x c).
  - destruct (Z.eqb_spec d 0); [done|]. reflexivity.
  - destruct (Z.eqb_spec x 0); [done|]. reflexivity.
Qed.

Lemma drop_take_app (pos : nat) (mem tail : list Z) :
  ((length mem <= pos)%nat -> tail = []) ->
  drop pos (take pos mem ++ tail) = tail.
Proof.
  intros Htail. destruct (decide (pos <= length mem)%nat) as [Hle|Hgt].
  - rewrite drop_app_length'; [done|]. rewrite length_take. lia.
  - rewrite Htail by lia. rewrite app_nil_r. apply drop_ge. rewrite length_take. lia.
Qed.

Section PathnameMore.

Context `{Utf8proc} `{UnicodeLib}.

(** X9. When [hfs_unistr_to_utf8] returns a positive count,
    [hfs_pathname_to_unix] leaves at [u8] the string of
    [hfs_unistr_to_utf8] with every [/] replaced by [:], so a string
    without [/]; the bytes before [u8] are not touched. When the count is
    zero or negative (an empty name, or a conversion error) the string is
    left as [hfs_unistr_to_utf8] wrote it. *)
Theorem hfs_pathname_to_unix_maps_slashes u16 (mem : list Z) (u8 : nat) ret mem1 :
  hfs_unistr_to_utf8 u16 mem u8 = (ret, mem1) ->
  exists mem2,
    hfs_pathname_to_unix u16 mem u8 = (ret, mem2)
    /\ (ret <= 0 -> mem2 = mem1)
    /\ (0 < ret ->
        cstring_at mem2 u8 = map (replace_byte 47 58) (cstring_at mem1 u8)
        /\ (47 ∉ cstring_at mem2 u8)
        /\ take u8 mem2 = take u8 mem1).
Proof.
  intros Hu. unfold hfs_pathname_to_unix. rewrite Hu.
  destruct (Z.gtb_spec ret 0) as [Hpos|Hle].
  - eexists. split; [reflexivity|]. split; [lia|]. intros _.
    assert (Hstr : cstring_at (take u8 mem1 ++ replace_in_cstring 47 58 (drop u8 mem1)) u8
                   = map (replace_byte 47 58) (cstring_at mem1 u8)).
    { unfold cstring_at. rewrite drop_take_app.
      - by apply until_nul_replace.
      - intros Hlen. by rewrite drop_ge by lia. }
    split; [done|]. split.
    + rewrite Hstr. intros Hin. apply list_elem_of_fmap in Hin as (x & Hx & _).
      unfold replace_byte in Hx. destruct (Z.eqb_spec x 47); lia.
    + destruct (decide (u8 <= length mem1)%nat).
      * rewrite take_app_length'; [done|]. rewrite length_take. lia.
      * rewrite (drop_ge mem1) by lia. cbn [replace_in_cstring]. by rewrite app_nil_r, take_take, Nat.min_id.
  - exists mem1. split; [done|]. split; [done|]. lia.
Qed.

(** X10. [hfs_pathname_from_unix] returns a negative value only when the
    normalisation returns NULL; the value is then [-ENOMEM], and [*u16] is
    left as it was. In particular the empty string is refused this way. An
    error of the conversion to UTF-16 is returned as it is, a positive
    number, where the code units stored do not make up the name. *)
Theorem hfs_pathname_from_unix_negative result0 u8 u16 ret u16' :
  (forall s, 0 <= (utf8_to_utf16 s).2) ->
  hfs_pathname_from_unix result0 u8 u16 = Some (ret, u16') ->
  (ret < 0 <-> hfs_utf8proc_NFD result0 u8 = Some None)
  /\ (ret < 0 -> ret = - ENOMEM /\ u16' = u16)
  /\ (u8 = [] -> ret = - ENOMEM)
  /\ (forall norm n units err,
        hfs_utf8proc_NFD result0 u8 = Some (Some norm) ->
        utf8_to_utf16 (replace_in_cstring 58 47 norm) = (n, units, err) ->
        err <> 0 -> ret = err /\ 0 < ret).
Proof.
  intros Herr. unfold hfs_pathname_from_unix.
  destruct (hfs_utf8proc_NFD result0 u8) as [[norm|]|] eqn:Hnfd;
    cbn [mbind option_bind]; [| |discriminate].
  - pose proof (Herr (replace_in_cstring 58 47 norm)) as He.
    destruct (utf8_to_utf16 _) as [[n units] err] eqn:Hconv. cbn [snd] in He.
    intros [= <- <-]. cbn [us_length].
    assert (Hnonneg : 0 <= (if err =? 0 then n mod 2 ^ 16 else err)).
    { destruct (Z.eqb_spec err 0); [|lia]. apply Z.mod_pos_bound. reflexivity. }
    split; [split; [lia|discriminate]|]. split; [lia|]. split.
    + intros ->. exfalso. revert Hnfd. unfold hfs_utf8proc_NFD. simpl.
      rewrite orb_true_r. discriminate.
    + intros norm' n' units' err' [= <-] Hc Hne. rewrite Hconv in Hc.
      injection Hc as -> -> ->.
      destruct (Z.eqb_spec err' 0); [done|]. lia.
  - intros [= <- <-]. unfold ENOMEM. split; [split; [done|lia]|].
    split; [done|]. split; [done|]. intros; discriminate.
Qed.

End PathnameMore.

Lemma utf8_codepoints_err fuel : forall s, 0 <= (utf8_codepoints fuel s).2.
Proof.
  induction fuel as [|fuel IH]; intros s; cbn [utf8_codepoints snd]; [lia|].
  destruct s as [|b s]; cbn [snd]; [lia|].
  destruct (utf8_iterate (b :: s)) as [n c].
  destruct (n >? 0); [|cbn; unfold EILSEQ; lia].
  specialize (IH (drop (Z.to_nat n) (b :: s))).
  destruct (utf8_codepoints fuel (drop (Z.to_nat n) (b :: s))) as [cs err]. exact IH.
Qed.

Lemma fixture_utf8_to_utf16_err (s : cstring) : 0 <= (fixture_utf8_to_utf16 s).2.
Proof.
  unfold fixture_utf8_to_utf16. pose proof (utf8_codepoints_err (length s) s) as He.
  destruct (utf8_codepoints (length s) s) as [cs err]. exact He.
Qed.

Lemma hfs_pathname_to_unix_maps_slashes_witness :
  @hfs_unistr_to_utf8 fixture_unicode (unistr (cstr "a/b")) (replicate 8 0) 0
  = (3, cstr "a/b" ++ replicate 5 0)
  /\ exists mem2,
       @hfs_pathname_to_unix fixture_unicode (unistr (cstr "a/b")) (replicate 8 0) 0
       = (3, mem2)
       /\ (3 <= 0 -> mem2 = cstr "a/b" ++ replicate 5 0)
       /\ (0 < 3 ->
           cstring_at mem2 0
           = map (replace_byte 47 58) (cstring_at (cstr "a/b" ++ replicate 5 0) 0)
           /\ (47 ∉ cstring_at mem2 0)
           /\ take 0 mem2 = take 0 (cstr "a/b" ++ replicate 5 0)).
Proof.
  assert (Hu : @hfs_unistr_to_utf8 fixture_unicode (unistr (cstr "a/b")) (replicate 8 0) 0
               = (3, cstr "a/b" ++ replicate 5 0)) by (vm_compute; reflexivity).
  split; [exact Hu|].
  exact (@hfs_pathname_to_unix_maps_slashes fixture_unicode (unistr (cstr "a/b"))
           (replicate 8 0) 0 3 (cstr "a/b" ++ replicate 5 0) Hu).
Defined.

Lemma hfs_pathname_from_unix_negative_witness :
  (forall s, 0 <= (fixture_utf8_to_utf16 s).2)
  /\ @hfs_pathname_from_unix utf8proc_fragment fixture_unicode 0 [] empty_unistr
     = Some (- ENOMEM, empty_unistr)
  /\ (- ENOMEM < 0 <-> hfs_nfd [] = Some None).
Proof.
  assert (Hr : @hfs_pathname_from_unix utf8proc_fragment fixture_unicode 0 [] empty_unistr
               = Some (- ENOMEM, empty_unistr)) by (vm_compute; reflexivity).
  split; [exact fixture_utf8_to_utf16_err|]. split; [exact Hr|].
  exact (proj1 (@hfs_pathname_from_unix_negative utf8proc_fragment fixture_unicode 0 []
                  empty_unistr (- ENOMEM) empty_unistr fixture_utf8_to_utf16_err Hr)).
Defined.

(** ** More on hfs_get_path *)

Section GetPathMore.

Context `{UnicodeLib} `{Libhfs}.

Lemma hfs_pathname_to_unix_keeps_before elem (out : list Z) (it : nat) r out' :
  hfs_pathname_to_unix elem out it = (r, out') ->
  forall i, (i < it)%nat -> out' !! i = out !! i.
Proof.
  unfold hfs_pathname_to_unix, hfs_unistr_to_utf8.
  destruct (utf16_to_utf8 _ _) as [[len bytes] err].
  set (mem1 := <[(it + Z.to_nat len)%nat := 0]> (write_at out it bytes)).
  assert (Hmem1 : forall i, (i < it)%nat -> mem1 !! i = out !! i).
  { intros i Hi. unfold mem1. rewrite list_lookup_insert_ne by lia.
    apply lookup_write_at_outside. lia. }
  destruct (_ >? 0); intros [= <- <-] i Hi; [|by apply Hmem1].
  rewrite <- Hmem1 by done.
  destruct (decide (i < length mem1)%nat) as [Hin|Hout].
  - rewrite lookup_app_l by (rewrite length_take; lia). by rewrite lookup_take_lt.
  - rewrite (drop_ge mem1) by lia. cbn [replace_in_cstring]. rewrite app_nil_r.
    rewrite take_ge by lia. done.
Qed.

Lemma get_path_write_keeps_before : forall relems (out : list Z) (it : nat) out' it',
  get_path_write relems out it = (out', it') ->
  forall i, (i < it)%nat -> out' !! i = out !! i.
Proof.
  induction relems as [|elem relems IH]; intros out it out' it'; cbn [get_path_write].
  - by intros [= <- <-].
  - destruct (hfs_pathname_to_unix elem out it) as [r out1] eqn:Hto.
    intros Hw i Hi. rewrite (IH _ _ _ _ Hw) by lia.
    rewrite list_lookup_insert_ne by lia.
    by eapply hfs_pathname_to_unix_keeps_before.
Qed.

Lemma get_path_elements_len fuel vol :
  thread_names_sized vol ->
  forall cnid elements len elements' len',
    get_path_elements fuel vol cnid elements len = Some (Some (elements', len')) ->
    len <= len'.
Proof.
  intros Hsized. induction fuel as [|fuel IH]; intros cnid elements len elements' len';
    cbn [get_path_elements]; [discriminate|].
  destruct (cnid =? HFS_CNID_ROOT_FOLDER); [intros [= _ <-]; lia|].
  pose proof (Hsized cnid) as Hlen.
  destruct (hfslib_find_parent_thread vol cnid) as [parent t]. cbn [snd] in Hlen.
  destruct (parent =? 0); [discriminate|].
  intros Hrec. apply IH in Hrec. lia.
Qed.

(** X11. A path that [hfs_get_path] returns starts with [/]; for the root
    folder it is [/] alone, and no thread record is looked up. *)
Theorem hfs_get_path_starts_with_slash fuel vol cnid s :
  thread_names_sized vol ->
  hfs_get_path fuel vol cnid = Some (Some s) ->
  (exists rest, s = 47 :: rest)
  /\ (cnid = HFS_CNID_ROOT_FOLDER -> s = [47]).
Proof.
  intros Hsized. unfold hfs_get_path.
  destruct (get_path_elements fuel vol cnid [] 0) as [[[elements len]|]|] eqn:Hel;
    cbn [mbind option_bind]; try discriminate.
  pose proof (get_path_elements_len fuel vol Hsized _ _ _ _ _ Hel) as Hlen.
  set (len' := if len =? 0 then 1 else len).
  assert (Hlen' : 1 <= len') by (unfold len'; destruct (Z.eqb_spec len 0); lia).
  destruct (get_path_write (rev elements) _ 1) as [out it] eqn:Hw.
  intros [= <-]. split.
  - pose proof (get_path_write_keeps_before _ _ _ _ _ Hw 0%nat ltac:(lia)) as Hfirst.
    cbn in Hfirst.
    assert (Hout : <[Z.to_nat len' := 0]> out !! 0%nat = Some 47).
    { rewrite list_lookup_insert_ne by lia. done. }
    unfold cstring_at. rewrite drop_0.
    destruct (<[Z.to_nat len' := 0]> out) as [|x rest]; [discriminate|].
    injection Hout as ->. by eexists.
  - intros ->. destruct fuel as [|fuel]; [discriminate|].
    cbn in Hel. injection Hel as <- <-. cbn in Hw. injection Hw as <- <-.
    reflexivity.
Qed.

Lemma get_path_elements_broken fuel vol : forall cnid elements len,
  get_path_elements fuel vol cnid elements len = Some None -> thread_broken vol cnid.
Proof.
  induction fuel as [|fuel IH]; intros cnid elements len; cbn [get_path_elements];
    [discriminate|].
  destruct (Z.eqb_spec cnid HFS_CNID_ROOT_FOLDER) as [|Hroot]; [discriminate|].
  destruct (hfslib_find_parent_thread vol cnid) as [parent t] eqn:Hthread.
  destruct (Z.eqb_spec parent 0) as [->|Hparent].
  - intros _. by eapply broken_here.
  - intros Hrec. eapply broken_above; eauto.
Qed.

Lemma thread_broken_elements vol cnid :
  thread_broken vol cnid ->
  exists n, forall fuel elements len, (n <= fuel)%nat ->
    get_path_elements fuel vol cnid elements len = Some None.
Proof.
  induction 1 as [cnid t Hroot Hthread|cnid parent t Hroot Hthread Hparent _ [n IH]].
  - exists 1%nat. intros [|fuel] elements len Hfuel; [lia|]. cbn [get_path_elements].
    destruct (Z.eqb_spec cnid HFS_CNID_ROOT_FOLDER); [done|]. rewrite Hthread. done.
  - exists (S n). intros [|fuel] elements len Hfuel; [lia|]. cbn [get_path_elements].
    destruct (Z.eqb_spec cnid HFS_CNID_ROOT_FOLDER); [done|]. rewrite Hthread.
    destruct (Z.eqb_spec parent 0); [done|]. apply IH. lia.
Qed.

(** X12. [hfs_get_path] returns NULL exactly when a thread record is missing
    on the way from the CNID up to the root folder. *)
Theorem hfs_get_path_null vol cnid :
  (forall fuel, hfs_get_path fuel vol cnid = Some None -> thread_broken vol cnid)
  /\ (thread_broken vol cnid ->
      exists n, forall fuel, (n <= fuel)%nat -> hfs_get_path fuel vol cnid = Some None).
Proof.
  split.
  - intros fuel. unfold hfs_get_path.
    destruct (get_path_elements fuel vol cnid [] 0) as [[[elements len]|]|] eqn:Hel;
      cbn [mbind option_bind]; try discriminate.
    + destruct (get_path_write _ _ _). discriminate.
    + intros _. by eapply get_path_elements_broken.
  - intros Hbroken. destruct (thread_broken_elements vol cnid Hbroken) as [n Hn].
    exists n. intros fuel Hfuel. unfold hfs_get_path. by rewrite Hn.
Qed.

End GetPathMore.

Lemma plain_volume_thread_names_sized : @thread_names_sized fixture_libhfs plain_volume.
Proof.
  intros cnid. simpl. unfold fixture_find_parent_thread. cbn -[key_eqb].
  repeat match goal with
  | |- context [key_eqb ?a ?k] => destruct (key_eqb a k)
  end; vm_compute; discriminate.
Qed.

Lemma hfs_get_path_starts_with_slash_witness :
  @thread_names_sized fixture_libhfs plain_volume
  /\ @hfs_get_path fixture_unicode fixture_libhfs 3 plain_volume 18
     = Some (Some (cstr "/b/c"))
  /\ (exists rest, cstr "/b/c" = 47 :: rest).
Proof.
  assert (Hp : @hfs_get_path fixture_unicode fixture_libhfs 3 plain_volume 18
               = Some (Some (cstr "/b/c"))) by (vm_compute; reflexivity).
  split; [exact plain_volume_thread_names_sized|]. split; [exact Hp|].
  exact (proj1 (@hfs_get_path_starts_with_slash fixture_unicode fixture_libhfs 3
                  plain_volume 18 (cstr "/b/c") plain_volume_thread_names_sized Hp)).
Defined.

(** ** hfs_open and hfs_close *)

Section OpenProperties.

Context `{PosixFiles}.

Ltac sys_simpl :=
  cbv [hfs_open hfs_close BAIL hfs_open_error call_calloc call_open call_fstat
       call_ioctl call_close call_free get_errno set_errno mbind mret sys_bind
       sys_ret logged fst snd p_os p_calls negb].

Ltac sys_step :=
  match goal with
  | |- context [os_calloc ?w] => destruct (os_calloc w) as [? [|]] eqn:?
  | |- context [os_open ?n ?w] => destruct (os_open n w) as [? ?] eqn:?
  | |- context [os_fstat ?f ?w] => destruct (os_fstat f w) as [[? ?] ?] eqn:?
  | |- context [os_ioctl ?f ?r ?v ?w] => destruct (os_ioctl f r v w) as [[? ?] ?] eqn:?
  | |- context [os_close ?f ?w] => destruct (os_close f w) as [? ?] eqn:?
  | |- context [if ?b then _ else _] => destruct b eqn:?
  end;
  sys_simpl.

Ltac sys_run :=
  sys_simpl; repeat sys_step;
  repeat match goal with
  | Hb : (_ <? _) = true |- _ => apply Z.ltb_lt in Hb
  | Hb : (_ <? _) = false |- _ => apply Z.ltb_ge in Hb
  | Hb : (_ >=? _) = true |- _ => apply Z.geb_le in Hb
  | Hb : (_ >=? _) = false |- _ => rewrite Z.geb_leb in Hb; apply Z.leb_gt in Hb
  | Hb : (if ?x =? 0 then false else true) = false |- _ =>
      destruct (Z.eqb_spec x 0) as [->|?]; [clear Hb|discriminate Hb]
  | Hb : (if ?x =? 0 then false else true) = true |- _ =>
      destruct (Z.eqb_spec x 0) as [?|?]; [discriminate Hb|clear Hb]
  | Hb : (_ =? _) = true |- _ => apply Z.eqb_eq in Hb
  | Hb : (_ =? _) = false |- _ => apply Z.eqb_neq in Hb
  end;
  try lia.

Lemma opened_open name ret (Hret : 0 <= ret) (l : list os_call) :
  opened (Call_open name ret :: l) = ret :: opened l.
Proof.
  unfold opened. simpl. destruct (ret >=? 0) eqn:E; [done|].
  rewrite Z.geb_leb in E. apply Z.leb_gt in E. lia.
Qed.

(** What [hfs_open] does with descriptors and blocks. *)
Lemma hfs_open_descriptors_aux name (s s' : proc) r :
  hfs_open name s = (s', r) ->
  exists new,
    p_calls s' = p_calls s ++ new
    /\ match or_cbdata r with
       | Some dev =>
           or_ret r = 0 /\ 0 <= fd dev
           /\ opened new = [fd dev] /\ closed new = []
           /\ allocated new = 1%nat /\ freed new = 0%nat
       | None => closed new = opened new /\ freed new = allocated new
       end.
Proof.
  destruct s as [w log]. sys_run; intros [= <- <-];
    (eexists; split; [cbn [p_calls]; rewrite <- ?app_assoc; reflexivity|]);
    cbn [or_cbdata or_ret fd app]; rewrite ?opened_open by lia;
    repeat split; try reflexivity; try lia.
  all: unfold opened, closed; simpl;
    match goal with
    | |- context [?z >=? 0] => destruct (Z.geb_spec z 0); first [reflexivity | lia]
    end.
Qed.

(** X13. [hfs_open] never leaks and never hands out a closed descriptor.
    When it stores a device in [vol->cbdata] it returns 0, the descriptor in
    the device is the one that its single call of [open] returned, and it
    has neither closed it nor freed the device. When it stores nothing,
    every descriptor that [open] returned has been closed once, and the
    device, if it was allocated, has been freed once. *)
Theorem hfs_open_descriptors name (s s' : proc) r :
  hfs_open name s = (s', r) ->
  exists new,
    p_calls s' = p_calls s ++ new
    /\ match or_cbdata r with
       | Some dev =>
           or_ret r = 0 /\ 0 <= fd dev
           /\ opened new = [fd dev] /\ closed new = []
           /\ allocated new = 1%nat /\ freed new = 0%nat
       | None => closed new = opened new /\ freed new = allocated new
       end.
Proof. apply hfs_open_descriptors_aux. Qed.

Lemma u32_bound (v : Z) : 0 <= u32 v < 2 ^ 32.
Proof. unfold u32. apply Z.mod_pos_bound. reflexivity. Qed.

Ltac log_mem :=
  repeat first [ apply list_elem_of_here | apply list_elem_of_further ].

(** X14. The block size of the device that [hfs_open] stores. For a
    character or block device it is the value that the request
    [DISKIDEALSIZE] stored, when that is not zero; otherwise [hfs_open] makes
    the request [DISKBLOCKSIZE] and takes its value, or 512 when that is zero
    too; so it is never zero. For a regular file it is [st_blksize], taken as
    a [uint32_t]. *)
Theorem hfs_open_block_size name (s s' : proc) r dev :
  hfs_open name s = (s', r) -> or_cbdata r = Some dev ->
  exists new st,
    p_calls s' = p_calls s ++ new
    /\ Call_fstat (fd dev) 0 st ∈ new
    /\ if S_ISCHR (st_mode st) || S_ISBLK (st_mode st) then
         0 < blksize dev < 2 ^ 32
         /\ exists ideal,
              Call_ioctl (fd dev) DISKIDEALSIZE 0 ideal ∈ new
              /\ if u32 ideal =? 0 then
                   exists blk,
                     Call_ioctl (fd dev) DISKBLOCKSIZE 0 blk ∈ new
                     /\ blksize dev = (if u32 blk =? 0 then 512 else u32 blk)
                 else
                   blksize dev = u32 ideal
                   /\ forall ret v, Call_ioctl (fd dev) DISKBLOCKSIZE ret v ∉ new
       else S_ISREG (st_mode st) = true /\ blksize dev = u32 (st_blksize st).
Proof.
  destruct s as [w log]. sys_run; intros [= <- <-] Hdev; try discriminate;
    injection Hdev as <-; cbn [fd blksize p_calls];
    (eexists; eexists; split; [rewrite <- ?app_assoc; reflexivity|]);
    (split; [cbn [app]; subst; log_mem|]);
    repeat match goal with
    | Hb : (_ || _) = _ |- _ => rewrite Hb
    end; [| | |by split].
  all: split;
    [repeat match goal with
            | |- context [u32 ?v] => lazymatch goal with
                                     | _ : 0 <= u32 v < 2 ^ 32 |- _ => fail
                                     | _ => pose proof (u32_bound v)
                                     end
            end; lia|].
  all: eexists; (split; [cbn [app]; log_mem|]).
  all: match goal with
       | |- context [u32 ?v =? 0] => destruct (Z.eqb_spec (u32 v) 0); try done
       end.
  1,2: eexists; (split; [cbn [app]; log_mem|]);
       match goal with
       | |- context [u32 ?v =? 0] => destruct (Z.eqb_spec (u32 v) 0); first [done|lia]
       end.
  split; [done|]. intros ret v Hin. cbn [app] in Hin.
  repeat (apply elem_of_cons in Hin as [Hin|Hin]; [discriminate|]).
  by apply elem_of_nil in Hin.
Qed.

(** X15. A device that [hfs_open] stored and [hfs_close] then released
    leaves nothing behind: over the two calls, the one descriptor that
    [open] returned has been closed once and the one block allocated has been
    freed once. *)
Theorem hfs_open_close_balanced name (s s1 s2 : proc) r dev u :
  hfs_open name s = (s1, r) -> or_cbdata r = Some dev ->
  hfs_close dev s1 = (s2, u) ->
  exists new,
    p_calls s2 = p_calls s ++ new
    /\ opened new = [fd dev] /\ closed new = [fd dev]
    /\ allocated new = 1%nat /\ freed new = 1%nat.
Proof.
  intros Hopen Hdev Hclose.
  destruct (hfs_open_descriptors_aux name s s1 r Hopen) as (new & Hnew & Hcase).
  rewrite Hdev in Hcase. destruct Hcase as (_ & Hfd & Ho & Hc & Ha & Hf).
  revert Hclose. destruct s1 as [w1 log1]. sys_simpl.
  destruct (os_close (fd dev) w1) as [w2 ret]. intros [= <- _].
  cbn [p_calls] in *. exists (new ++ [Call_close (fd dev) ret; Call_free]).
  rewrite Hnew, <- !app_assoc. split; [done|].
  unfold opened, closed, allocated, freed in *. rewrite !omap_app, ?length_app.
  rewrite Ho, Hc. cbn. split; [done|]. split; [done|]. lia.
Qed.

(** X16. A file that is neither a device nor a regular file (a directory, a
    FIFO, a socket) is refused: when [fstat] succeeds on such a file,
    [hfs_open] stores no device and closes the descriptor; and where
    [errno = e] makes [errno] hold [e] and a [close] that returns 0 leaves
    [errno] alone, the value returned after such a [close] is [-EINVAL]. *)
Theorem hfs_open_refuses_other_files name (s s' : proc) r new dev_fd st :
  hfs_open name s = (s', r) ->
  p_calls s' = p_calls s ++ new ->
  Call_fstat dev_fd 0 st ∈ new ->
  S_ISCHR (st_mode st) || S_ISBLK (st_mode st) || S_ISREG (st_mode st) = false ->
  or_cbdata r = None
  /\ closed new = [dev_fd]
  /\ ((forall e w, os_errno (os_set_errno e w) = e) ->
      (forall fd w w', os_close fd w = (w', 0) -> os_errno w' = os_errno w) ->
      Call_close dev_fd 0 ∈ new ->
      or_ret r = - EINVAL).
Proof.
  destruct s as [w log]. sys_run; intros [= <- <-] Hlog Hin Hkind;
    cbn [p_calls] in Hlog; rewrite <- ?app_assoc in Hlog;
    apply app_inv_head in Hlog; subst new; cbn [app] in Hin;
    repeat (apply elem_of_cons in Hin as [Hin|Hin]; [try discriminate|]);
    try (by apply elem_of_nil in Hin).
  all: inversion Hin; subst; try done; try lia.
  all: try (apply orb_false_iff in Hkind as [Hk1 Hk3]; congruence).
  split; [done|]. split; [done|]. intros Hset Hkeep Hc. cbn [app] in Hc.
  repeat (apply elem_of_cons in Hc as [Hc|Hc]; [try discriminate|]);
    try (by apply elem_of_nil in Hc).
  injection Hc as <-. cbn [or_ret]. f_equal.
  erewrite Hkeep by eassumption. apply Hset.
Qed.

End OpenProperties.

Lemma hfs_open_descriptors_witness :
  or_cbdata (@hfs_open toy_posix (cstr "/dev/sdb2") toy_proc).2
  = Some {| fd := 3; blksize := 2048 |}
  /\ exists new,
       p_calls (@hfs_open toy_posix (cstr "/dev/sdb2") toy_proc).1 = [] ++ new
       /\ match or_cbdata (@hfs_open toy_posix (cstr "/dev/sdb2") toy_proc).2 with
          | Some dev =>
              or_ret (@hfs_open toy_posix (cstr "/dev/sdb2") toy_proc).2 = 0
              /\ 0 <= fd dev
              /\ opened new = [fd dev] /\ closed new = []
              /\ allocated new = 1%nat /\ freed new = 0%nat
          | None => closed new = opened new /\ freed new = allocated new
          end.
Proof.
  split; [vm_compute; reflexivity|].
  apply (@hfs_open_descriptors toy_posix (cstr "/dev/sdb2") toy_proc _ _
           (surjective_pairing _)).
Defined.

Lemma hfs_open_block_size_witness :
  or_cbdata (@hfs_open toy_posix (cstr "/dev/sdb2") toy_proc).2
  = Some {| fd := 3; blksize := 2048 |}
  /\ exists new st,
       p_calls (@hfs_open toy_posix (cstr "/dev/sdb2") toy_proc).1 = [] ++ new
       /\ Call_fstat 3 0 st ∈ new
       /\ if S_ISCHR (st_mode st) || S_ISBLK (st_mode st) then
            0 < 2048 < 2 ^ 32
            /\ exists ideal,
                 Call_ioctl 3 DISKIDEALSIZE 0 ideal ∈ new
                 /\ if u32 ideal =? 0 then
                      exists blk,
                        Call_ioctl 3 DISKBLOCKSIZE 0 blk ∈ new
                        /\ 2048 = (if u32 blk =? 0 then 512 else u32 blk)
                    else
                      2048 = u32 ideal
                      /\ forall ret v, Call_ioctl 3 DISKBLOCKSIZE ret v ∉ new
          else S_ISREG (st_mode st) = true /\ 2048 = u32 (st_blksize st).
Proof.
  assert (Hdev : or_cbdata (@hfs_open toy_posix (cstr "/dev/sdb2") toy_proc).2
                 = Some {| fd := 3; blksize := 2048 |}) by (vm_compute; reflexivity).
  split; [exact Hdev|].
  apply (@hfs_open_block_size toy_posix (cstr "/dev/sdb2") toy_proc _ _
           {| fd := 3; blksize := 2048 |} (surjective_pairing _) Hdev).
Defined.

Lemma hfs_open_close_balanced_witness :
  or_cbdata (@hfs_open toy_posix (cstr "disk.img") toy_proc).2
  = Some {| fd := 3; blksize := 4096 |}
  /\ exists new,
       p_calls (@hfs_close toy_posix {| fd := 3; blksize := 4096 |}
                  (@hfs_open toy_posix (cstr "disk.img") toy_proc).1).1
       = [] ++ new
       /\ opened new = [3] /\ closed new = [3]
       /\ allocated new = 1%nat /\ freed new = 1%nat.
Proof.
  assert (Hdev : or_cbdata (@hfs_open toy_posix (cstr "disk.img") toy_proc).2
                 = Some {| fd := 3; blksize := 4096 |}) by (vm_compute; reflexivity).
  split; [exact Hdev|].
  apply (@hfs_open_close_balanced toy_posix (cstr "disk.img") toy_proc _ _ _
           {| fd := 3; blksize := 4096 |} _ (surjective_pairing _) Hdev
           (surjective_pairing _)).
Defined.

Lemma hfs_open_refuses_other_files_witness :
  let new := [Call_calloc true; Call_open (cstr "/mnt") 3;
              Call_fstat 3 0 {| st_mode := 0x41ED; st_blksize := 4096 |};
              Call_close 3 0; Call_free] in
  p_calls (@hfs_open toy_posix (cstr "/mnt") toy_proc).1 = [] ++ new
  /\ or_cbdata (@hfs_open toy_posix (cstr "/mnt") toy_proc).2 = None
  /\ closed new = [3]
  /\ or_ret (@hfs_open toy_posix (cstr "/mnt") toy_proc).2 = - EINVAL.
Proof.
  intros new.
  assert (Hlog : p_calls (@hfs_open toy_posix (cstr "/mnt") toy_proc).1 = [] ++ new)
    by (vm_compute; reflexivity).
  split; [exact Hlog|].
  destruct (@hfs_open_refuses_other_files toy_posix (cstr "/mnt") toy_proc _ _ new 3
              {| st_mode := 0x41ED; st_blksize := 4096 |} (surjective_pairing _) Hlog)
    as (Hnone & Hclosed & Hret).
  - do 2 apply list_elem_of_further. apply list_elem_of_here.
  - vm_compute; reflexivity.
  - split; [exact Hnone|]. split; [exact Hclosed|]. apply Hret.
    + reflexivity.
    + intros fd w w'. simpl. unfold toy_sys_close.
      destruct (toy_open w); [destruct (fd =? 3)|]; intros [= <-]; reflexivity.
    + do 3 apply list_elem_of_further. apply list_elem_of_here.
Defined.

(** ** hfsdump: the [read] command for a file *)

Section DumpProperties.

Context `{LibhfsRead}.

Lemma dump_file_loop_serves vol ext nextents content size :
  readd_serves vol ext nextents content ->
  size <= Z.of_nat (length content) -> Z.of_nat (length content) < 2 ^ 64 ->
  forall fuel data bytes offset out,
    length data = 4096%nat ->
    0 <= offset <= Z.of_nat (length content) ->
    (Z.to_nat (size - offset) < fuel)%nat ->
    dump_file_loop fuel vol ext nextents size data bytes offset out
    = Some (0, out ++ take (Z.to_nat (size - offset)) (drop (Z.to_nat offset) content)).
Proof.
  intros Hserve Hsize Hlen.
  induction fuel as [|fuel IH]; intros data bytes offset out Hdata Hoff Hfuel; [lia|].
  cbn [dump_file_loop]. rewrite (Hserve data bytes 4096 offset) by lia.
  cbn [Z.eqb andb]. destruct (Z.ltb_spec offset size) as [Hlt|Hge].
  2:{ replace (Z.to_nat (size - offset)) with 0%nat by lia. by rewrite take_0, app_nil_r. }
  set (rest := drop (Z.to_nat offset) content) in *.
  assert (Hrest : length rest = Z.to_nat (Z.of_nat (length content) - offset)).
  { unfold rest. rewrite length_drop. lia. }
  change (Z.to_nat 4096) with 4096%nat.
  set (chunk := take 4096 rest). set (b := Z.of_nat (length chunk)).
  assert (Hchunk : length chunk = (4096 `min` length rest)%nat)
    by (unfold chunk; apply length_take).
  assert (Hbdef : b = Z.of_nat (length chunk)) by reflexivity.
  assert (Hb : 0 < b) by lia.
  assert (Hwrap : u64 (offset + b) = offset + b) by (apply Z.mod_small; lia).
  rewrite Hwrap.
  set (n := if size - offset <? b then size - offset else b).
  assert (Hn : n = Z.min (size - offset) b) by (unfold n; destruct (Z.ltb_spec (size - offset) b); lia).
  rewrite IH.
  - rewrite <- app_assoc. do 2 f_equal.
    assert (Hwritten : take (Z.to_nat n) (chunk ++ drop (length chunk) data)
                       = take (Z.to_nat n) rest).
    { assert (Hle : (Z.to_nat n <= length chunk)%nat) by lia.
      rewrite (take_app_le chunk _ (Z.to_nat n) Hle). unfold chunk. rewrite take_take. f_equal. lia. }
    rewrite Hwritten.
    replace (drop (Z.to_nat (offset + b)) content) with (drop (Z.to_nat b) rest)
      by (unfold rest; rewrite drop_drop; f_equal; lia).
    destruct (Z.le_gt_cases b (size - offset)).
    + replace (Z.to_nat n) with (Z.to_nat b) by lia.
      replace (Z.to_nat (size - offset))
        with (Z.to_nat b + Z.to_nat (size - (offset + b)))%nat by lia.
      by rewrite take_take_drop.
    + replace (Z.to_nat (size - (offset + b))) with 0%nat by lia.
      rewrite take_0, app_nil_r.
      by replace (Z.to_nat n) with (Z.to_nat (size - offset)) by lia.
  - rewrite length_app, length_drop. lia.
  - lia.
  - lia.
Qed.

(** X18. The [read] command of hfsdump writes the fork and nothing more.
    Where [hfslib_readd_with_extents] serves the bytes of the fork and the
    fork has at least as many bytes as the logical size that applies (that
    of the data fork for [HFS_DATAFORK], that of the resource fork for any
    other value of [fork]), the loop ends with [ret == 0] after it has
    written exactly the first [size] bytes of the fork to [stdout]. *)
Theorem dump_file_writes_fork vol cnid fork data_size rsrc_size data0 content :
  let size := if fork =? HFS_DATAFORK then data_size else rsrc_size in
  readd_serves vol (hfslib_get_file_extents vol cnid fork).2
               (hfslib_get_file_extents vol cnid fork).1 content ->
  size <= Z.of_nat (length content) -> Z.of_nat (length content) < 2 ^ 64 ->
  length data0 = 4096%nat ->
  dump_file (S (Z.to_nat size)) vol cnid fork data_size rsrc_size data0
  = Some (0, take (Z.to_nat size) content).
Proof.
  intros size Hserve Hsize Hlen Hdata. unfold dump_file.
  destruct (hfslib_get_file_extents vol cnid fork) as [nextents ext]. cbn [fst snd] in Hserve.
  fold size.
  rewrite (dump_file_loop_serves vol ext nextents content size Hserve Hsize Hlen)
    by (try done; lia).
  by rewrite Z.sub_0_r, drop_0, app_nil_l.
Qed.

End DumpProperties.

Lemma toy_readd_serves content vol ext nextents :
  @readd_serves (toy_readd content) vol ext nextents content.
Proof. intros data bytes len offset _ _. reflexivity. Qed.

Lemma dump_file_writes_fork_witness :
  let content := map Z.of_nat (seq 0 5000) in
  @readd_serves (toy_readd content) (device_volume 0 512) tt 1 content
  /\ 4999 <= Z.of_nat (length content)
  /\ Z.of_nat (length content) < 2 ^ 64
  /\ length (replicate 4096 0) = 4096%nat
  /\ @dump_file (toy_readd content) (S (Z.to_nat 4999)) (device_volume 0 512) 17
       HFS_DATAFORK 4999 0 (replicate 4096 0)
     = Some (0, take (Z.to_nat 4999) content).
Proof.
  intros content.
  split; [apply toy_readd_serves|]. split; [vm_compute; discriminate|].
  split; [vm_compute; reflexivity|]. split; [vm_compute; reflexivity|].
  apply (@dump_file_writes_fork (toy_readd content) (device_volume 0 512) 17
           HFS_DATAFORK 4999 0 (replicate 4096 0) content).
  - apply toy_readd_serves.
  - vm_compute; discriminate.
  - vm_compute; reflexivity.
  - vm_compute; reflexivity.
Defined.
